(** * Thumbnail generator: canvas compositor, generation service and UI state

    A shallow embedding of the application:

    - [src/App.tsx]: [drawCanvas] (module [Canvas]) and the [App] component
      (module [App]), whose React state is a record and whose handlers,
      effects and promise continuations are state transformers;
    - the generation service ([generateThumbnail], [getPromptSuggestions]),
      module [Service], with the remote models as functions that answer or
      throw;
    - JavaScript numbers are IEEE 754 binary64 values: module [Binary64]
      takes the operations of the standard library's [SpecFloat] at
      precision 53 and proves, from their definitions, the rounding facts the
      canvas arithmetic needs.

    - [src/components/Loader.tsx] rotates the messages of the loading
      indicator (module [Loader]); the page sees it as the view
      [LoaderView].

    Each module of definitions is followed by the facts proved about it;
    the modules [CanvasProperties], [ServiceProperties], [AppProperties] and
    [LoaderProperties] hold further properties of the same code. *)

From Stdlib Require Import ZArith Lia Reals Lra Bool List String Ascii.
From Stdlib Require Import Floats.SpecFloat.
Import ListNotations.

Local Open Scope Z_scope.

(** * JavaScript numbers *)

Module Binary64.

Definition prec : Z := 53.
Definition emax : Z := 1024.

(** A JavaScript Number: a binary64 value. *)
Definition Number : Type := spec_float.

Definition NaN : Number := S754_nan.

(** [ToNumber] of an integer value (exact below [2^53]). *)
Definition num_of_Z (z : Z) : Number := binary_normalize prec emax z 0 false.

Definition num_mul : Number -> Number -> Number := SFmul prec emax.
Definition num_div : Number -> Number -> Number := SFdiv prec emax.
Definition num_sub : Number -> Number -> Number := SFsub prec emax.

(** [a > b] *)
Definition num_gt (a b : Number) : bool := SFltb b a.

(** [Math.abs] *)
Definition Math_abs : Number -> Number := SFabs.

(** [Math.round]: the nearest integer, ties towards +infinity; [None]
    stands for the results that are not integers (NaN, the infinities). *)
Definition Math_round (x : Number) : option Z :=
  match x with
  | S754_zero _ => Some 0
  | S754_finite s m e =>
      let v := cond_Zopp s (Zpos m) in
      Some (if 0 <=? e then v * 2 ^ e else (2 * v + 2 ^ (- e)) / 2 ^ (1 - e))
  | S754_infinity _ | S754_nan => None
  end.

(** The literal [0.01]: the double nearest to one hundredth,
    [0x1.47ae147ae147bp-7]. *)
Definition literal_0_01 : Number := S754_finite false 5764607523034235 (-59).

Declare Scope num_scope.
Delimit Scope num_scope with num.
Bind Scope num_scope with Number.
Infix "*" := num_mul : num_scope.
Infix "/" := num_div : num_scope.
Infix "-" := num_sub : num_scope.
Infix ">" := num_gt : num_scope.

(** ** Real values of doubles, for the proofs *)

Definition bpow (e : Z) : R := powerRZ 2 e.

Definition F2R (m e : Z) : R := (IZR m * bpow e)%R.

(** Position of a real [x] relative to the grid point [m * 2^e]. *)
Definition inbetween (m e : Z) (l : location) (x : R) : Prop :=
  match l with
  | loc_Exact => x = (IZR m * bpow e)%R
  | loc_Inexact Lt => (IZR m * bpow e < x < (IZR m + 1 / 2) * bpow e)%R
  | loc_Inexact Eq => x = ((IZR m + 1 / 2) * bpow e)%R
  | loc_Inexact Gt => ((IZR m + 1 / 2) * bpow e < x < (IZR m + 1) * bpow e)%R
  end.

Definition inb_rec (mrs : shr_record) (e : Z) (x : R) : Prop :=
  0 <= shr_m mrs /\ inbetween (shr_m mrs) e (loc_of_shr_record mrs) x.

(** Values with a mantissa of at most 53 bits: the points against which
    a rounded result can be compared without loss. *)
Definition grid (y : R) : Prop :=
  exists m e, 0 <= m < 2 ^ prec /\ y = F2R m e.

(** [x] is the finite positive double of value [v], in the normal range. *)
Definition normal (x : Number) (v : R) : Prop :=
  exists m e, x = S754_finite false m e
    /\ bounded prec emax m e = true
    /\ 2 ^ (prec - 1) <= Zpos m < 2 ^ prec
    /\ v = F2R (Zpos m) e.

(** [v] is a grid point nearest to [x]. *)
Definition nearest (x v : R) : Prop :=
  forall y, grid y -> (Rabs (v - x) <= Rabs (y - x))%R.

(** Rounding [x] to [v] crosses no grid point. *)
Definition squeeze (x v : R) : Prop :=
  (forall y, grid y -> (y <= x)%R -> (y <= v)%R)
  /\ (forall y, grid y -> (x <= y)%R -> (v <= y)%R).

(** ** Rounding facts *)

Lemma bpow_pos e : (0 < bpow e)%R.
Proof. apply powerRZ_lt; lra. Qed.

Lemma bpow_add a b : bpow (a + b) = (bpow a * bpow b)%R.
Proof. apply powerRZ_add; lra. Qed.

Lemma bpow_0 : bpow 0 = 1%R.
Proof. reflexivity. Qed.

Lemma bpow_1 : bpow 1 = 2%R.
Proof. unfold bpow; simpl; lra. Qed.

Lemma bpow_succ e : bpow (e + 1) = (2 * bpow e)%R.
Proof. rewrite bpow_add, bpow_1; lra. Qed.

Lemma bpow_IZR e : 0 <= e -> bpow e = IZR (2 ^ e).
Proof.
  intros He. pattern e. apply natlike_ind; trivial.
  intros x Hx IH. unfold Z.succ. rewrite bpow_succ, IH, Z.pow_add_r by lia.
  rewrite Z.pow_1_r, mult_IZR. lra.
Qed.

Lemma bpow_le a b : a <= b -> (bpow a <= bpow b)%R.
Proof.
  intros Hab. replace b with (a + (b - a)) by lia.
  rewrite bpow_add, (bpow_IZR (b - a)) by lia.
  assert (1 <= 2 ^ (b - a)) by (apply Z.le_trans with (2 ^ 0); [simpl; lia | apply Z.pow_le_mono_r; lia]).
  apply IZR_le in H. pose proof (bpow_pos a). nra.
Qed.

Lemma bpow_lt a b : a < b -> (bpow a < bpow b)%R.
Proof.
  intros Hab. apply Rlt_le_trans with (bpow (a + 1)).
  - rewrite bpow_succ. pose proof (bpow_pos a). lra.
  - apply bpow_le. lia.
Qed.

Lemma pow2_lt_inv a b : 2 ^ a < 2 ^ b -> a < b.
Proof.
  intros H. destruct (Z.lt_ge_cases a b) as [ | Hba]; trivial. exfalso.
  destruct (Z.lt_ge_cases b 0) as [Hb | Hb].
  - rewrite (Z.pow_neg_r 2 b) in H by trivial.
    pose proof (Z.pow_nonneg 2 a). lia.
  - pose proof (Z.pow_le_mono_r 2 b a). lia.
Qed.

Lemma digits2_pos_bounds p :
  2 ^ (Zpos (digits2_pos p) - 1) <= Zpos p < 2 ^ Zpos (digits2_pos p).
Proof.
  induction p as [p IH | p IH | ]; simpl digits2_pos.
  - rewrite Pos2Z.inj_succ. replace (Z.succ (Z.pos (digits2_pos p)) - 1) with (Z.pos (digits2_pos p) - 1 + 1) by lia.
    rewrite !Z.pow_succ_r by lia. rewrite Z.pow_add_r by lia. lia.
  - rewrite Pos2Z.inj_succ. replace (Z.succ (Z.pos (digits2_pos p)) - 1) with (Z.pos (digits2_pos p) - 1 + 1) by lia.
    rewrite !Z.pow_succ_r by lia. rewrite Z.pow_add_r by lia. lia.
  - simpl. lia.
Qed.

Lemma digits2_pos_unique p d :
  2 ^ (d - 1) <= Zpos p < 2 ^ d -> Zpos (digits2_pos p) = d.
Proof.
  intros [Hlo Hhi]. pose proof (digits2_pos_bounds p) as [Hl Hh].
  assert (d - 1 < Zpos (digits2_pos p)).
  { apply (Z.pow_lt_mono_r_iff 2); lia. }
  assert (0 <= d).
  { destruct (Z.le_gt_cases 0 d); trivial. rewrite (Z.pow_neg_r 2 d) in Hhi by lia. lia. }
  assert (Zpos (digits2_pos p) - 1 < d).
  { apply (Z.pow_lt_mono_r_iff 2); lia. }
  lia.
Qed.

Lemma inb_rec_of_loc m e l x :
  0 <= m -> inbetween m e l x -> inb_rec (shr_record_of_loc m l) e x.
Proof.
  intros Hm H. split; destruct l as [ | [ | | ] ]; simpl; trivial.
Qed.

Lemma shr_1_inb mrs e x :
  inb_rec mrs e x ->
  inb_rec (shr_1 mrs) (e + 1) x /\ shr_m (shr_1 mrs) = shr_m mrs / 2.
Proof.
  destruct mrs as [m r s]. intros [Hm H]. unfold inb_rec.
  change (shr_m (Build_shr_record m r s)) with m in *.
  change (loc_of_shr_record (Build_shr_record m r s))
    with (loc_of_shr_record (Build_shr_record 0 r s)) in H.
  pose proof (bpow_pos e) as Hb.
  assert (Hcase : (exists k, 0 <= k /\ m = 2 * k /\ shr_1 (Build_shr_record m r s) = Build_shr_record k false (r || s))
               \/ (exists k, 0 <= k /\ m = 2 * k + 1 /\ shr_1 (Build_shr_record m r s) = Build_shr_record k true (r || s))).
  { destruct m as [ | [p | p | ] | p ]; try lia.
    - left. exists 0. split; [lia | split; [lia | reflexivity]].
    - right. exists (Zpos p). split; [lia | split; [lia | reflexivity]].
    - left. exists (Zpos p). split; [lia | split; [lia | reflexivity]].
    - right. exists 0. split; [lia | split; [lia | reflexivity]]. }
  destruct Hcase as [(k & Hk & -> & ->) | (k & Hk & -> & ->)];
    cbn [shr_m loc_of_shr_record];
    (split; [split; [lia | ] | ]).
  - pose proof (bpow_succ e) as Hs.
    destruct r, s; cbn [inbetween loc_of_shr_record orb] in *;
      rewrite mult_IZR in H; rewrite ?Hs; lra.
  - apply Z.div_unique with 0; lia.
  - pose proof (bpow_succ e) as Hs.
    destruct r, s; cbn [inbetween loc_of_shr_record orb] in *;
      rewrite plus_IZR, mult_IZR in H; rewrite ?Hs; lra.
  - apply Z.div_unique with 1; lia.
Qed.

Lemma iter_shr_1_inb p : forall mrs e x,
  inb_rec mrs e x ->
  inb_rec (iter_pos shr_1 p mrs) (e + Zpos p) x
  /\ shr_m (iter_pos shr_1 p mrs) = shr_m mrs / 2 ^ Zpos p.
Proof.
  induction p as [p IH | p IH | ]; intros mrs e x H; simpl iter_pos.
  - destruct (shr_1_inb _ _ _ H) as [H1 E1].
    destruct (IH _ _ _ H1) as [H2 E2].
    destruct (IH _ _ _ H2) as [H3 E3].
    split.
    + replace (e + Z.pos p~1) with (e + 1 + Z.pos p + Z.pos p) by lia. exact H3.
    + rewrite E3, E2, E1.
      assert (0 < 2 ^ Z.pos p) by (apply Z.pow_pos_nonneg; lia).
      rewrite !Z.div_div by lia.
      replace (Z.pos p~1) with (1 + Z.pos p + Z.pos p) by lia.
      rewrite !Z.pow_add_r, Z.pow_1_r by lia. f_equal. ring.
  - destruct (IH _ _ _ H) as [H2 E2].
    destruct (IH _ _ _ H2) as [H3 E3].
    split.
    + replace (e + Z.pos p~0) with (e + Z.pos p + Z.pos p) by lia. exact H3.
    + rewrite E3, E2.
      assert (0 < 2 ^ Z.pos p) by (apply Z.pow_pos_nonneg; lia).
      rewrite !Z.div_div by lia.
      replace (Z.pos p~0) with (Z.pos p + Z.pos p) by lia.
      rewrite !Z.pow_add_r by lia. f_equal.
  - destruct (shr_1_inb _ _ _ H) as [H1 E1]. split; trivial.
Qed.

Lemma shr_inb mrs e n x :
  inb_rec mrs e x -> 0 <= n ->
  inb_rec (fst (shr mrs e n)) (e + n) x
  /\ shr_m (fst (shr mrs e n)) = shr_m mrs / 2 ^ n
  /\ snd (shr mrs e n) = e + n.
Proof.
  intros H Hn. destruct n as [ | p | p ]; try lia; simpl.
  - rewrite Z.add_0_r, Z.div_1_r. auto.
  - destruct (iter_shr_1_inb p _ _ _ H). auto.
Qed.

Lemma fexp_normal z : -1021 <= z -> fexp prec emax z = z - prec.
Proof. unfold fexp, SpecFloat.emin, prec, emax. lia. Qed.

Lemma Zdigits2_pos_unique m d :
  0 < m -> 2 ^ (d - 1) <= m < 2 ^ d -> Zdigits2 m = d.
Proof.
  destruct m as [ | p | p ]; try lia. intros _ H.
  simpl. apply digits2_pos_unique; trivial.
Qed.

Lemma Zdigits2_bounds m :
  0 < m -> 2 ^ (Zdigits2 m - 1) <= m < 2 ^ Zdigits2 m.
Proof.
  destruct m as [ | p | p ]; try lia. intros _. apply digits2_pos_bounds.
Qed.

Lemma shr_record_of_loc_m m l : shr_m (shr_record_of_loc m l) = m.
Proof. destruct l as [ | [ | | ] ]; reflexivity. Qed.

(** Rounding of a positive value lying in the normal range: the result
    is one of the two neighbouring 53-bit grid points, and a nearest one. *)
Lemma binary_round_aux_correct sx mx ex lx x :
  0 < mx ->
  prec <= Zdigits2 mx ->
  -1021 <= Zdigits2 mx + ex <= emax - 1 ->
  inbetween mx ex lx x ->
  exists m e m',
    binary_round_aux prec emax sx mx ex lx = S754_finite sx m e
    /\ (bounded prec emax m e = true /\ 2 ^ (prec - 1) <= Zpos m < 2 ^ prec)
    /\ 2 ^ (prec - 1) <= m' < 2 ^ prec
    /\ (IZR m' * bpow (Zdigits2 mx + ex - prec) <= x
        < (IZR m' + 1) * bpow (Zdigits2 mx + ex - prec))%R
    /\ (F2R (Zpos m) e = (IZR m' * bpow (Zdigits2 mx + ex - prec))%R
        \/ F2R (Zpos m) e = ((IZR m' + 1) * bpow (Zdigits2 mx + ex - prec))%R)
    /\ (x = (IZR m' * bpow (Zdigits2 mx + ex - prec))%R -> F2R (Zpos m) e = x)
    /\ (Rabs (F2R (Zpos m) e - x) <= bpow (Zdigits2 mx + ex - prec) / 2)%R.
Proof.
  intros Hmx Hd Hrange Hx.
  set (d := Zdigits2 mx) in *.
  set (e1 := d + ex - prec).
  unfold binary_round_aux, shr_fexp. fold d.
  rewrite fexp_normal by lia.
  assert (Hn : 0 <= d + ex - prec - ex) by lia.
  destruct (shr_inb _ ex _ x (inb_rec_of_loc mx ex lx x (Z.lt_le_incl _ _ Hmx) Hx) Hn)
    as ([Hm1 Hin] & Em & Ee).
  rewrite shr_record_of_loc_m in Em.
  destruct (shr (shr_record_of_loc mx lx) ex (d + ex - prec - ex)) as [mrs1 e1'].
  simpl fst in *; simpl snd in *. subst e1'.
  replace (ex + (d + ex - prec - ex)) with e1 in * by (unfold e1; lia).
  set (m1 := shr_m mrs1) in *.
  pose proof (Zdigits2_bounds mx Hmx) as Hdb. fold d in Hdb.
  assert (Hpow : 2 ^ d = 2 ^ (d + ex - prec - ex) * 2 ^ prec).
  { rewrite <- Z.pow_add_r by (unfold prec in *; lia). f_equal. lia. }
  assert (Hpow' : 2 ^ (d - 1) = 2 ^ (d + ex - prec - ex) * 2 ^ (prec - 1)).
  { rewrite <- Z.pow_add_r by (unfold prec in *; lia). f_equal. lia. }
  assert (Hp0 : 0 < 2 ^ (d + ex - prec - ex)) by (apply Z.pow_pos_nonneg; lia).
  assert (Hm1b : 2 ^ (prec - 1) <= m1 < 2 ^ prec).
  { rewrite Em. split.
    - apply Z.div_le_lower_bound; lia.
    - apply Z.div_lt_upper_bound; lia. }
  pose proof (bpow_pos e1) as Hb.
  assert (Hx1 : (IZR m1 * bpow e1 <= x < (IZR m1 + 1) * bpow e1)%R).
  { destruct (loc_of_shr_record mrs1) as [ | [ | | ] ]; simpl in Hin; lra. }
  set (m2 := round_nearest_even m1 (loc_of_shr_record mrs1)).
  assert (Hm2 : (m2 = m1 \/ m2 = m1 + 1)
                /\ (x = (IZR m1 * bpow e1)%R -> m2 = m1)
                /\ (Rabs (IZR m2 * bpow e1 - x) <= bpow e1 / 2)%R).
  { unfold m2. destruct (loc_of_shr_record mrs1) as [ | [ | | ] ];
      simpl in Hin |- *.
    - split; [auto | split; [auto | ]]. rewrite Hin. replace (_ - _)%R with 0%R by ring.
      rewrite Rabs_R0. lra.
    - destruct (Z.even m1); (split; [auto | split; [intros; try reflexivity; exfalso; lra | ]]).
      + rewrite Hin. replace (_ - _)%R with (- (bpow e1 / 2))%R by field.
        rewrite Rabs_Ropp, Rabs_pos_eq; lra.
      + rewrite Hin, plus_IZR. replace (_ - _)%R with (bpow e1 / 2)%R by field.
        rewrite Rabs_pos_eq; lra.
    - split; [auto | split; [intros; try reflexivity; exfalso; lra | ]].
      rewrite Rabs_left1; lra.
    - split; [auto | split; [intros; try reflexivity; exfalso; lra | ]].
      rewrite plus_IZR, Rabs_pos_eq; lra. }
  destruct Hm2 as (Hm2c & Hm2x & Hm2n).
  assert (Hprec : 2 ^ prec = 2 * 2 ^ (prec - 1)) by reflexivity.
  destruct (Z.eq_dec m2 (2 ^ prec)) as [Hov | Hnov].
  - (* the mantissa overflowed to 2^prec: one more shift *)
    assert (Hd2 : Zdigits2 m2 = prec + 1).
    { apply Zdigits2_pos_unique; rewrite Hov.
      - reflexivity.
      - replace (prec + 1 - 1) with prec by lia. split; [lia | ].
        unfold prec. simpl. lia. }
    rewrite Hd2, fexp_normal by (unfold e1, prec in *; lia).
    replace (prec + 1 + e1 - prec - e1) with 1 by lia.
    rewrite Hov. cbn [shr shr_record_of_loc iter_pos]. 
    exists (2 ^ 52)%positive, (e1 + 1), m1.
    split; [ | split; [ | split; [exact Hm1b | split; [exact Hx1 | ] ] ] ].
    + cbn.
      assert (Hle : (e1 + 1 <=? 971) = true)
        by (apply Z.leb_le; unfold e1, emax, prec in *; lia).
      rewrite Hle. reflexivity.
    + split; [ | unfold prec; simpl; lia].
      unfold bounded, canonical_mantissa. apply andb_true_iff. split.
      * apply Z.eqb_eq. change (Z.pos (digits2_pos (2 ^ 52))) with 53.
        rewrite fexp_normal by (unfold e1, prec in *; lia). unfold prec. lia.
      * apply Z.leb_le. unfold e1, emax, prec in *. lia.
    + assert (HF : F2R (Z.pos (2 ^ 52)) (e1 + 1) = (IZR m2 * bpow e1)%R).
      { unfold F2R. rewrite bpow_succ, Hov. change (Z.pos (2 ^ 52)) with (2 ^ 52).
        change (2 ^ prec) with (2 * 2 ^ 52). rewrite mult_IZR. lra. }
      rewrite HF. destruct Hm2c as [-> | ->].
      * lia.
      * rewrite plus_IZR. split; [right; reflexivity | ]. split.
        -- intros Hxe. apply Hm2x in Hxe. lia.
        -- rewrite plus_IZR in Hm2n. exact Hm2n.
  - assert (Hm2b : 2 ^ (prec - 1) <= m2 < 2 ^ prec) by lia.
    assert (Hd2 : Zdigits2 m2 = prec) by (apply Zdigits2_pos_unique; lia).
    rewrite Hd2, fexp_normal by (unfold e1, prec in *; lia).
    replace (prec + e1 - prec - e1) with 0 by lia.
    cbn [shr]. rewrite shr_record_of_loc_m.
    destruct m2 as [ | p2 | p2 ] eqn:E2; try lia.
    exists p2, e1, m1.
    split; [ | split; [ | split; [exact Hm1b | split; [exact Hx1 | ] ] ] ].
    + replace (e1 <=? emax - prec) with true; [reflexivity | ].
      symmetry. apply Z.leb_le. unfold e1, emax, prec in *. lia.
    + split; [ | exact Hm2b].
      unfold bounded, canonical_mantissa. apply andb_true_iff. split.
      * apply Z.eqb_eq. change (Z.pos (digits2_pos p2)) with (Zdigits2 (Zpos p2)).
        rewrite Hd2, fexp_normal by (unfold e1, prec in *; lia). lia.
      * apply Z.leb_le. unfold e1, emax, prec in *. lia.
    + unfold F2R. split; [ | split].
      * destruct Hm2c as [-> | ->]; [left; reflexivity | right; rewrite plus_IZR; reflexivity].
      * intros Hxe. rewrite (Hm2x Hxe). symmetry; exact Hxe.
      * exact Hm2n.
Qed.

Lemma grid_cell m e m' e' :
  0 <= m < 2 ^ prec -> 2 ^ (prec - 1) <= m' < 2 ^ prec ->
  ((IZR m' * bpow e' < F2R m e)%R -> ((IZR m' + 1) * bpow e' <= F2R m e)%R)
  /\ ((F2R m e < (IZR m' + 1) * bpow e')%R -> (F2R m e <= IZR m' * bpow e')%R).
Proof.
  intros Hm Hm'. unfold F2R.
  pose proof (bpow_pos e') as Hb'. pose proof (bpow_pos e) as Hb.
  destruct (Z_lt_le_dec e e') as [Hlt | Hge].
  - (* a coarser cell: the point lies below it *)
    assert (Hbelow : (IZR m * bpow e < IZR m' * bpow e')%R).
    { replace e' with (e + (e' - e)) by lia. rewrite bpow_add.
      rewrite (bpow_IZR (e' - e)) by lia.
      assert (H2 : 2 <= 2 ^ (e' - e)).
      { apply Z.le_trans with (2 ^ 1); [simpl; lia | apply Z.pow_le_mono_r; lia]. }
      assert (Hmm : m < m' * 2 ^ (e' - e)).
      { change (2 ^ prec) with (2 * 2 ^ (prec - 1)) in Hm. nia. }
      apply IZR_lt in Hmm. rewrite mult_IZR in Hmm. nra. }
    split; intros; lra.
  - replace e with (e' + (e - e')) by lia. rewrite bpow_add.
    rewrite (bpow_IZR (e - e')) by lia.
    assert (Hp : 0 < 2 ^ (e - e')) by (apply Z.pow_pos_nonneg; lia).
    set (k := m * 2 ^ (e - e')).
    assert (Hk : (IZR m * (bpow e' * IZR (2 ^ (e - e'))) = IZR k * bpow e')%R).
    { unfold k. rewrite mult_IZR. ring. }
    rewrite Hk. split; intros H.
    + assert (m' < k).
      { apply lt_IZR. apply Rmult_lt_reg_r with (bpow e'); trivial. }
      assert (Hle : m' + 1 <= k) by lia.
      apply IZR_le in Hle. rewrite plus_IZR in Hle. nra.
    + assert (k < m' + 1).
      { apply lt_IZR. rewrite plus_IZR. apply Rmult_lt_reg_r with (bpow e'); trivial. }
      assert (Hle : k <= m') by lia.
      apply IZR_le in Hle. nra.
Qed.

(** The result of rounding is a nearest grid point. *)
Lemma binary_round_aux_nearest mx ex lx x :
  0 < mx ->
  prec <= Zdigits2 mx ->
  -1021 <= Zdigits2 mx + ex <= emax - 1 ->
  inbetween mx ex lx x ->
  exists v, normal (binary_round_aux prec emax false mx ex lx) v
    /\ nearest x v.
Proof.
  intros Hmx Hd Hr Hx.
  destruct (binary_round_aux_correct false mx ex lx x Hmx Hd Hr Hx)
    as (m & e & m' & Heq & [Hb Hmb] & Hm' & Hcell & Hv & Hex & Hn).
  exists (F2R (Zpos m) e). split.
  - exists m, e. rewrite Heq. auto.
  - intros y (my & ey & Hmy & ->).
    destruct (grid_cell my ey m' (Zdigits2 mx + ex - prec) Hmy Hm') as [H1 H2].
    pose proof (bpow_pos (Zdigits2 mx + ex - prec)) as Hbp.
    set (b := bpow (Zdigits2 mx + ex - prec)) in *.
    destruct (Rle_lt_dec (F2R my ey) (IZR m' * b)) as [Hy | Hy].
    + destruct Hv as [Ev | Ev]; rewrite Ev in *;
        unfold Rabs in *; repeat destruct Rcase_abs; lra.
    + specialize (H1 Hy).
      destruct Hv as [Ev | Ev]; rewrite Ev in *;
        unfold Rabs in *; repeat destruct Rcase_abs; lra.
Qed.

Lemma nearest_squeeze x v : nearest x v -> squeeze x v.
Proof.
  intros Hn. split; intros y Hy Hle; specialize (Hn y Hy);
    unfold Rabs in Hn; repeat destruct Rcase_abs; lra.
Qed.

Lemma nearest_exact x v : grid x -> nearest x v -> v = x.
Proof.
  intros Hg Hn. apply nearest_squeeze in Hn. destruct Hn as [Hlo Hhi]. apply Rle_antisym; [apply Hhi | apply Hlo]; trivial; lra.
Qed.

(** ** Multiplication *)

Lemma SFmul_nearest ma ea mb eb :
  2 ^ (prec - 1) <= Zpos ma < 2 ^ prec ->
  2 ^ (prec - 1) <= Zpos mb < 2 ^ prec ->
  -1126 <= ea + eb <= 917 ->
  exists v,
    normal (SFmul prec emax (S754_finite false ma ea) (S754_finite false mb eb)) v
    /\ nearest (F2R (Zpos ma) ea * F2R (Zpos mb) eb) v.
Proof.
  intros Ha Hb He. cbn [SFmul xorb].
  change (2 ^ (prec - 1)) with (2 ^ 52) in *. change (2 ^ prec) with (2 ^ 53) in *.
  assert (Hprod : 2 ^ 104 <= Zpos (ma * mb) < 2 ^ 106).
  { rewrite Pos2Z.inj_mul.
    change (2 ^ 104) with (2 ^ 52 * 2 ^ 52). change (2 ^ 106) with (2 ^ 53 * 2 ^ 53).
    nia. }
  pose proof (Zdigits2_bounds (Zpos (ma * mb)) eq_refl) as Hd.
  assert (Hd1 : 104 < Zdigits2 (Zpos (ma * mb))) by (apply pow2_lt_inv; lia).
  assert (Hd2 : Zdigits2 (Zpos (ma * mb)) - 1 < 106) by (apply pow2_lt_inv; lia).
  apply binary_round_aux_nearest; unfold prec, emax; try lia.
  cbn [inbetween]. unfold F2R. rewrite Pos2Z.inj_mul, mult_IZR, bpow_add. ring.
Qed.

(** ** Division *)

Lemma new_location_inbetween q r d e :
  0 < d -> 0 <= r < d ->
  inbetween q e (new_location d r) ((IZR q + IZR r / IZR d) * bpow e)%R.
Proof.
  intros Hd Hr. pose proof (bpow_pos e) as Hb.
  assert (HdR : (0 < IZR d)%R) by (apply IZR_lt; lia).
  assert (Hfrac : forall c : Z, (IZR r / IZR d = IZR c / IZR d)%R -> r = c).
  { intros c Hc. apply eq_IZR. apply Rmult_eq_reg_r with (/ IZR d)%R; [exact Hc | ].
    apply Rinv_neq_0_compat. lra. }
  assert (Hhalf_lt : 2 * r < d -> (IZR r / IZR d < 1 / 2)%R).
  { intros H. apply IZR_lt in H. rewrite mult_IZR in H.
    apply Rmult_lt_reg_r with (IZR d); trivial. field_simplify; lra. }
  assert (Hhalf_gt : d < 2 * r -> (1 / 2 < IZR r / IZR d)%R).
  { intros H. apply IZR_lt in H. rewrite mult_IZR in H.
    apply Rmult_lt_reg_r with (IZR d); trivial. field_simplify; lra. }
  assert (Hhalf_eq : 2 * r = d -> (IZR r / IZR d = 1 / 2)%R).
  { intros H. apply (f_equal IZR) in H. rewrite mult_IZR in H.
    apply Rmult_eq_reg_r with (IZR d); [ | lra]. field_simplify; lra. }
  assert (Hpos : 0 < r -> (0 < IZR r / IZR d)%R).
  { intros H. apply IZR_lt in H. apply Rdiv_lt_0_compat; trivial. }
  assert (Hlt1 : (IZR r / IZR d < 1)%R).
  { apply Rmult_lt_reg_r with (IZR d); trivial. field_simplify; [ | lra].
    destruct Hr as [_ Hr]. apply IZR_lt in Hr. lra. }
  unfold new_location, new_location_even, new_location_odd.
  destruct (Z.even d) eqn:Hev.
  - destruct (Z.eqb_spec r 0) as [-> | Hr0].
    + cbn [inbetween]. unfold Rdiv. rewrite Rmult_0_l. ring.
    + destruct (Z.compare_spec (2 * r) d) as [E | L | G]; cbn [inbetween].
      * rewrite (Hhalf_eq E). reflexivity.
      * specialize (Hhalf_lt L). specialize (Hpos ltac:(lia)). nra.
      * specialize (Hhalf_gt G). nra.
  - destruct (Z.eqb_spec r 0) as [-> | Hr0].
    + cbn [inbetween]. unfold Rdiv. rewrite Rmult_0_l. ring.
    + assert (Hodd : 2 * r <> d).
      { intros E. rewrite <- E, Z.even_mul in Hev. discriminate. }
      destruct (Z.compare_spec (2 * r + 1) d) as [E | L | G]; cbn [inbetween].
      * specialize (Hhalf_lt ltac:(lia)). specialize (Hpos ltac:(lia)). nra.
      * specialize (Hhalf_lt ltac:(lia)). specialize (Hpos ltac:(lia)). nra.
      * specialize (Hhalf_gt ltac:(lia)). nra.
Qed.

Lemma SFdiv_nearest ma ea mb eb :
  2 ^ (prec - 1) <= Zpos ma < 2 ^ prec ->
  2 ^ (prec - 1) <= Zpos mb < 2 ^ prec ->
  -1021 <= ea - eb <= 1022 ->
  exists v,
    normal (SFdiv prec emax (S754_finite false ma ea) (S754_finite false mb eb)) v
    /\ nearest (F2R (Zpos ma) ea / F2R (Zpos mb) eb) v.
Proof.
  intros Ha Hb He. cbn [SFdiv xorb]. unfold SFdiv_core_binary.
  rewrite (Zdigits2_pos_unique (Zpos ma) prec eq_refl Ha).
  rewrite (Zdigits2_pos_unique (Zpos mb) prec eq_refl Hb).
  replace (prec + ea - (prec + eb)) with (ea - eb) by lia.
  rewrite fexp_normal by lia.
  rewrite Z.min_l by (unfold prec; lia).
  replace (ea - eb - (ea - eb - prec)) with 53 by (unfold prec; lia).
  rewrite Z.shiftl_mul_pow2 by lia.
  change (2 ^ (prec - 1)) with (2 ^ 52) in *. change (2 ^ prec) with (2 ^ 53) in *.
  pose proof (Z_div_mod (Zpos ma * 2 ^ 53) (Zpos mb) eq_refl) as Hdm.
  destruct (Z.div_eucl (Zpos ma * 2 ^ 53) (Zpos mb)) as [q r].
  destruct Hdm as [Hq Hr].
  assert (Hqb : 2 ^ 52 <= q < 2 ^ 54).
  { change (2 ^ 54) with (2 * 2 ^ 53). change (2 ^ 53) with (2 * 2 ^ 52) in *. nia. }
  pose proof (Zdigits2_bounds q ltac:(lia)) as Hd.
  assert (Hd1 : 52 < Zdigits2 q) by (apply pow2_lt_inv; lia).
  assert (Hd2 : Zdigits2 q - 1 < 54) by (apply pow2_lt_inv; lia).
  apply binary_round_aux_nearest; unfold prec, emax; try lia.
  replace (F2R (Zpos ma) ea / F2R (Zpos mb) eb)%R
    with ((IZR q + IZR r / IZR (Zpos mb)) * bpow (ea - eb - 53))%R.
  - apply new_location_inbetween; lia.
  - unfold F2R.
    assert (HbR : (0 < IZR (Zpos mb))%R) by (apply IZR_lt; lia).
    pose proof (bpow_pos eb) as Hpb. pose proof (bpow_pos (ea - eb - 53)) as Hpe.
    assert (Ea : bpow ea = (bpow (ea - eb - 53) * IZR (2 ^ 53) * bpow eb)%R).
    { rewrite <- (bpow_IZR 53) by lia. rewrite <- !bpow_add. f_equal. lia. }
    apply (f_equal IZR) in Hq. rewrite plus_IZR, !mult_IZR in Hq.
    rewrite Ea.
    replace (IZR (Z.pos ma) * (bpow (ea - eb - 53) * IZR (2 ^ 53) * bpow eb))%R
      with ((IZR (Z.pos mb) * IZR q + IZR r) * bpow (ea - eb - 53) * bpow eb)%R
      by (rewrite <- Hq; ring).
    field. split; lra.
Qed.

(** ** Rounding an integer mantissa: conversions and subtraction *)

Lemma bpow_lt_inv a b : (bpow a < bpow b)%R -> a < b.
Proof.
  intros H. destruct (Z.lt_ge_cases a b) as [ | Hba]; trivial.
  apply bpow_le in Hba. lra.
Qed.

Lemma binary_round_nearest mx ex :
  -1021 <= Zpos (digits2_pos mx) + ex <= emax - 1 ->
  exists v, normal (binary_round prec emax false mx ex) v
    /\ nearest (F2R (Zpos mx) ex) v.
Proof.
  intros Hr. unfold binary_round, shl_align.
  rewrite fexp_normal by lia.
  destruct (Z.pos (digits2_pos mx) + ex - prec - ex) as [ | d | d ] eqn:Ed.
  - apply binary_round_aux_nearest; cbn [Zdigits2 inbetween]; try lia; reflexivity.
  - apply binary_round_aux_nearest; cbn [Zdigits2 inbetween]; try lia; reflexivity.
  - change (Pos.iter xO mx d) with (shift_pos d mx).
    pose proof (shift_pos_correct d mx) as Hs.
    change (Z.pow_pos 2 d) with (2 ^ Zpos d) in Hs.
    pose proof (digits2_pos_bounds mx) as Hb.
    assert (Hp : 0 < 2 ^ Zpos d) by (apply Z.pow_pos_nonneg; lia).
    assert (Hdig : Zdigits2 (Zpos (shift_pos d mx)) = prec).
    { apply Zdigits2_pos_unique; [reflexivity | ]. rewrite Hs.
      assert (E1 : prec - 1 = Zpos d + (Zpos (digits2_pos mx) - 1)) by lia.
      assert (E2 : prec = Zpos d + Zpos (digits2_pos mx)) by lia.
      rewrite E1, E2, !Z.pow_add_r by lia. nia. }
    replace (F2R (Zpos mx) ex)
      with (F2R (Zpos (shift_pos d mx)) (Zpos (digits2_pos mx) + ex - prec)).
    + apply binary_round_aux_nearest; rewrite ?Hdig; cbn [inbetween];
        unfold prec, emax in *; try lia; reflexivity.
    + unfold F2R. rewrite Hs, mult_IZR, <- (bpow_IZR (Zpos d)) by lia.
      rewrite Rmult_comm, <- Rmult_assoc, <- bpow_add. rewrite Rmult_comm.
      f_equal. f_equal. lia.
Qed.

Lemma normal_window m e :
  2 ^ (prec - 1) <= Zpos m < 2 ^ prec ->
  (bpow (prec - 1 + e) <= F2R (Zpos m) e < bpow (prec + e))%R.
Proof.
  intros [A B]. unfold F2R.
  rewrite !bpow_add, (bpow_IZR (prec - 1)), (bpow_IZR prec) by (unfold prec; lia).
  pose proof (bpow_pos e). apply IZR_le in A. apply IZR_lt in B. nra.
Qed.

Lemma normal_exponent m e a b :
  2 ^ (prec - 1) <= Zpos m < 2 ^ prec ->
  (bpow a <= F2R (Zpos m) e < bpow b)%R ->
  a - prec < e < b - (prec - 1).
Proof.
  intros Hm [Ha Hb]. pose proof (normal_window m e Hm) as [Hlo Hhi].
  split.
  - assert (H : (bpow a < bpow (prec + e))%R) by lra.
    apply bpow_lt_inv in H. lia.
  - assert (H : (bpow (prec - 1 + e) < bpow b)%R) by lra.
    apply bpow_lt_inv in H. lia.
Qed.

Lemma num_of_Z_spec k :
  0 < k < 2 ^ prec ->
  exists m e, num_of_Z k = S754_finite false m e
    /\ 2 ^ (prec - 1) <= Zpos m < 2 ^ prec
    /\ - 52 <= e <= 0
    /\ F2R (Zpos m) e = IZR k.
Proof.
  intros Hk. destruct k as [ | p | p ]; try lia.
  unfold num_of_Z, binary_normalize.
  pose proof (digits2_pos_bounds p) as Hb.
  assert (Hd : Zpos (digits2_pos p) - 1 < prec) by (apply pow2_lt_inv; lia).
  destruct (binary_round_nearest p 0) as (v & (m & e & Heq & _ & Hm & Hv) & Hsq).
  { unfold emax, prec in *. lia. }
  assert (Hvk : v = IZR (Zpos p)).
  { replace (IZR (Zpos p)) with (F2R (Zpos p) 0) in * by (unfold F2R; rewrite bpow_0; ring).
    apply nearest_exact; trivial. exists (Zpos p), 0. split; [lia | reflexivity]. }
  exists m, e. rewrite Heq. split; [reflexivity | split; [exact Hm | ] ].
  split; [ | congruence].
  assert (Hwin : (bpow 0 <= F2R (Zpos m) e < bpow prec)%R).
  { rewrite <- Hv, Hvk, bpow_0, bpow_IZR by (unfold prec; lia).
    split; [apply IZR_le | apply IZR_lt]; lia. }
  apply normal_exponent in Hwin; trivial. unfold prec in *. lia.
Qed.

Lemma normal_intro m e :
  2 ^ (prec - 1) <= Zpos m < 2 ^ prec -> -1074 <= e <= emax - prec ->
  normal (S754_finite false m e) (F2R (Zpos m) e).
Proof.
  intros Hm He. exists m, e. repeat split; try tauto.
  unfold bounded, canonical_mantissa. apply andb_true_iff. split.
  - apply Z.eqb_eq. change (Zpos (digits2_pos m)) with (Zdigits2 (Zpos m)).
    rewrite (Zdigits2_pos_unique (Zpos m) prec eq_refl Hm).
    unfold fexp, SpecFloat.emin, prec, emax in *. lia.
  - apply Z.leb_le. lia.
Qed.

Lemma num_of_Z_normal k : 0 < k < 2 ^ prec -> normal (num_of_Z k) (IZR k).
Proof.
  intros Hk. destruct (num_of_Z_spec k Hk) as (m & e & -> & Hm & He & <-).
  apply normal_intro; trivial. unfold emax, prec. lia.
Qed.

Lemma normal_unique x y v : normal x v -> normal y v -> x = y.
Proof.
  intros (m1 & e1 & -> & _ & Hm1 & Hv1) (m2 & e2 & -> & _ & Hm2 & Hv2).
  assert (He : e1 = e2).
  { pose proof (normal_window m1 e1 Hm1) as H1. rewrite <- Hv1 in H1.
    pose proof (normal_window m2 e2 Hm2) as H2. rewrite <- Hv2 in H2.
    assert (A : (bpow (prec - 1 + e1) < bpow (prec + e2))%R) by lra.
    assert (B : (bpow (prec - 1 + e2) < bpow (prec + e1))%R) by lra.
    apply bpow_lt_inv in A, B. lia. }
  subst e2. f_equal.
  assert (Hm : Zpos m1 = Zpos m2).
  { apply eq_IZR. apply Rmult_eq_reg_r with (bpow e1).
    - unfold F2R in *. congruence.
    - pose proof (bpow_pos e1). lra. }
  congruence.
Qed.

Lemma SFltb_normal x y vx vy :
  normal x vx -> normal y vy -> (SFltb x y = true <-> (vx < vy)%R).
Proof.
  intros (m1 & e1 & -> & _ & Hm1 & ->) (m2 & e2 & -> & _ & Hm2 & ->).
  unfold SFltb, SFcompare, F2R.
  change (2 ^ prec) with (2 * 2 ^ (prec - 1)) in *.
  pose proof (bpow_pos e1) as Hp1. pose proof (bpow_pos e2) as Hp2.
  assert (Hcoarse : forall ma ea mb eb,
    2 ^ (prec - 1) <= ma < 2 * 2 ^ (prec - 1) -> 2 ^ (prec - 1) <= mb < 2 * 2 ^ (prec - 1) ->
    ea < eb -> (IZR ma * bpow ea < IZR mb * bpow eb)%R).
  { intros ma ea mb eb [A1 A2] [B1 B2] Hlt.
    assert (Hle : (bpow (ea + 1) <= bpow eb)%R) by (apply bpow_le; lia).
    rewrite bpow_succ in Hle. pose proof (bpow_pos ea) as Hpa.
    pose proof (bpow_pos eb) as Hpb.
    assert (HP : (0 < IZR (2 ^ (prec - 1)))%R) by (apply IZR_lt; reflexivity).
    apply IZR_lt in A2. apply IZR_le in B1. rewrite mult_IZR in A2.
    apply Rlt_le_trans with (2 * IZR (2 ^ (prec - 1)) * bpow ea)%R.
    - apply Rmult_lt_compat_r; trivial.
    - apply Rle_trans with (IZR (2 ^ (prec - 1)) * bpow eb)%R.
      + nra.
      + apply Rmult_le_compat_r; lra. }
  destruct (Z.compare_spec e1 e2) as [E | L | G].
  - subst e2. change (Pos.compare_cont Eq m1 m2) with (Pos.compare m1 m2).
    destruct (Pos.compare_spec m1 m2) as [E | L | G].
    + subst. split; [discriminate | lra].
    + split; trivial. intros _. apply Rmult_lt_compat_r; trivial. apply IZR_lt. lia.
    + split; [discriminate | ]. intros H. exfalso.
      assert (IZR (Zpos m2) < IZR (Zpos m1))%R by (apply IZR_lt; lia). nra.
  - split; trivial. intros _. apply Hcoarse; trivial.
  - split; [discriminate | ]. intros H. exfalso.
    pose proof (Hcoarse _ _ _ _ Hm2 Hm1 G). lra.
Qed.

(** ** Subtraction *)

Lemma SFsub_diag m e :
  SFsub prec emax (S754_finite false m e) (S754_finite false m e) = S754_zero false.
Proof.
  cbn [SFsub]. rewrite Z.min_id. unfold shl_align. rewrite Z.sub_diag.
  reflexivity.
Qed.

Lemma shl_align_fst m e ez :
  ez <= e -> Zpos (fst (shl_align m e ez)) = Zpos m * 2 ^ (e - ez).
Proof.
  intros Hle. unfold shl_align.
  destruct (ez - e) as [ | d | d ] eqn:Ed; try lia; cbn [fst].
  - replace (e - ez) with 0 by lia. lia.
  - change (Pos.iter xO m d) with (shift_pos d m).
    rewrite shift_pos_correct. change (Z.pow_pos 2 d) with (2 ^ Zpos d).
    replace (e - ez) with (Zpos d) by lia. lia.
Qed.

Lemma F2R_align m e ez :
  ez <= e -> F2R (m * 2 ^ (e - ez)) ez = F2R m e.
Proof.
  intros Hle. unfold F2R. rewrite mult_IZR, <- bpow_IZR by lia.
  rewrite Rmult_assoc, <- bpow_add. f_equal. f_equal. lia.
Qed.

Lemma SFsub_nearest ma ea mb eb :
  2 ^ (prec - 1) <= Zpos ma < 2 ^ prec ->
  2 ^ (prec - 1) <= Zpos mb < 2 ^ prec ->
  -400 <= ea <= 400 -> -400 <= eb <= 400 ->
  (F2R (Zpos mb) eb < F2R (Zpos ma) ea)%R ->
  exists v,
    normal (SFsub prec emax (S754_finite false ma ea) (S754_finite false mb eb)) v
    /\ nearest (F2R (Zpos ma) ea - F2R (Zpos mb) eb) v.
Proof.
  intros Ha Hb Hea Heb Hlt. cbn [SFsub cond_Zopp].
  set (ez := Z.min ea eb).
  assert (Hza : ez <= ea) by (unfold ez; lia).
  assert (Hzb : ez <= eb) by (unfold ez; lia).
  rewrite (shl_align_fst ma ea ez Hza), (shl_align_fst mb eb ez Hzb).
  rewrite <- (F2R_align (Zpos ma) ea ez Hza), <- (F2R_align (Zpos mb) eb ez Hzb) in Hlt |- *.
  set (za := Zpos ma * 2 ^ (ea - ez)) in *.
  set (zb := Zpos mb * 2 ^ (eb - ez)) in *.
  assert (Hzlt : zb < za).
  { apply lt_IZR. apply Rmult_lt_reg_r with (bpow ez); [apply bpow_pos | exact Hlt]. }
  assert (Hzb0 : 0 < zb).
  { unfold zb. apply Z.mul_pos_pos; [lia | apply Z.pow_pos_nonneg; lia]. }
  assert (Hzab : za < 2 ^ (prec + (ea - ez))).
  { unfold za. rewrite Z.pow_add_r by (unfold prec; lia).
    assert (0 < 2 ^ (ea - ez)) by (apply Z.pow_pos_nonneg; lia). nia. }
  replace (F2R za ez - F2R zb ez)%R with (F2R (za - zb) ez)
    by (unfold F2R; rewrite minus_IZR; ring).
  destruct (za - zb) as [ | p | p ] eqn:Ep; try lia.
  cbn [binary_normalize].
  apply binary_round_nearest.
  pose proof (digits2_pos_bounds p) as Hd.
  assert (Hd1 : Zpos (digits2_pos p) - 1 < prec + (ea - ez)) by (apply pow2_lt_inv; lia).
  unfold prec, emax in *. lia.
Qed.

Lemma SFsub_num_of_Z a b :
  0 < b < a -> a < 2 ^ prec ->
  SFsub prec emax (num_of_Z a) (num_of_Z b) = num_of_Z (a - b).
Proof.
  intros Hb Ha.
  destruct (num_of_Z_spec a ltac:(lia)) as (ma & ea & Ea & Hma & Hea & Hva).
  destruct (num_of_Z_spec b ltac:(lia)) as (mb & eb & Eb & Hmb & Heb & Hvb).
  destruct (num_of_Z_spec (a - b) ltac:(lia)) as (mc & ec & Ec & Hmc & Hec & Hvc).
  rewrite Ea, Eb.
  destruct (SFsub_nearest ma ea mb eb Hma Hmb) as (v & Hn & Hsq); try lia.
  { rewrite Hva, Hvb. apply IZR_lt. lia. }
  apply (normal_unique _ _ v); trivial.
  assert (Hv : v = IZR (a - b)).
  { rewrite Hva, Hvb, <- minus_IZR in Hsq. apply nearest_exact; trivial.
    exists (a - b), 0. split; [lia | ]. unfold F2R. rewrite bpow_0. ring. }
  rewrite Hv. apply num_of_Z_normal. lia.
Qed.

(** ** [Math.round]: the nearest integer, ties towards +infinity. *)

Lemma Math_round_spec m e :
  exists z, Math_round (S754_finite false m e) = Some z
    /\ (IZR z <= F2R (Zpos m) e + 1 / 2 < IZR z + 1)%R.
Proof.
  cbn [Math_round cond_Zopp]. unfold F2R.
  destruct (Z.leb_spec 0 e) as [He | He]; eexists; (split; [reflexivity | ]).
  - rewrite mult_IZR, <- bpow_IZR by lia. lra.
  - set (D := 2 ^ (1 - e)). set (N := 2 * Zpos m + 2 ^ (- e)).
    assert (HD : 0 < D) by (apply Z.pow_pos_nonneg; lia).
    assert (HDe : D = 2 * 2 ^ (- e)).
    { unfold D. replace (1 - e) with (1 + - e) by lia.
      rewrite Z.pow_add_r by lia. reflexivity. }
    pose proof (Z.mul_div_le N D HD) as Hlo.
    pose proof (Z.mul_succ_div_gt N D HD) as Hhi.
    assert (Hb : (bpow e * IZR (2 ^ (- e)) = 1)%R).
    { rewrite <- bpow_IZR by lia. rewrite <- bpow_add.
      replace (e + - e) with 0 by lia. apply bpow_0. }
    assert (HP : (0 < IZR (2 ^ (- e)))%R) by (apply IZR_lt; apply Z.pow_pos_nonneg; lia).
    assert (HN : (IZR (Zpos m) * bpow e + 1 / 2 = IZR N / IZR D)%R).
    { unfold N. rewrite HDe, plus_IZR, !mult_IZR.
      apply Rmult_eq_reg_r with (IZR (2 ^ (- e))); [ | lra].
      replace ((IZR (Z.pos m) * bpow e + 1 / 2) * IZR (2 ^ (- e)))%R
        with (IZR (Z.pos m) * (bpow e * IZR (2 ^ (- e))) + IZR (2 ^ (- e)) / 2)%R by field.
      rewrite Hb. field. lra. }
    rewrite HN.
    assert (HDR : (0 < IZR D)%R) by (apply IZR_lt; lia).
    apply IZR_le in Hlo. apply IZR_lt in Hhi.
    rewrite mult_IZR in Hlo. unfold Z.succ in Hhi. rewrite mult_IZR, plus_IZR in Hhi.
    split.
    + apply Rmult_le_reg_r with (IZR D); trivial. field_simplify; lra.
    + apply Rmult_lt_reg_r with (IZR D); trivial. field_simplify; lra.
Qed.

Lemma Math_round_normal x v c :
  normal x v -> (IZR c - 1 / 2 <= v < IZR c + 1 / 2)%R -> Math_round x = Some c.
Proof.
  intros (m & e & -> & _ & _ & ->) Hc.
  destruct (Math_round_spec m e) as (z & -> & Hz).
  f_equal.
  assert (z < c + 1) by (apply lt_IZR; rewrite plus_IZR; lra).
  assert (c < z + 1) by (apply lt_IZR; rewrite plus_IZR; lra).
  lia.
Qed.

(** ** The tolerance test *)

Lemma binary_round_aux_abs sx mx ex lx :
  SFabs (binary_round_aux prec emax sx mx ex lx)
  = SFabs (binary_round_aux prec emax false mx ex lx).
Proof.
  unfold binary_round_aux.
  destruct (shr_fexp prec emax mx ex lx) as [mrs e].
  destruct (shr_fexp prec emax _ e loc_Exact) as [mrs' e'].
  destruct (shr_m mrs'); try reflexivity.
  destruct (e' <=? emax - prec); reflexivity.
Qed.

Lemma binary_normalize_abs z e :
  SFabs (binary_normalize prec emax (- z) e false)
  = SFabs (binary_normalize prec emax z e false).
Proof.
  destruct z as [ | p | p ]; try reflexivity; cbn [Z.opp binary_normalize];
    unfold binary_round;
    destruct (shl_align p e _) as [mz ez];
    rewrite (binary_round_aux_abs true); reflexivity.
Qed.

Lemma SFabs_SFsub_swap ma ea mb eb :
  SFabs (SFsub prec emax (S754_finite false ma ea) (S754_finite false mb eb))
  = SFabs (SFsub prec emax (S754_finite false mb eb) (S754_finite false ma ea)).
Proof.
  cbn [SFsub cond_Zopp]. rewrite (Z.min_comm eb ea).
  rewrite <- binary_normalize_abs. f_equal. f_equal. lia.
Qed.


(** The two sides of the tolerance test, from the distance of the
    operands. *)
Lemma tolerance_test mt et mr er :
  2 ^ (prec - 1) <= Zpos mt < 2 ^ prec ->
  2 ^ (prec - 1) <= Zpos mr < 2 ^ prec ->
  -400 <= et <= 400 -> -400 <= er <= 400 ->
  ((Rabs (F2R (Zpos mt) et - F2R (Zpos mr) er) <= F2R 5764607523034235 (-59))%R ->
   num_gt (Math_abs (num_sub (S754_finite false mt et) (S754_finite false mr er)))
          literal_0_01 = false)
  /\ ((F2R 5764607523034236 (-59) <= Rabs (F2R (Zpos mt) et - F2R (Zpos mr) er))%R ->
      num_gt (Math_abs (num_sub (S754_finite false mt et) (S754_finite false mr er)))
             literal_0_01 = true).
Proof.
  intros Hmt Hmr Het Her.
  set (vt := F2R (Zpos mt) et). set (vr := F2R (Zpos mr) er).
  assert (Htol : normal literal_0_01 (F2R 5764607523034235 (-59))).
  { apply normal_intro; vm_compute; intuition congruence. }
  assert (Gtol : grid (F2R 5764607523034235 (-59))).
  { exists 5764607523034235, (-59). split; [vm_compute; intuition congruence | reflexivity]. }
  assert (Gtol' : grid (F2R 5764607523034236 (-59))).
  { exists 5764607523034236, (-59). split; [vm_compute; intuition congruence | reflexivity]. }
  assert (Hstep : (F2R 5764607523034235 (-59) < F2R 5764607523034236 (-59))%R).
  { unfold F2R. pose proof (bpow_pos (-59)). apply Rmult_lt_compat_r; trivial.
    apply IZR_lt. reflexivity. }
  assert (Hpos : (0 < F2R 5764607523034235 (-59))%R).
  { unfold F2R. pose proof (bpow_pos (-59)). apply Rmult_lt_0_compat; trivial.
    apply IZR_lt. reflexivity. }
  (* the case of a positive difference, for either order of the operands *)
  assert (Hcase : forall ma ea mb eb,
    2 ^ (prec - 1) <= Zpos ma < 2 ^ prec -> 2 ^ (prec - 1) <= Zpos mb < 2 ^ prec ->
    -400 <= ea <= 400 -> -400 <= eb <= 400 ->
    (F2R (Zpos mb) eb < F2R (Zpos ma) ea)%R ->
    ((F2R (Zpos ma) ea - F2R (Zpos mb) eb <= F2R 5764607523034235 (-59))%R ->
     num_gt (Math_abs (num_sub (S754_finite false ma ea) (S754_finite false mb eb)))
            literal_0_01 = false)
    /\ ((F2R 5764607523034236 (-59) <= F2R (Zpos ma) ea - F2R (Zpos mb) eb)%R ->
        num_gt (Math_abs (num_sub (S754_finite false ma ea) (S754_finite false mb eb)))
               literal_0_01 = true)).
  { intros ma ea mb eb Hma Hmb Hea Heb Hlt.
    destruct (SFsub_nearest ma ea mb eb Hma Hmb Hea Heb Hlt) as (v & Hn & Hv).
    apply nearest_squeeze in Hv. destruct Hv as [Slo Shi].
    unfold num_gt, Math_abs, num_sub.
    assert (Habs : SFabs (SFsub prec emax (S754_finite false ma ea) (S754_finite false mb eb))
                   = SFsub prec emax (S754_finite false ma ea) (S754_finite false mb eb)).
    { destruct Hn as (m & e & -> & _). reflexivity. }
    rewrite Habs. split; intros Hd.
    - apply Bool.not_true_iff_false. rewrite (SFltb_normal _ _ _ _ Htol Hn).
      specialize (Shi _ Gtol Hd). lra.
    - rewrite (SFltb_normal _ _ _ _ Htol Hn).
      specialize (Slo _ Gtol' Hd). lra. }
  destruct (Rtotal_order vr vt) as [Hlt | [Heq | Hgt]].
  - destruct (Hcase mt et mr er Hmt Hmr Het Her Hlt) as [H1 H2].
    fold vt vr in H1, H2.
    split; intros Hd; [apply H1 | apply H2];
      unfold Rabs in Hd; destruct Rcase_abs; lra.
  - assert (E : S754_finite false mr er = S754_finite false mt et).
    { apply (normal_unique _ _ vt).
      - rewrite <- Heq. apply normal_intro; trivial. unfold emax, prec. lia.
      - apply normal_intro; trivial. unfold emax, prec. lia. }
    rewrite E. unfold num_sub. rewrite SFsub_diag. split; intros Hd.
    + reflexivity.
    + exfalso. fold vt in Hd. rewrite <- Heq in Hd.
      replace (vr - vr)%R with 0%R in Hd by ring. rewrite Rabs_R0 in Hd. lra.
  - destruct (Hcase mr er mt et Hmr Hmt Her Het Hgt) as [H1 H2].
    fold vt vr in H1, H2.
    unfold num_gt, Math_abs, num_sub in *. rewrite SFabs_SFsub_swap.
    split; intros Hd; [apply H1 | apply H2];
      unfold Rabs in Hd; destruct Rcase_abs; lra.
Qed.

End Binary64.

(** * Values shared by the three source files *)

Module Js.

(** What a [throw] or a rejected promise carries: an [Error] object with
    its [message], or any other value ([err instanceof Error] is false). *)
Inductive Thrown : Type :=
| Error (message : string)
| NonError (shown : string).

(** A settled promise. *)
Inductive Settled (A : Type) : Type :=
| Resolved (value : A)
| Rejected (reason : Thrown).

Arguments Resolved {A} value.
Arguments Rejected {A} reason.

(** Truthiness of a string and of a [string | null]. *)
Definition truthy (s : string) : bool :=
  match s with
  | EmptyString => false
  | String _ _ => true
  end.

Definition truthy_opt (s : option string) : bool :=
  match s with
  | None => false
  | Some s => truthy s
  end.

(** [s.split(sep)] for a one-character separator. *)
Fixpoint split_from (sep : ascii) (cur s : string) : list string :=
  match s with
  | EmptyString => [cur]
  | String c rest =>
      if Ascii.eqb c sep then cur :: split_from sep EmptyString rest
      else split_from sep (cur ++ String c EmptyString) rest
  end.

Definition split (s : string) (sep : ascii) : list string :=
  split_from sep EmptyString s.

End Js.

(** * [drawCanvas] (src/App.tsx, lines 13-59) *)

Module Canvas.
Import Binary64 Js.

(** [type AspectRatio = '16:9' | '1:1' | '9:16' | '4:3' | '3:4'] *)
Inductive AspectRatio : Type := R16_9 | R1_1 | R9_16 | R4_3 | R3_4.

Definition AspectRatio_text (r : AspectRatio) : string :=
  match r with
  | R16_9 => "16:9"
  | R1_1 => "1:1"
  | R9_16 => "9:16"
  | R4_3 => "4:3"
  | R3_4 => "3:4"
  end.

(** [Number(s)] on the strings [split] yields here: a run of decimal
    digits is its value, the empty string is [0], anything else [NaN]. *)
Definition digit_of (c : ascii) : option Z :=
  let n := Z.of_nat (nat_of_ascii c) in
  if (48 <=? n) && (n <=? 57) then Some (n - 48) else None.

Fixpoint parse_digits (acc : Z) (s : string) : option Z :=
  match s with
  | EmptyString => Some acc
  | String c rest =>
      match digit_of c with
      | Some d => parse_digits (10 * acc + d) rest
      | None => None
      end
  end.

Definition Number_of_string (s : string) : Number :=
  match parse_digits 0 s with
  | Some z => num_of_Z z
  | None => NaN
  end.

(** The decoded image: [image.width] and [image.height]. *)
Record Image : Type := { width : Z; height : Z }.

(** [const [targetW, targetH] = targetAspectRatio.split(':').map(Number);
     const targetRatio = targetW / targetH;] *)
Definition targetRatio (targetAspectRatio : AspectRatio) : Number :=
  let parts := map Number_of_string (split (AspectRatio_text targetAspectRatio) ":") in
  let targetW := nth 0 parts NaN in
  let targetH := nth 1 parts NaN in
  (targetW / targetH)%num.

(** [const originalRatio = originalW / originalH;] *)
Definition originalRatio (image : Image) : Number :=
  (num_of_Z (width image) / num_of_Z (height image))%num.

(** [Math.abs(targetRatio - originalRatio) > 0.01] *)
Definition exceeds_tolerance (targetAspectRatio : AspectRatio) (image : Image) : bool :=
  (Math_abs (targetRatio targetAspectRatio - originalRatio image) > literal_0_01)%num.

(** The values of [canvasW] and [canvasH] after lines 26-37. *)
Definition canvas_extent (targetAspectRatio : AspectRatio) (image : Image)
  : Number * Number :=
  let originalW := num_of_Z (width image) in
  let originalH := num_of_Z (height image) in
  if exceeds_tolerance targetAspectRatio image then
    if (targetRatio targetAspectRatio > originalRatio image)%num then
      ((originalH * targetRatio targetAspectRatio)%num, originalH)
    else
      (originalW, (originalW / targetRatio targetAspectRatio)%num)
  else (originalW, originalH).

(** Assignment to [canvas.width] / [canvas.height], reflected attributes
    of type [unsigned long] with a default value: the number is converted (a
    value that is no integer becomes [0], an integer is taken modulo [2^32])
    and kept if it is at most [2^31 - 1]; otherwise the attribute takes its
    default. *)
Definition unsigned_long (default : Z) (x : option Z) : Z :=
  let converted :=
    match x with
    | Some z => z mod 2 ^ 32
    | None => 0
    end in
  if converted <=? 2147483647 then converted else default.

(** [canvas.width = Math.round(canvasW); canvas.height = Math.round(canvasH);]
    The defaults of a canvas are [300] by [150]. *)
Definition canvas_size (targetAspectRatio : AspectRatio) (image : Image) : Z * Z :=
  let '(canvasW, canvasH) := canvas_extent targetAspectRatio image in
  (unsigned_long 300 (Math_round canvasW), unsigned_long 150 (Math_round canvasH)).

(** What is painted on the 2D context. *)
Inductive DrawOp : Type :=
| FillRect (fillStyle : string) (x y w h : Z)
| DrawImage (image : Image) (dx dy : option Z) (dw dh : Z).

Record CanvasState : Type :=
  { canvas_width : Z; canvas_height : Z; painted : list DrawOp }.

(** [Math.round((canvas.width - originalW) / 2)] *)
Definition offset (extent original : Z) : option Z :=
  Math_round ((num_of_Z extent - num_of_Z original) / num_of_Z 2)%num.

(** The canvas once lines 39-51 have run. *)
Definition render (targetAspectRatio : AspectRatio) (image : Image) : CanvasState :=
  let '(w, h) := canvas_size targetAspectRatio image in
  {| canvas_width := w;
     canvas_height := h;
     painted :=
       [ FillRect "#000000" 0 0 w h;
         DrawImage image (offset w (width image)) (offset h (height image))
                   (width image) (height image) ] |}.

(** The browser around one call: whether the data URL decodes (and to
    which image), whether [getContext('2d')] yields a context, and the
    encoder behind [canvas.toDataURL]. *)
Record Browser : Type :=
  { decode : string -> option Image;
    context2d : bool;
    toDataURL : CanvasState -> string -> string }.

(** [drawCanvas(base64Image, targetAspectRatio)]: how the returned
    promise settles. *)
Definition drawCanvas (browser : Browser) (base64Image : string)
    (targetAspectRatio : AspectRatio) : Settled string :=
  match decode browser base64Image with
  | Some image =>
      if negb (context2d browser) then
        Rejected (Error "Could not get canvas context")
      else
        Resolved (toDataURL browser (render targetAspectRatio image) "image/jpeg")
  | None => Rejected (Error "Failed to load image for canvas rendering.")
  end.

(** ** Vocabulary of the claims *)

(** The two integers of a ratio, [tw : th]. *)
Definition ratio_terms (r : AspectRatio) : Z * Z :=
  match r with
  | R16_9 => (16, 9)
  | R1_1 => (1, 1)
  | R9_16 => (9, 16)
  | R4_3 => (4, 3)
  | R3_4 => (3, 4)
  end.

(** [n / d] rounded to the nearest integer, halves up. *)
Definition round_div (n d : Z) : Z := (2 * n + d) / (2 * d).



(** The ratio of a [w] by [h] frame is within one hundredth of [r]. *)
Definition ratio_within_tolerance (r : AspectRatio) (w h : Z) : bool :=
  let '(tw, th) := ratio_terms r in
  100 * Z.abs (w * th - tw * h) <=? h * th.

(** The double of a target ratio, in units of [2^-52]. *)
Definition target_scaled (r : AspectRatio) : Z :=
  match r with
  | R16_9 => 8006399337547548
  | R1_1 => 4503599627370496
  | R9_16 => 2533274790395904
  | R4_3 => 6004799503160661
  | R3_4 => 3377699720527872
  end.

(** The sides an image element reports after a successful load: positive,
    and below [2^30], so that the sides of the canvas stay within the range
    of its [unsigned long] attributes. *)
Definition decoded (image : Image) : Prop :=
  0 < width image < 2 ^ 30 /\ 0 < height image < 2 ^ 30.

(** A browser for the examples: every data URL decodes to [image]. *)
Definition browser_with (image : option Image) (context : bool) : Browser :=
  {| decode := fun _ => image;
     context2d := context;
     toDataURL := fun _ type => ("data:" ++ type ++ ";base64,")%string |}.

End Canvas.

(** * Facts about [drawCanvas] *)

Module CanvasFacts.
Import Binary64 Js Canvas.

(** ** Quotients of integers against the grid *)

Lemma bpow_opp k : 0 <= k -> bpow (- k) = (/ IZR (2 ^ k))%R.
Proof.
  intros Hk.
  assert (Hp : (0 < IZR (2 ^ k))%R) by (apply IZR_lt, Z.pow_pos_nonneg; lia).
  apply Rmult_eq_reg_r with (IZR (2 ^ k)); [ | lra].
  rewrite <- bpow_IZR, <- bpow_add by lia.
  replace (- k + k) with 0 by lia. rewrite bpow_0, bpow_IZR by lia. field. lra.
Qed.

Lemma F2R_quotient m k : 0 <= k -> F2R m (- k) = (IZR m / IZR (2 ^ k))%R.
Proof. intros Hk. unfold F2R. rewrite bpow_opp by trivial. reflexivity. Qed.

Lemma quotient_le a b c d :
  0 < b -> 0 < d -> a * d <= c * b -> (IZR a / IZR b <= IZR c / IZR d)%R.
Proof.
  intros Hb Hd H. apply IZR_lt in Hb, Hd. apply IZR_le in H. rewrite !mult_IZR in H.
  apply Rmult_le_reg_r with (IZR b * IZR d)%R; [nra | ].
  field_simplify; lra.
Qed.

Lemma quotient_lt a b c d :
  0 < b -> 0 < d -> a * d < c * b -> (IZR a / IZR b < IZR c / IZR d)%R.
Proof.
  intros Hb Hd H. apply IZR_lt in Hb, Hd. apply IZR_lt in H. rewrite !mult_IZR in H.
  apply Rmult_lt_reg_r with (IZR b * IZR d)%R; [nra | ].
  field_simplify; lra.
Qed.

(** [Math.round] of a double nearest to [n / d], when [n / d] keeps
    clear of the half-integers above it. *)
Lemma Math_round_quotient x v n d c :
  normal x v -> nearest (IZR n / IZR d) v ->
  0 < d -> 1 <= c < 2 ^ 47 ->
  (2 * c - 1) * d <= 2 * n ->
  32 * n <= (32 * c + 15) * d ->
  Math_round x = Some c.
Proof.
  intros Hx Hn Hd Hc Hlo Hhi. apply nearest_squeeze in Hn. destruct Hn as [Slo Shi].
  apply (Math_round_normal x v c Hx).
  assert (Glo : grid (F2R (2 * c - 1) (- 1))).
  { exists (2 * c - 1), (- 1). split; [ | reflexivity].
    change (2 ^ prec) with (2 ^ 6 * 2 ^ 47). lia. }
  assert (Ghi : grid (F2R (32 * c + 15) (- 5))).
  { exists (32 * c + 15), (- 5). split; [ | reflexivity].
    change (2 ^ prec) with (2 ^ 6 * 2 ^ 47). lia. }
  rewrite (F2R_quotient _ 1) in Glo by lia.
  rewrite (F2R_quotient _ 5) in Ghi by lia.
  assert (Hlo' : (2 * c - 1) * d <= n * 2 ^ 1) by (change (2 ^ 1) with 2; lia).
  assert (Hhi' : n * 2 ^ 5 <= (32 * c + 15) * d) by (change (2 ^ 5) with 32; lia).
  specialize (Slo _ Glo (quotient_le (2 * c - 1) (2 ^ 1) n d eq_refl Hd Hlo')).
  specialize (Shi _ Ghi (quotient_le n d (32 * c + 15) (2 ^ 5) Hd eq_refl Hhi')).
  rewrite minus_IZR, mult_IZR in Slo. rewrite plus_IZR, mult_IZR in Shi.
  change (2 ^ 1) with 2 in Slo. change (2 ^ 5) with 32 in Shi. lra.
Qed.


(** ** The doubles of [drawCanvas] *)

Lemma decoded_sides image :
  decoded image -> 0 < width image < 2 ^ 31 /\ 0 < height image < 2 ^ 31.
Proof. unfold decoded. lia. Qed.

(** The five target ratios as doubles: each is at most the exact ratio
    and less than half a unit in the last place below it. *)
Lemma targetRatio_spec r :
  exists m k,
    targetRatio r = S754_finite false m (- k)
    /\ 2 ^ (prec - 1) <= Zpos m < 2 ^ prec
    /\ 52 <= k <= 53
    /\ Zpos m * snd (ratio_terms r) <= fst (ratio_terms r) * 2 ^ k
    /\ 2 * (fst (ratio_terms r) * 2 ^ k - Zpos m * snd (ratio_terms r))
       < snd (ratio_terms r).
Proof.
  destruct r.
  - exists 8006399337547548%positive, 52. repeat split; vm_compute; congruence.
  - exists 4503599627370496%positive, 52. repeat split; vm_compute; congruence.
  - exists 5066549580791808%positive, 53. repeat split; vm_compute; congruence.
  - exists 6004799503160661%positive, 52. repeat split; vm_compute; congruence.
  - exists 6755399441055744%positive, 53. repeat split; vm_compute; congruence.
Qed.

Lemma ratio_terms_bounds r :
  0 < fst (ratio_terms r) <= 16 /\ 0 < snd (ratio_terms r) <= 16.
Proof. destruct r; simpl; lia. Qed.

Lemma originalRatio_spec image :
  decoded image ->
  exists v, normal (originalRatio image) v
    /\ nearest (IZR (width image) / IZR (height image)) v.
Proof.
  intros Hd. destruct (decoded_sides image Hd) as [Hw Hh].
  unfold originalRatio, num_div.
  destruct (num_of_Z_spec (width image)) as (mw & ew & -> & Hmw & Hew & <-).
  { change (2 ^ prec) with (2 ^ 22 * 2 ^ 31). lia. }
  destruct (num_of_Z_spec (height image)) as (mh & eh & -> & Hmh & Heh & <-).
  { change (2 ^ prec) with (2 ^ 22 * 2 ^ 31). lia. }
  apply SFdiv_nearest; trivial. lia.
Qed.

Lemma mul_target_spec z m k :
  0 < z < 2 ^ prec -> 2 ^ (prec - 1) <= Zpos m < 2 ^ prec -> 52 <= k <= 53 ->
  exists v, normal (num_mul (num_of_Z z) (S754_finite false m (- k))) v
    /\ nearest (IZR (z * Zpos m) / IZR (2 ^ k)) v.
Proof.
  intros Hz Hm Hk. unfold num_mul.
  destruct (num_of_Z_spec z Hz) as (mz & ez & -> & Hmz & Hez & Hvz).
  destruct (SFmul_nearest mz ez m (- k) Hmz Hm ltac:(lia)) as (v & Hn & Hv).
  exists v. split; trivial.
  rewrite Hvz, F2R_quotient in Hv by lia.
  replace (IZR (z * Zpos m) / IZR (2 ^ k))%R with (IZR z * (IZR (Zpos m) / IZR (2 ^ k)))%R;
    trivial.
  rewrite mult_IZR. unfold Rdiv. ring.
Qed.

Lemma div_target_spec z m k :
  0 < z < 2 ^ prec -> 2 ^ (prec - 1) <= Zpos m < 2 ^ prec -> 52 <= k <= 53 ->
  exists v, normal (num_div (num_of_Z z) (S754_finite false m (- k))) v
    /\ nearest (IZR (z * 2 ^ k) / IZR (Zpos m)) v.
Proof.
  intros Hz Hm Hk. unfold num_div.
  destruct (num_of_Z_spec z Hz) as (mz & ez & -> & Hmz & Hez & Hvz).
  destruct (SFdiv_nearest mz ez m (- k) Hmz Hm ltac:(lia)) as (v & Hn & Hv).
  exists v. split; trivial.
  rewrite Hvz, F2R_quotient in Hv by lia.
  replace (IZR (z * 2 ^ k) / IZR (Zpos m))%R with (IZR z / (IZR (Zpos m) / IZR (2 ^ k)))%R;
    trivial.
  assert (0 < IZR (2 ^ k))%R by (apply IZR_lt, Z.pow_pos_nonneg; lia).
  assert (0 < IZR (Zpos m))%R by (apply IZR_lt; lia).
  rewrite mult_IZR. field. lra.
Qed.

Lemma Math_round_num_of_Z z :
  0 < z < 2 ^ 47 -> Math_round (num_of_Z z) = Some z.
Proof.
  intros Hz. apply (Math_round_normal _ (IZR z)); [ | lra].
  apply num_of_Z_normal. change (2 ^ prec) with (2 ^ 6 * 2 ^ 47). lia.
Qed.

(** ** The two tests of lines 29 and 30 *)

Lemma target_gt_exact r image :
  decoded image ->
  num_gt (targetRatio r) (originalRatio image) = true ->
  width image * snd (ratio_terms r) < fst (ratio_terms r) * height image.
Proof.
  intros Hd Hgt. destruct (decoded_sides image Hd) as [Hw Hh].
  destruct (targetRatio_spec r) as (m & k & Et & Hm & Hk & Hle & Hhalf).
  destruct (ratio_terms_bounds r) as [Htw Hth].
  destruct (originalRatio_spec image Hd) as (vr & Hnr & Hnear).
  assert (Hnt : normal (targetRatio r) (F2R (Zpos m) (- k))).
  { rewrite Et. apply normal_intro; trivial. unfold emax, prec. lia. }
  unfold num_gt in Hgt.
  apply (SFltb_normal _ _ _ _ Hnr Hnt) in Hgt.
  destruct (Z.lt_ge_cases (width image * snd (ratio_terms r))
                          (fst (ratio_terms r) * height image)) as [ | Hge]; trivial.
  exfalso.
  apply nearest_squeeze in Hnear. destruct Hnear as [Slo _].
  assert (Hg : grid (F2R (Zpos m) (- k))).
  { exists (Zpos m), (- k). split; [lia | reflexivity]. }
  specialize (Slo _ Hg).
  rewrite F2R_quotient in Slo, Hgt by lia.
  assert (Hp : 0 < 2 ^ k) by (apply Z.pow_pos_nonneg; lia).
  assert (Hx : (IZR (Zpos m) / IZR (2 ^ k) <= IZR (width image) / IZR (height image))%R).
  { apply quotient_le; try lia.
    (* m * H * th <= tw * 2^k * H <= W * th * 2^k *)
    apply Z.mul_le_mono_pos_r with (snd (ratio_terms r)); [lia | ].
    nia. }
  specialize (Slo Hx). lra.
Qed.

Lemma target_not_gt_exact r image :
  decoded image ->
  exceeds_tolerance r image = true ->
  num_gt (targetRatio r) (originalRatio image) = false ->
  fst (ratio_terms r) * height image < width image * snd (ratio_terms r).
Proof.
  intros Hd Hex Hgt. destruct (decoded_sides image Hd) as [Hw Hh].
  destruct (targetRatio_spec r) as (m & k & Et & Hm & Hk & Hle & Hhalf).
  destruct (ratio_terms_bounds r) as [Htw Hth].
  destruct (originalRatio_spec image Hd) as (vr & Hnr & Hnear).
  assert (Hnt : normal (targetRatio r) (F2R (Zpos m) (- k))).
  { rewrite Et. apply normal_intro; trivial. unfold emax, prec. lia. }
  destruct (Z.lt_ge_cases (fst (ratio_terms r) * height image)
                          (width image * snd (ratio_terms r))) as [ | Hge]; trivial.
  exfalso.
  (* the image's ratio is at most the target's: both round to the same double *)
  assert (Hvr : vr = F2R (Zpos m) (- k)).
  { apply Rle_antisym.
    - pose proof Hnear as Hsq. apply nearest_squeeze in Hsq. destruct Hsq as [_ Shi].
      assert (Hg : grid (F2R (Zpos m) (- k))).
      { exists (Zpos m), (- k). split; [lia | reflexivity]. }
      destruct (Rle_lt_dec (IZR (width image) / IZR (height image)) (F2R (Zpos m) (- k)))
        as [Hxle | Hxgt]; [exact (Shi _ Hg Hxle) | ].
      specialize (Hnear _ Hg).
      destruct Hnr as (mr & er & _ & _ & Hmr & Evr).
      destruct (grid_cell (Zpos mr) er (Zpos m) (- k) ltac:(lia) Hm) as [_ Hcell].
      rewrite <- Evr in Hcell. apply Hcell.
      (* x - t < half a unit, and vr - x <= x - t *)
      assert (Hp : 0 < 2 ^ k) by (apply Z.pow_pos_nonneg; lia).
      assert (Hxt : (IZR (width image) / IZR (height image)
                     <= IZR (fst (ratio_terms r)) / IZR (snd (ratio_terms r)))%R).
      { apply quotient_le; lia. }
      assert (Hup : (IZR (fst (ratio_terms r)) / IZR (snd (ratio_terms r))
                     < IZR (2 * Zpos m + 1) / IZR (2 * 2 ^ k))%R).
      { apply quotient_lt; lia. }
      unfold F2R in *. rewrite bpow_opp in * by lia.
      assert (HpR : (0 < IZR (2 ^ k))%R) by (apply IZR_lt; lia).
      replace (IZR (2 * Z.pos m + 1) / IZR (2 * 2 ^ k))%R
        with (IZR (Zpos m) * / IZR (2 ^ k) + / IZR (2 ^ k) / 2)%R in Hup
        by (rewrite plus_IZR, !mult_IZR; field; lra).
      unfold Rabs in Hnear. repeat destruct Rcase_abs; lra.
    - destruct (Bool.not_true_iff_false (num_gt (targetRatio r) (originalRatio image)))
        as [_ Hn]. specialize (Hn Hgt).
      unfold num_gt in Hn. rewrite (SFltb_normal _ _ _ _ Hnr Hnt) in Hn. lra. }
  assert (Heq : originalRatio image = targetRatio r).
  { apply (normal_unique _ _ vr); trivial. rewrite Hvr. exact Hnt. }
  unfold exceeds_tolerance in Hex. rewrite Heq, Et in Hex.
  unfold num_sub in Hex. rewrite SFsub_diag in Hex. discriminate.
Qed.


(** ** The tolerance test on exact ratios *)

Lemma targetRatio_scaled r :
  exists m e,
    targetRatio r = S754_finite false m e
    /\ 2 ^ (prec - 1) <= Zpos m < 2 ^ prec
    /\ -53 <= e <= -52
    /\ F2R (Zpos m) e = F2R (target_scaled r) (-52).
Proof.
  assert (Hhalf : forall z, F2R (2 * z) (-53) = F2R z (-52)).
  { intros z. unfold F2R. rewrite mult_IZR.
    change (-52) with (-53 + 1). rewrite bpow_succ. ring. }
  destruct r; eexists _, _;
    (split; [vm_compute; reflexivity | ]);
    (split; [vm_compute; intuition congruence | ]);
    (split; [lia | ]); cbn [target_scaled];
    first [reflexivity | rewrite <- Hhalf; reflexivity].
Qed.

Lemma scaled_le a n d :
  0 < d -> a * d <= n * 2 ^ 52 -> (F2R a (-52) <= IZR n / IZR d)%R.
Proof.
  intros Hd H. change (-52) with (- (52)). rewrite F2R_quotient by lia.
  apply quotient_le; trivial. reflexivity.
Qed.

Lemma scaled_ge a n d :
  0 < d -> n * 2 ^ 52 <= a * d -> (IZR n / IZR d <= F2R a (-52))%R.
Proof.
  intros Hd H. change (-52) with (- (52)). rewrite F2R_quotient by lia.
  apply quotient_le; trivial. reflexivity.
Qed.

Lemma grid_scaled a : 0 <= a < 2 ^ prec -> grid (F2R a (-52)).
Proof. intros Ha. exists a, (-52). auto. Qed.

(** The test of line 29 agrees with the comparison of the exact ratios,
    unless these differ by exactly one hundredth. *)
Lemma exceeds_tolerance_exact r image :
  decoded image ->
  (100 * Z.abs (width image * snd (ratio_terms r) - fst (ratio_terms r) * height image)
     < height image * snd (ratio_terms r) ->
   exceeds_tolerance r image = false)
  /\ (height image * snd (ratio_terms r)
        < 100 * Z.abs (width image * snd (ratio_terms r)
                       - fst (ratio_terms r) * height image) ->
      exceeds_tolerance r image = true).
Proof.
  intros Hd. destruct (decoded_sides image Hd) as [Hw Hh].
  destruct (originalRatio_spec image Hd) as (vr & Hnr & Hnear).
  apply nearest_squeeze in Hnear. destruct Hnear as [Slo Shi].
  destruct (targetRatio_scaled r) as (mt & et & Et & Hmt & Het & Hvt).
  pose proof Hnr as (mr & er & Er & _ & Hmr & Evr).
  unfold exceeds_tolerance. rewrite Et, Er.
  (* the image's ratio lies between 2^-31 and 2^31 *)
  assert (Hrange : (bpow (-31) <= vr < bpow 32)%R).
  { split.
    - replace (bpow (-31)) with (F2R 1 (-31)) by (unfold F2R; ring).
      apply (Slo (F2R 1 (-31))).
      + exists 1, (-31). split; [vm_compute; intuition congruence | reflexivity].
      + change (-31) with (- (31)). rewrite F2R_quotient by lia.
        apply quotient_le; lia.
    - apply Rle_lt_trans with (bpow 31); [ | apply bpow_lt; lia].
      replace (bpow 31) with (F2R 1 31) by (unfold F2R; ring).
      apply (Shi (F2R 1 31)).
      + exists 1, 31. split; [vm_compute; intuition congruence | reflexivity].
      + unfold F2R. rewrite bpow_IZR by lia.
        replace (1 * IZR (2 ^ 31))%R with (IZR (2 ^ 31) / IZR 1)%R by (simpl; field).
        apply quotient_le; lia. }
  rewrite Evr in Hrange.
  pose proof (normal_exponent mr er (-31) 32 Hmr Hrange) as Her.
  assert (Het' : -400 <= et <= 400) by lia.
  assert (Her' : -400 <= er <= 400) by (unfold prec in Her; lia).
  destruct (tolerance_test mt et mr er Hmt Hmr Het' Her') as [Hbelow Habove].
  rewrite Hvt, <- Evr in Hbelow, Habove.
  assert (Htol : (F2R 45035996273704 (-52) <= F2R 5764607523034235 (-59))%R).
  { unfold F2R. change (-52) with (-59 + 7). rewrite bpow_add, (bpow_IZR 7) by lia.
    pose proof (bpow_pos (-59)). change (2 ^ 7) with 128.
    assert (45035996273704 * 128 <= 5764607523034235)%R by lra. nra. }
  assert (Htol' : (F2R 5764607523034236 (-59) <= F2R 45035996273705 (-52))%R).
  { unfold F2R. change (-52) with (-59 + 7). rewrite bpow_add, (bpow_IZR 7) by lia.
    pose proof (bpow_pos (-59)). change (2 ^ 7) with 128.
    assert (5764607523034236 <= 45035996273705 * 128)%R by lra. nra. }
  assert (Hdiff : forall a b, (F2R a (-52) - F2R b (-52) = F2R (a - b) (-52))%R).
  { intros a b. unfold F2R. rewrite minus_IZR. ring. }
  change (2 ^ 31) with 2147483648 in Hw, Hh.
  split; intros Hex.
  - apply Hbelow.
    assert (Hlo : (F2R (target_scaled r - 45035996273704) (-52) <= vr)%R).
    { apply Slo.
      - apply grid_scaled. destruct r; vm_compute; intuition congruence.
      - apply scaled_le; [lia | ].
        change (2 ^ 52) with 4503599627370496.
        destruct r; cbn [target_scaled ratio_terms fst snd] in *; lia. }
    assert (Hhi : (vr <= F2R (target_scaled r + 45035996273704) (-52))%R).
    { apply Shi.
      - apply grid_scaled. destruct r; vm_compute; intuition congruence.
      - apply scaled_ge; [lia | ].
        change (2 ^ 52) with 4503599627370496.
        destruct r; cbn [target_scaled ratio_terms fst snd] in *; lia. }
    rewrite <- (Hdiff (target_scaled r) 45035996273704) in Hlo.
    replace (F2R (target_scaled r + 45035996273704) (-52))
      with (F2R (target_scaled r) (-52) + F2R 45035996273704 (-52))%R in Hhi
      by (unfold F2R; rewrite plus_IZR; ring).
    unfold Rabs. destruct Rcase_abs; lra.
  - apply Habove.
    destruct (Z.abs_spec (width image * snd (ratio_terms r)
                          - fst (ratio_terms r) * height image)) as [[Hs Ea] | [Hs Ea]];
      rewrite Ea in Hex.
    + assert (Hlo : (F2R (target_scaled r + 45035996273705) (-52) <= vr)%R).
      { apply Slo.
        - apply grid_scaled. destruct r; vm_compute; intuition congruence.
        - apply scaled_le; [lia | ].
          change (2 ^ 52) with 4503599627370496.
          destruct r; cbn [target_scaled ratio_terms fst snd] in *; lia. }
      replace (F2R (target_scaled r + 45035996273705) (-52))
        with (F2R (target_scaled r) (-52) + F2R 45035996273705 (-52))%R in Hlo
        by (unfold F2R; rewrite plus_IZR; ring).
      unfold Rabs. destruct Rcase_abs; lra.
    + assert (Hhi : (vr <= F2R (target_scaled r - 45035996273705) (-52))%R).
      { apply Shi.
        - apply grid_scaled. destruct r; vm_compute; intuition congruence.
        - apply scaled_ge; [lia | ].
          change (2 ^ 52) with 4503599627370496.
          destruct r; cbn [target_scaled ratio_terms fst snd] in *; lia. }
      rewrite <- (Hdiff (target_scaled r) 45035996273705) in Hhi.
      unfold Rabs. destruct Rcase_abs; lra.
Qed.

(** The literal [0.01] is the double nearest to one hundredth. *)
Example literal_0_01_nearest :
  literal_0_01 = (num_of_Z 1 / num_of_Z 100)%num.
Proof. vm_compute. reflexivity. Qed.

(** When the exact ratios differ by exactly one hundredth, the rounding
    of line 24 decides: [101 / 100] is the double just above 1.01, the
    computed difference exceeds the double [0.01], and the canvas is
    padded. *)
Example boundary_is_decided_by_rounding :
  let image := {| width := 101; height := 100 |} in
  100 * Z.abs (width image * 1 - 1 * height image) = height image * 1
  /\ exceeds_tolerance R1_1 image = true
  /\ canvas_size R1_1 image = (101, 101).
Proof. vm_compute. repeat split. Qed.

(** ** The padded side *)

Lemma round_div_bounds n d :
  0 < d -> 2 * d * round_div n d <= 2 * n + d < 2 * d * round_div n d + 2 * d.
Proof.
  intros Hd. unfold round_div.
  pose proof (Z.mul_div_le (2 * n + d) (2 * d) ltac:(lia)).
  pose proof (Z.mul_succ_div_gt (2 * n + d) (2 * d) ltac:(lia)).
  lia.
Qed.

Ltac target_case M K :=
  match goal with
  | |- context [targetRatio ?r] =>
      let E := fresh "Et" in
      assert (E : targetRatio r = S754_finite false M (- K)) by (vm_compute; reflexivity);
      rewrite E; clear E
  end.

Lemma padded_width r z :
  0 < z < 2 ^ 31 ->
  Math_round (num_mul (num_of_Z z) (targetRatio r))
  = Some (round_div (z * fst (ratio_terms r)) (snd (ratio_terms r))).
Proof.
  intros Hz.
  assert (Hz53 : 0 < z < 2 ^ prec) by (change (2 ^ prec) with (2 ^ 22 * 2 ^ 31); lia).
  change (2 ^ 31) with 2147483648 in Hz.
  destruct r; cbn [ratio_terms fst snd].
  - target_case 8006399337547548%positive 52.
    destruct (mul_target_spec z 8006399337547548 52 Hz53) as (v & Hn & Hv); [vm_compute; intuition congruence | lia | ].
    pose proof (round_div_bounds (z * 16) 9 ltac:(lia)).
    apply (Math_round_quotient _ v _ _ _ Hn Hv); change (2 ^ 52) with 4503599627370496;
      change (2 ^ 47) with 140737488355328; lia.
  - target_case 4503599627370496%positive 52.
    destruct (mul_target_spec z 4503599627370496 52 Hz53) as (v & Hn & Hv); [vm_compute; intuition congruence | lia | ].
    pose proof (round_div_bounds (z * 1) 1 ltac:(lia)).
    apply (Math_round_quotient _ v _ _ _ Hn Hv); change (2 ^ 52) with 4503599627370496;
      change (2 ^ 47) with 140737488355328; lia.
  - target_case 5066549580791808%positive 53.
    destruct (mul_target_spec z 5066549580791808 53 Hz53) as (v & Hn & Hv); [vm_compute; intuition congruence | lia | ].
    pose proof (round_div_bounds (z * 9) 16 ltac:(lia)).
    apply (Math_round_quotient _ v _ _ _ Hn Hv); change (2 ^ 53) with 9007199254740992;
      change (2 ^ 47) with 140737488355328; lia.
  - target_case 6004799503160661%positive 52.
    destruct (mul_target_spec z 6004799503160661 52 Hz53) as (v & Hn & Hv); [vm_compute; intuition congruence | lia | ].
    pose proof (round_div_bounds (z * 4) 3 ltac:(lia)).
    apply (Math_round_quotient _ v _ _ _ Hn Hv); change (2 ^ 52) with 4503599627370496;
      change (2 ^ 47) with 140737488355328; lia.
  - target_case 6755399441055744%positive 53.
    destruct (mul_target_spec z 6755399441055744 53 Hz53) as (v & Hn & Hv); [vm_compute; intuition congruence | lia | ].
    pose proof (round_div_bounds (z * 3) 4 ltac:(lia)).
    apply (Math_round_quotient _ v _ _ _ Hn Hv); change (2 ^ 53) with 9007199254740992;
      change (2 ^ 47) with 140737488355328; lia.
Qed.


Lemma padded_height r z :
  0 < z < 2 ^ 31 ->
  Math_round (num_div (num_of_Z z) (targetRatio r))
  = Some (round_div (z * snd (ratio_terms r)) (fst (ratio_terms r))).
Proof.
  intros Hz.
  assert (Hz53 : 0 < z < 2 ^ prec) by (change (2 ^ prec) with (2 ^ 22 * 2 ^ 31); lia).
  change (2 ^ 31) with 2147483648 in Hz.
  destruct r; cbn [ratio_terms fst snd].
  - target_case 8006399337547548%positive 52.
    destruct (div_target_spec z 8006399337547548 52 Hz53) as (v & Hn & Hv); [vm_compute; intuition congruence | lia | ].
    pose proof (round_div_bounds (z * 9) 16 ltac:(lia)).
    apply (Math_round_quotient _ v _ _ _ Hn Hv); change (2 ^ 52) with 4503599627370496;
      change (2 ^ 47) with 140737488355328; lia.
  - target_case 4503599627370496%positive 52.
    destruct (div_target_spec z 4503599627370496 52 Hz53) as (v & Hn & Hv); [vm_compute; intuition congruence | lia | ].
    pose proof (round_div_bounds (z * 1) 1 ltac:(lia)).
    apply (Math_round_quotient _ v _ _ _ Hn Hv); change (2 ^ 52) with 4503599627370496;
      change (2 ^ 47) with 140737488355328; lia.
  - target_case 5066549580791808%positive 53.
    destruct (div_target_spec z 5066549580791808 53 Hz53) as (v & Hn & Hv); [vm_compute; intuition congruence | lia | ].
    pose proof (round_div_bounds (z * 16) 9 ltac:(lia)).
    apply (Math_round_quotient _ v _ _ _ Hn Hv); change (2 ^ 53) with 9007199254740992;
      change (2 ^ 47) with 140737488355328; lia.
  - target_case 6004799503160661%positive 52.
    destruct (div_target_spec z 6004799503160661 52 Hz53) as (v & Hn & Hv); [vm_compute; intuition congruence | lia | ].
    pose proof (round_div_bounds (z * 3) 4 ltac:(lia)).
    apply (Math_round_quotient _ v _ _ _ Hn Hv); change (2 ^ 52) with 4503599627370496;
      change (2 ^ 47) with 140737488355328; lia.
  - target_case 6755399441055744%positive 53.
    destruct (div_target_spec z 6755399441055744 53 Hz53) as (v & Hn & Hv); [vm_compute; intuition congruence | lia | ].
    pose proof (round_div_bounds (z * 4) 3 ltac:(lia)).
    apply (Math_round_quotient _ v _ _ _ Hn Hv); change (2 ^ 53) with 9007199254740992;
      change (2 ^ 47) with 140737488355328; lia.
Qed.


(** ** Canvas size *)

Lemma unsigned_long_small default z :
  0 <= z < 2 ^ 31 -> unsigned_long default (Some z) = z.
Proof.
  intros Hz. unfold unsigned_long.
  rewrite Z.mod_small by lia.
  destruct (Z.leb_spec z 2147483647) as [ | Hgt]; [reflexivity | lia].
Qed.

Lemma round_div_range r z :
  0 < z < 2 ^ 30 ->
  0 < round_div (z * fst (ratio_terms r)) (snd (ratio_terms r)) < 2 ^ 31.
Proof.
  intros Hz. change (2 ^ 30) with 1073741824 in Hz. change (2 ^ 31) with 2147483648.
  destruct r; cbn [ratio_terms fst snd];
    match goal with |- context [round_div ?n ?d] =>
      pose proof (round_div_bounds n d ltac:(lia)) end; lia.
Qed.

Lemma round_div_range' r z :
  0 < z < 2 ^ 30 ->
  0 < round_div (z * snd (ratio_terms r)) (fst (ratio_terms r)) < 2 ^ 31.
Proof.
  intros Hz. change (2 ^ 30) with 1073741824 in Hz. change (2 ^ 31) with 2147483648.
  destruct r; cbn [ratio_terms fst snd];
    match goal with |- context [round_div ?n ?d] =>
      pose proof (round_div_bounds n d ltac:(lia)) end; lia.
Qed.

Lemma canvas_size_padded r image :
  decoded image ->
  exceeds_tolerance r image = true ->
  canvas_size r image =
    if width image * snd (ratio_terms r) <? fst (ratio_terms r) * height image
    then (round_div (height image * fst (ratio_terms r)) (snd (ratio_terms r)),
          height image)
    else (width image,
          round_div (width image * snd (ratio_terms r)) (fst (ratio_terms r))).
Proof.
  intros Hd Hex. destruct (decoded_sides image Hd) as [Hw Hh].
  assert (H47 : 2 ^ 31 < 2 ^ 47) by reflexivity.
  assert (H32 : 2 ^ 31 < 2 ^ 32) by reflexivity.
  unfold canvas_size, canvas_extent. rewrite Hex.
  destruct (num_gt (targetRatio r) (originalRatio image)) eqn:Hgt.
  - pose proof (target_gt_exact r image Hd Hgt) as Hlt.
    apply Z.ltb_lt in Hlt. rewrite Hlt.
    rewrite padded_width, Math_round_num_of_Z by lia.
    rewrite !unsigned_long_small; trivial; try lia.
    pose proof (round_div_range r (height image) (proj2 Hd)). lia.
  - pose proof (target_not_gt_exact r image Hd Hex Hgt) as Hlt.
    assert (Hge : (width image * snd (ratio_terms r)
                   <? fst (ratio_terms r) * height image) = false)
      by (apply Z.ltb_ge; lia).
    rewrite Hge.
    rewrite padded_height, Math_round_num_of_Z by lia.
    rewrite !unsigned_long_small; trivial; try lia.
    pose proof (round_div_range' r (width image) (proj1 Hd)). lia.
Qed.

Lemma canvas_size_kept r image :
  decoded image ->
  exceeds_tolerance r image = false ->
  canvas_size r image = (width image, height image).
Proof.
  intros Hd Hex. destruct (decoded_sides image Hd) as [Hw Hh].
  assert (H47 : 2 ^ 31 < 2 ^ 47) by reflexivity.
  assert (H32 : 2 ^ 31 < 2 ^ 32) by reflexivity.
  unfold canvas_size, canvas_extent. rewrite Hex.
  rewrite !Math_round_num_of_Z, !unsigned_long_small by lia. reflexivity.
Qed.

(** ** Centring *)

Lemma offset_spec extent original :
  0 < original <= extent -> extent < 2 ^ 47 ->
  offset extent original = Some ((extent - original + 1) / 2).
Proof.
  intros Ho He. unfold offset.
  assert (H53 : 2 ^ 47 < 2 ^ prec) by reflexivity.
  destruct (Z.eq_dec extent original) as [-> | Hne].
  - destruct (num_of_Z_spec original ltac:(lia)) as (m & e & -> & _).
    unfold num_sub. rewrite SFsub_diag.
    replace (original - original + 1) with 1 by lia. reflexivity.
  - unfold num_sub. rewrite SFsub_num_of_Z by lia.
    set (k := extent - original).
    destruct (num_of_Z_spec k ltac:(unfold k; lia)) as (mk & ek & Ek & Hmk & Hek & Hvk).
    rewrite Ek. change (num_of_Z 2) with (S754_finite false 4503599627370496 (- 51)).
    destruct (SFdiv_nearest mk ek 4503599627370496 (- 51) Hmk) as (v & Hn & Hv);
      [vm_compute; intuition congruence | lia | ].
    rewrite Hvk in Hv.
    replace (F2R 4503599627370496 (- 51)) with (IZR 2) in Hv
      by (change (-51) with (Z.opp 51); rewrite F2R_quotient by lia;
          change (2 ^ 51) with 2251799813685248; lra).
    pose proof (Z.mul_div_le (k + 1) 2 ltac:(lia)).
    pose proof (Z.mul_succ_div_gt (k + 1) 2 ltac:(lia)).
    apply (Math_round_quotient _ v k 2 _ Hn Hv); unfold k in *; lia.
Qed.


(** ** The claims about [drawCanvas] *)







(** C3: when the ratio difference computed on line 29 exceeds the
    tolerance (by [exceeds_tolerance_exact], whenever the exact ratios differ
    by more than one hundredth), the canvas keeps the image's height and
    takes height times the target ratio as width if the target ratio exceeds
    the image's, and otherwise keeps the width and takes width divided by
    the target ratio as height, each rounded to the nearest integer. *)
Theorem C3_padded_canvas_size browser base64Image r image :
  decode browser base64Image = Some image ->
  context2d browser = true ->
  decoded image ->
  exceeds_tolerance r image = true ->
  drawCanvas browser base64Image r
    = Resolved (toDataURL browser (render r image) "image/jpeg")
  /\ (canvas_width (render r image), canvas_height (render r image))
     = if width image * snd (ratio_terms r) <? fst (ratio_terms r) * height image
       then (round_div (height image * fst (ratio_terms r)) (snd (ratio_terms r)),
             height image)
       else (width image,
             round_div (width image * snd (ratio_terms r)) (fst (ratio_terms r))).
Proof.
  intros Hdec Hctx Hd Hex. split.
  - unfold drawCanvas. rewrite Hdec, Hctx. reflexivity.
  - rewrite <- (canvas_size_padded r image Hd Hex).
    unfold render. destruct (canvas_size r image). reflexivity.
Qed.

Lemma C3_witness :
  drawCanvas (browser_with (Some {| width := 1024; height := 1024 |}) true)
             "data:image/jpeg;base64,AAAA" R16_9
    = Resolved (toDataURL (browser_with (Some {| width := 1024; height := 1024 |}) true)
                          (render R16_9 {| width := 1024; height := 1024 |}) "image/jpeg")
  /\ (canvas_width (render R16_9 {| width := 1024; height := 1024 |}),
      canvas_height (render R16_9 {| width := 1024; height := 1024 |}))
     = (1820, 1024).
Proof.
  apply (C3_padded_canvas_size
           (browser_with (Some {| width := 1024; height := 1024 |}) true)
           "data:image/jpeg;base64,AAAA" R16_9 {| width := 1024; height := 1024 |}).
  - reflexivity.
  - reflexivity.
  - unfold decoded; simpl; lia.
  - vm_compute; reflexivity.
Defined.

(** C4, as stated, fails: a 101 by 100 image differs from the ratio 1:1
    by exactly one hundredth, which is at most the tolerance, yet the
    difference computed on line 29, 0.010000000000000009, exceeds [0.01], and
    the canvas is padded to 101 by 101. *)
Lemma C4_counterexample :
  let image := {| width := 101; height := 100 |} in
  let browser := browser_with (Some image) true in
  ratio_within_tolerance R1_1 (width image) (height image) = true
  /\ drawCanvas browser "data:image/jpeg;base64,AAAA" R1_1
     = Resolved (toDataURL browser (render R1_1 image) "image/jpeg")
  /\ render R1_1 image
     = {| canvas_width := 101; canvas_height := 101;
          painted := [ FillRect "#000000" 0 0 101 101;
                       DrawImage image (Some 0) (Some 1) 101 100 ] |}.
Proof. vm_compute. repeat split. Qed.

(** C4, amended: whenever the ratio of the image differs from the target
    ratio by less than one hundredth, and more generally whenever the
    difference computed on line 29 does not exceed the tolerance, the canvas
    has the source's width and height and the source is drawn at the
    origin: no padding. *)
Theorem C4_within_tolerance_identity browser base64Image r image :
  decode browser base64Image = Some image ->
  context2d browser = true ->
  decoded image ->
  exceeds_tolerance r image = false
  \/ 100 * Z.abs (width image * snd (ratio_terms r) - fst (ratio_terms r) * height image)
     < height image * snd (ratio_terms r) ->
  drawCanvas browser base64Image r
    = Resolved (toDataURL browser (render r image) "image/jpeg")
  /\ render r image
     = {| canvas_width := width image; canvas_height := height image;
          painted := [ FillRect "#000000" 0 0 (width image) (height image);
                       DrawImage image (Some 0) (Some 0)
                                 (width image) (height image) ] |}.
Proof.
  intros Hdec Hctx Hd Hwithin.
  assert (Hex : exceeds_tolerance r image = false).
  { destruct Hwithin as [Hex | Hlt]; [exact Hex | ].
    exact (proj1 (exceeds_tolerance_exact r image Hd) Hlt). }
  split.
  - unfold drawCanvas. rewrite Hdec, Hctx. reflexivity.
  - destruct (decoded_sides image Hd) as [Hw Hh].
    assert (H47 : 2 ^ 31 < 2 ^ 47) by reflexivity.
    unfold render. rewrite (canvas_size_kept r image Hd Hex).
    rewrite !offset_spec by lia.
    replace (width image - width image + 1) with 1 by lia.
    replace (height image - height image + 1) with 1 by lia.
    reflexivity.
Qed.

Lemma C4_witness :
  drawCanvas (browser_with (Some {| width := 1920; height := 1081 |}) true)
             "data:image/jpeg;base64,AAAA" R16_9
    = Resolved (toDataURL (browser_with (Some {| width := 1920; height := 1081 |}) true)
                          (render R16_9 {| width := 1920; height := 1081 |}) "image/jpeg")
  /\ render R16_9 {| width := 1920; height := 1081 |}
     = {| canvas_width := 1920; canvas_height := 1081;
          painted := [ FillRect "#000000" 0 0 1920 1081;
                       DrawImage {| width := 1920; height := 1081 |} (Some 0) (Some 0)
                                 1920 1081 ] |}.
Proof.
  apply (C4_within_tolerance_identity
           (browser_with (Some {| width := 1920; height := 1081 |}) true)
           "data:image/jpeg;base64,AAAA" R16_9 {| width := 1920; height := 1081 |}).
  - reflexivity.
  - reflexivity.
  - unfold decoded; simpl; lia.
  - right. simpl. lia.
Defined.

(** C6, as stated, fails: an image that loads is still rejected when the
    canvas yields no 2D context (line 43). *)
Lemma C6_counterexample :
  let image := {| width := 1024; height := 1024 |} in
  let browser := browser_with (Some image) false in
  decode browser "data:image/jpeg;base64,AAAA" = Some image
  /\ drawCanvas browser "data:image/jpeg;base64,AAAA" R16_9
     = Rejected (Error "Could not get canvas context").
Proof. split; reflexivity. Qed.

(** C6, amended: [drawCanvas] rejects exactly when the image fails to load
    or the canvas yields no 2D context; an image that loads, with a
    context, always resolves with the encoded canvas. *)
Theorem C6_rejects_iff_no_image_or_context browser base64Image r :
  ((exists reason, drawCanvas browser base64Image r = Rejected reason)
   <-> (decode browser base64Image = None \/ context2d browser = false))
  /\ (forall image,
        decode browser base64Image = Some image -> context2d browser = true ->
        drawCanvas browser base64Image r
          = Resolved (toDataURL browser (render r image) "image/jpeg")).
Proof.
  unfold drawCanvas. split.
  - destruct (decode browser base64Image) as [image | ];
      destruct (context2d browser); cbn [negb]; split.
    + intros [reason H]. discriminate.
    + intros [H | H]; discriminate.
    + intros _. right. reflexivity.
    + intros _. eexists. reflexivity.
    + intros _. left. reflexivity.
    + intros _. eexists. reflexivity.
    + intros _. left. reflexivity.
    + intros _. eexists. reflexivity.
  - intros image -> ->. reflexivity.
Qed.

End CanvasFacts.

(** * The generation service ([generateThumbnail], [getPromptSuggestions]) *)

Module Service.
Import Js.

Local Open Scope string_scope.

Definition dquote : string := String (ascii_of_nat 34) EmptyString.
Definition newline : string := String (ascii_of_nat 10) EmptyString.

(** [s.includes(sub)] *)
Fixpoint includes (s sub : string) : bool :=
  String.prefix sub s
  || match s with
     | EmptyString => false
     | String _ rest => includes rest sub
     end.

(** A value inside a template literal: [undefined] prints as such. *)
Definition shown (x : option string) : string :=
  match x with
  | Some s => s
  | None => "undefined"
  end.

(** The [image] argument. Its [data] is what the caller computes with
    [split(',')[1]], hence possibly [undefined]. *)
Record UploadedImage : Type := { data : option string; mimeType : string }.

(** ** Requests sent to the remote models *)

Inductive Modality : Type := IMAGE | TEXT.

Inductive Part : Type :=
| InlineDataPart (data : option string) (mimeType : string)
| TextPart (text : string).

Inductive Request : Type :=
| EditRequest (model : string) (parts : list Part) (responseModalities : list Modality)
| ImagesRequest (model : string) (prompt : string) (numberOfImages : Z)
                (outputMimeType : string) (aspectRatio : Canvas.AspectRatio)
| SuggestionRequest (model : string) (contents : string) (systemInstruction : string)
                    (responseMimeType : string) (required : list string).

(** ** Responses *)

Record InlineData : Type :=
  { inline_data : option string; inline_mimeType : option string }.

Record ResponsePart : Type := { inlineData : option InlineData }.

Record Content : Type := { parts : option (list ResponsePart) }.

Record Candidate : Type := { content : option Content }.

Record ContentResponse : Type :=
  { candidates : option (list Candidate); text : option string }.

(** [image] is absent or holds [imageBytes]. *)
Record GeneratedImage : Type := { generated_image : option (option string) }.

Record ImagesResponse : Type := { generatedImages : option (list GeneratedImage) }.

(** Parsed JSON, as far as [getPromptSuggestions] looks into it. *)
#[warnings="-register-all"]
Inductive Json : Type :=
| JNull
| JBool (b : bool)
| JNumber (n : Z)
| JString (s : string)
| JArray (items : list Json)
| JObject (fields : list (string * Json)).

(** The world outside the two functions: the remote models, which answer
    or throw, and [JSON.parse], which returns or throws. *)
Record Remote : Type :=
  { generateContent : Request -> Settled ContentResponse;
    generateImages : Request -> Settled ImagesResponse;
    JSON_parse : string -> Settled Json }.

(** ** [generateThumbnail] *)

Definition editingInstruction (prompt negativePrompt : string) : string :=
  "You are an expert digital artist specializing in photorealistic character integration. Your task is to take the person from the provided image and place them seamlessly into a new environment described by the user. **Crucially, you must preserve the exact facial features, hairstyle, and unique likeness of the person with the highest possible fidelity.** Do not change their appearance or identity. Now, generate the following scene: "
  ++ dquote ++ prompt ++ dquote
  ++ (if truthy negativePrompt
      then newline ++ newline
           ++ "**IMPORTANTLY, AVOID the following elements at all costs: "
           ++ negativePrompt ++ ".**"
      else "").

Definition fullPrompt (prompt negativePrompt : string) : string :=
  prompt ++ ". "
  ++ (if truthy negativePrompt then "Negative prompt: " ++ negativePrompt else "").

(** The one request a call builds (lines 34-45 and 58-66). *)
Definition thumbnail_request (prompt negativePrompt : string)
    (aspectRatio : Canvas.AspectRatio) (image : option UploadedImage) : Request :=
  match image with
  | Some image =>
      EditRequest "gemini-2.5-flash-image-preview"
        [ InlineDataPart (data image) (mimeType image);
          TextPart (editingInstruction prompt negativePrompt) ]
        [ IMAGE; TEXT ]
  | None =>
      ImagesRequest "imagen-4.0-generate-001" (fullPrompt prompt negativePrompt)
        1 "image/jpeg" aspectRatio
  end.

(** [response.candidates?.[0]?.content?.parts?.find(part => part.inlineData)] *)
Definition imagePart (response : ContentResponse) : option ResponsePart :=
  match candidates response with
  | Some (candidate :: _) =>
      match content candidate with
      | Some c =>
          match parts c with
          | Some ps =>
              find (fun part => match inlineData part with Some _ => true | None => false end) ps
          | None => None
          end
      | None => None
      end
  | _ => None
  end.

Definition type_error (property : string) : Thrown :=
  Error ("Cannot read properties of undefined (reading '" ++ property ++ "')").

(** The [try] block: the value it returns or what it throws. *)
Definition thumbnail_try (remote : Remote) (prompt negativePrompt : string)
    (aspectRatio : Canvas.AspectRatio) (image : option UploadedImage) : Settled string :=
  let request := thumbnail_request prompt negativePrompt aspectRatio image in
  match image with
  | Some _ =>
      match generateContent remote request with
      | Resolved response =>
          match imagePart response with
          | Some {| inlineData := Some d |} =>
              Resolved ("data:" ++ shown (inline_mimeType d) ++ ";base64,"
                        ++ shown (inline_data d))
          | _ =>
              Rejected (Error "No image was generated. The model may have refused the prompt. Please try describing a different scene.")
          end
      | Rejected thrown => Rejected thrown
      end
  | None =>
      match generateImages remote request with
      | Resolved response =>
          match generatedImages response with
          | Some (first :: _) =>
              match generated_image first with
              | Some base64ImageBytes =>
                  Resolved ("data:image/jpeg;base64," ++ shown base64ImageBytes)
              | None => Rejected (type_error "imageBytes")
              end
          | _ =>
              Rejected (Error "No image was generated. The response may have been blocked due to safety policies. Please revise your prompt.")
          end
      | Rejected thrown => Rejected thrown
      end
  end.

(** [error instanceof Error ? error.message : "An unknown error occurred."] *)
Definition errorMessage (error : Thrown) : string :=
  match error with
  | Error message => message
  | NonError _ => "An unknown error occurred."
  end.

Definition safety_message : string :=
  "The generation was blocked due to safety policies. Please revise your prompt.".

(** The [catch] block of lines 75-84: what it throws. *)
Definition thumbnail_catch (error : Thrown) : Thrown :=
  if includes (errorMessage error) "blocked" || includes (errorMessage error) "safety"
  then Error safety_message
  else Error ("Failed to generate thumbnail: " ++ errorMessage error).

Definition generateThumbnail (remote : Remote) (prompt negativePrompt : string)
    (aspectRatio : Canvas.AspectRatio) (image : option UploadedImage) : Settled string :=
  match thumbnail_try remote prompt negativePrompt aspectRatio image with
  | Resolved url => Resolved url
  | Rejected error => Rejected (thumbnail_catch error)
  end.

(** ** [getPromptSuggestions] *)

Definition systemInstruction : string :=
  "You are an expert YouTube thumbnail strategist. Your goal is to help users create a vivid, detailed, and click-worthy visual prompt for an AI image generator.".

Definition userPrompt (currentPrompt : string) : string :=
  "Based on the user's idea: '"
  ++ (if truthy currentPrompt then currentPrompt else "a popular YouTube video")
  ++ "', generate one improved and highly detailed visual prompt. The new prompt must include specific details about cinematic lighting, dynamic composition, and a clear emotional tone to make it more engaging.".

Definition suggestion_request (currentPrompt : string) : Request :=
  SuggestionRequest "gemini-2.5-flash" (userPrompt currentPrompt) systemInstruction
    "application/json" [ "visual_prompt" ].

(** [s.trim()]. A string is the sequence of the bytes of its UTF-8
    encoding; [trim] removes, at both ends, the code points of WhiteSpace and
    LineTerminator: U+0009 to U+000D and U+0020 (one byte), U+00A0 (two bytes),
    U+1680, U+2000 to U+200A, U+2028, U+2029, U+202F, U+205F, U+3000 and
    U+FEFF (three bytes). *)
Definition is_space (c : ascii) : bool :=
  let n := nat_of_ascii c in
  ((9 <=? n) && (n <=? 13))%nat || (n =? 32)%nat.

Definition is_space2 (a b : ascii) : bool :=
  ((nat_of_ascii a =? 194) && (nat_of_ascii b =? 160))%nat.

Definition is_space3 (a b c : ascii) : bool :=
  let x := nat_of_ascii a in
  let y := nat_of_ascii b in
  let z := nat_of_ascii c in
  (((x =? 225) && (y =? 154) && (z =? 128))
   || ((x =? 226) && (y =? 128)
       && (((128 <=? z) && (z <=? 138)) || (z =? 168) || (z =? 169) || (z =? 175)))
   || ((x =? 226) && (y =? 129) && (z =? 159))
   || ((x =? 227) && (y =? 128) && (z =? 128))
   || ((x =? 239) && (y =? 187) && (z =? 191)))%nat.

(** Removes the white space at the start of [s]. With [backwards], [s]
    is a string read from its end, where the bytes of a code point come
    last byte first. *)
Fixpoint strip (backwards : bool) (s : string) : string :=
  match s with
  | String a rest =>
      if is_space a then strip backwards rest
      else
        match rest with
        | String b rest2 =>
            if (if backwards then is_space2 b a else is_space2 a b)
            then strip backwards rest2
            else
              match rest2 with
              | String c rest3 =>
                  if (if backwards then is_space3 c b a else is_space3 a b c)
                  then strip backwards rest3
                  else s
              | EmptyString => s
              end
        | EmptyString => s
        end
  | EmptyString => s
  end.

Definition trim_start (s : string) : string := strip false s.

Fixpoint rev_string (acc s : string) : string :=
  match s with
  | EmptyString => acc
  | String c rest => rev_string (String c acc) rest
  end.

Definition trim (s : string) : string :=
  rev_string "" (strip true (rev_string "" (trim_start s))).

(** Truthiness of a parsed value. *)
Definition json_truthy (j : Json) : bool :=
  match j with
  | JNull => false
  | JBool b => b
  | JNumber n => negb (n =? 0)%Z
  | JString s => truthy s
  | JArray _ | JObject _ => true
  end.

Fixpoint lookup (key : string) (fields : list (string * Json)) : option Json :=
  match fields with
  | [] => None
  | (k, v) :: rest => if String.eqb k key then Some v else lookup key rest
  end.

(** [parsed.visual_prompt]: a [TypeError] on [null], [undefined] where
    the property is absent. *)
Definition visual_prompt (parsed : Json) : Settled (option Json) :=
  match parsed with
  | JNull => Rejected (Error "Cannot read properties of null (reading 'visual_prompt')")
  | JObject fields => Resolved (lookup "visual_prompt" fields)
  | _ => Resolved None
  end.

Definition suggestions_try (remote : Remote) (currentPrompt : string) : Settled Json :=
  match generateContent remote (suggestion_request currentPrompt) with
  | Resolved response =>
      match text response with
      | Some t =>
          match JSON_parse remote (trim t) with
          | Resolved parsed =>
              match visual_prompt parsed with
              | Resolved (Some v) =>
                  if json_truthy v then Resolved parsed
                  else Rejected (Error "Invalid response format from AI for suggestions.")
              | Resolved None =>
                  Rejected (Error "Invalid response format from AI for suggestions.")
              | Rejected thrown => Rejected thrown
              end
          | Rejected thrown => Rejected thrown
          end
      | None => Rejected (type_error "trim")
      end
  | Rejected thrown => Rejected thrown
  end.

Definition suggestions_catch (error : Thrown) : Thrown :=
  Error ("Failed to get prompt suggestions: " ++ errorMessage error).

Definition getPromptSuggestions (remote : Remote) (currentPrompt : string)
  : Settled Json :=
  match suggestions_try remote currentPrompt with
  | Resolved parsed => Resolved parsed
  | Rejected error => Rejected (suggestions_catch error)
  end.

(** ** Vocabulary of the claims *)

(** What the awaited remote call threw, if it threw. *)
Definition remote_failure (remote : Remote) (prompt negativePrompt : string)
    (aspectRatio : Canvas.AspectRatio) (image : option UploadedImage) : option Thrown :=
  let request := thumbnail_request prompt negativePrompt aspectRatio image in
  match image with
  | Some _ =>
      match generateContent remote request with
      | Rejected thrown => Some thrown
      | Resolved _ => None
      end
  | None =>
      match generateImages remote request with
      | Rejected thrown => Some thrown
      | Resolved _ => None
      end
  end.


(** A remote that always throws [thrown]. *)
Definition failing_remote (thrown : Thrown) : Remote :=
  {| generateContent := fun _ => Rejected thrown;
     generateImages := fun _ => Rejected thrown;
     JSON_parse := fun _ => Rejected thrown |}.

End Service.

(** * Facts about the generation service *)

Module ServiceFacts.
Import Js Service.

Local Open Scope string_scope.

Lemma thumbnail_catch_shape error :
  thumbnail_catch error = Error safety_message
  \/ thumbnail_catch error = Error ("Failed to generate thumbnail: " ++ errorMessage error).
Proof.
  unfold thumbnail_catch.
  destruct (includes (errorMessage error) "blocked" || includes (errorMessage error) "safety");
    auto.
Qed.

Lemma generateThumbnail_rejected remote prompt negativePrompt aspectRatio image reason :
  generateThumbnail remote prompt negativePrompt aspectRatio image = Rejected reason ->
  exists error,
    thumbnail_try remote prompt negativePrompt aspectRatio image = Rejected error
    /\ reason = thumbnail_catch error.
Proof.
  unfold generateThumbnail.
  destruct (thumbnail_try remote prompt negativePrompt aspectRatio image) as [url | error];
    intros H; inversion H. eauto.
Qed.

Lemma thumbnail_try_remote_failure remote prompt negativePrompt aspectRatio image thrown :
  remote_failure remote prompt negativePrompt aspectRatio image = Some thrown ->
  thumbnail_try remote prompt negativePrompt aspectRatio image = Rejected thrown.
Proof.
  unfold remote_failure, thumbnail_try. destruct image as [img | ].
  - destruct (generateContent remote _); intros H; inversion H; reflexivity.
  - destruct (generateImages remote _); intros H; inversion H; reflexivity.
Qed.

(** The two messages thrown inside the [try] block itself. *)
Example refusal_is_wrapped :
  thumbnail_catch (Error "No image was generated. The model may have refused the prompt. Please try describing a different scene.")
  = Error "Failed to generate thumbnail: No image was generated. The model may have refused the prompt. Please try describing a different scene.".
Proof. reflexivity. Qed.

Example empty_result_is_a_safety_block :
  thumbnail_catch (Error "No image was generated. The response may have been blocked due to safety policies. Please revise your prompt.")
  = Error safety_message.
Proof. reflexivity. Qed.


Example a_thrown_error_is_wrapped :
  generateThumbnail (failing_remote (Error "quota exceeded")) "a cat" "" Canvas.R16_9 None
  = Rejected (Error "Failed to generate thumbnail: quota exceeded")
  /\ getPromptSuggestions (failing_remote (Error "quota exceeded")) "a cat"
     = Rejected (Error "Failed to get prompt suggestions: quota exceeded").
Proof. split; reflexivity. Qed.

Example a_thrown_value_is_wrapped :
  generateThumbnail (failing_remote (NonError "503")) "a cat" "" Canvas.R16_9 None
  = Rejected (Error "Failed to generate thumbnail: An unknown error occurred.")
  /\ getPromptSuggestions (failing_remote (NonError "503")) "a cat"
     = Rejected (Error "Failed to get prompt suggestions: An unknown error occurred.").
Proof. split; reflexivity. Qed.


End ServiceFacts.

(** * The [App] component (src/App.tsx, lines 62-241) *)

Module App.
Import Js.

Local Open Scope string_scope.

(** [type UploadedImage = { data: string; mimeType: string }], [data]
    being a base64 data URL. *)
Record UploadedImage : Type := { data : string; mimeType : string }.

(** [type PromptSuggestion = { visual_prompt: string }] *)
Record PromptSuggestion : Type := { visual_prompt : string }.

(** The values held by the [useState] hooks of lines 65-79. *)
Record State : Type :=
  { prompt : string;
    negativePrompt : string;
    style : string;
    aspectRatio : Canvas.AspectRatio;
    rawImageUrl : option string;
    finalImageUrl : option string;
    isLoading : bool;
    error : option string;
    uploadedImage : option UploadedImage;
    isAppVisible : bool;
    isSuggesting : bool }.

Definition initialPrompt : string :=
  "A dramatic and inspirational YouTube thumbnail showing the Indian flag waving proudly on top of the Earth, golden sunlight shining behind it, futuristic skyscrapers and technology in the background, a confident young person pointing forward with determination, bold glowing text overlay: ‘India #1 in the World’, vibrant colors (saffron, white, green, blue), cinematic style, ultra-realistic, high contrast, motivational theme.".

Definition initial : State :=
  {| prompt := initialPrompt;
     negativePrompt := "blurry, deformed, watermark";
     style := "Cinematic";
     aspectRatio := Canvas.R16_9;
     rawImageUrl := None;
     finalImageUrl := None;
     isLoading := false;
     error := None;
     uploadedImage := None;
     isAppVisible := false;
     isSuggesting := false |}.

Definition styles : list string :=
  [ "Cinematic"; "Minimalist"; "Cartoonish"; "Photorealistic"; "Vibrant"; "Dark & Moody" ].

Definition aspectRatios : list Canvas.AspectRatio :=
  [ Canvas.R16_9; Canvas.R1_1; Canvas.R9_16; Canvas.R4_3; Canvas.R3_4 ].

(** ** The state setters *)

Definition setPrompt (v : string) (s : State) : State :=
  {| prompt := v; negativePrompt := negativePrompt s; style := style s;
     aspectRatio := aspectRatio s; rawImageUrl := rawImageUrl s;
     finalImageUrl := finalImageUrl s; isLoading := isLoading s; error := error s;
     uploadedImage := uploadedImage s; isAppVisible := isAppVisible s;
     isSuggesting := isSuggesting s |}.

Definition setNegativePrompt (v : string) (s : State) : State :=
  {| prompt := prompt s; negativePrompt := v; style := style s;
     aspectRatio := aspectRatio s; rawImageUrl := rawImageUrl s;
     finalImageUrl := finalImageUrl s; isLoading := isLoading s; error := error s;
     uploadedImage := uploadedImage s; isAppVisible := isAppVisible s;
     isSuggesting := isSuggesting s |}.

Definition setStyle (v : string) (s : State) : State :=
  {| prompt := prompt s; negativePrompt := negativePrompt s; style := v;
     aspectRatio := aspectRatio s; rawImageUrl := rawImageUrl s;
     finalImageUrl := finalImageUrl s; isLoading := isLoading s; error := error s;
     uploadedImage := uploadedImage s; isAppVisible := isAppVisible s;
     isSuggesting := isSuggesting s |}.

Definition setAspectRatio (v : Canvas.AspectRatio) (s : State) : State :=
  {| prompt := prompt s; negativePrompt := negativePrompt s; style := style s;
     aspectRatio := v; rawImageUrl := rawImageUrl s;
     finalImageUrl := finalImageUrl s; isLoading := isLoading s; error := error s;
     uploadedImage := uploadedImage s; isAppVisible := isAppVisible s;
     isSuggesting := isSuggesting s |}.

Definition setRawImageUrl (v : option string) (s : State) : State :=
  {| prompt := prompt s; negativePrompt := negativePrompt s; style := style s;
     aspectRatio := aspectRatio s; rawImageUrl := v;
     finalImageUrl := finalImageUrl s; isLoading := isLoading s; error := error s;
     uploadedImage := uploadedImage s; isAppVisible := isAppVisible s;
     isSuggesting := isSuggesting s |}.

Definition setFinalImageUrl (v : option string) (s : State) : State :=
  {| prompt := prompt s; negativePrompt := negativePrompt s; style := style s;
     aspectRatio := aspectRatio s; rawImageUrl := rawImageUrl s;
     finalImageUrl := v; isLoading := isLoading s; error := error s;
     uploadedImage := uploadedImage s; isAppVisible := isAppVisible s;
     isSuggesting := isSuggesting s |}.

Definition setIsLoading (v : bool) (s : State) : State :=
  {| prompt := prompt s; negativePrompt := negativePrompt s; style := style s;
     aspectRatio := aspectRatio s; rawImageUrl := rawImageUrl s;
     finalImageUrl := finalImageUrl s; isLoading := v; error := error s;
     uploadedImage := uploadedImage s; isAppVisible := isAppVisible s;
     isSuggesting := isSuggesting s |}.

Definition setError (v : option string) (s : State) : State :=
  {| prompt := prompt s; negativePrompt := negativePrompt s; style := style s;
     aspectRatio := aspectRatio s; rawImageUrl := rawImageUrl s;
     finalImageUrl := finalImageUrl s; isLoading := isLoading s; error := v;
     uploadedImage := uploadedImage s; isAppVisible := isAppVisible s;
     isSuggesting := isSuggesting s |}.

Definition setUploadedImage (v : option UploadedImage) (s : State) : State :=
  {| prompt := prompt s; negativePrompt := negativePrompt s; style := style s;
     aspectRatio := aspectRatio s; rawImageUrl := rawImageUrl s;
     finalImageUrl := finalImageUrl s; isLoading := isLoading s; error := error s;
     uploadedImage := v; isAppVisible := isAppVisible s;
     isSuggesting := isSuggesting s |}.

Definition setIsAppVisible (v : bool) (s : State) : State :=
  {| prompt := prompt s; negativePrompt := negativePrompt s; style := style s;
     aspectRatio := aspectRatio s; rawImageUrl := rawImageUrl s;
     finalImageUrl := finalImageUrl s; isLoading := isLoading s; error := error s;
     uploadedImage := uploadedImage s; isAppVisible := v;
     isSuggesting := isSuggesting s |}.

Definition setIsSuggesting (v : bool) (s : State) : State :=
  {| prompt := prompt s; negativePrompt := negativePrompt s; style := style s;
     aspectRatio := aspectRatio s; rawImageUrl := rawImageUrl s;
     finalImageUrl := finalImageUrl s; isLoading := isLoading s; error := error s;
     uploadedImage := uploadedImage s; isAppVisible := isAppVisible s;
     isSuggesting := v |}.

(** ** Handlers *)

(** [s.toLowerCase()], on the ASCII letters. *)
Definition lower (c : ascii) : ascii :=
  let n := nat_of_ascii c in
  if ((65 <=? n) && (n <=? 90))%nat then ascii_of_nat (n + 32) else c.

Fixpoint toLowerCase (s : string) : string :=
  match s with
  | EmptyString => EmptyString
  | String c rest => String (lower c) (toLowerCase rest)
  end.

(** The arguments of one call of [generateThumbnail]. *)
Record GenerateCall : Type :=
  { call_prompt : string;
    call_negativePrompt : string;
    call_aspectRatio : Canvas.AspectRatio;
    call_image : option Service.UploadedImage }.

Definition is_null {A : Type} (x : option A) : bool :=
  match x with
  | None => true
  | Some _ => false
  end.

(** [handleGenerate] up to its [await] (lines 133-144): the state it
    leaves and the request it issues, if any. *)
Definition handleGenerate (s : State) : State * option GenerateCall :=
  if negb (truthy (prompt s)) && is_null (uploadedImage s) then (s, None)
  else
    let finalPrompt := prompt s ++ ", " ++ toLowerCase (style s) ++ " style" in
    let imageToPass :=
      match uploadedImage s with
      | Some uploaded =>
          Some {| Service.data := nth_error (split (data uploaded) ",") 1;
                  Service.mimeType := mimeType uploaded |}
      | None => None
      end in
    (setFinalImageUrl None (setRawImageUrl None (setError None (setIsLoading true s))),
     Some {| call_prompt := finalPrompt;
             call_negativePrompt := negativePrompt s;
             call_aspectRatio := aspectRatio s;
             call_image := imageToPass |}).

(** How the awaited call settles, against a given remote. *)
Definition call_outcome (remote : Service.Remote) (call : GenerateCall) : Settled string :=
  Service.generateThumbnail remote (call_prompt call) (call_negativePrompt call)
    (call_aspectRatio call) (call_image call).

(** [handleGenerate] after its [await] (lines 145-149). *)
Definition generation_settled (outcome : Settled string) (s : State) : State :=
  match outcome with
  | Resolved generatedUrl => setRawImageUrl (Some generatedUrl) s
  | Rejected err =>
      setIsLoading false
        (setError (Some match err with
                        | Error message => message
                        | NonError _ => "An unknown error occurred"
                        end) s)
  end.

(** [handleGetSuggestions] up to its [await] (lines 119-123). *)
Definition handleGetSuggestions (s : State) : State * option string :=
  if negb (truthy (prompt s)) then (s, None)
  else (setError None (setIsSuggesting true s), Some (prompt s)).

(** [handleGetSuggestions] after its [await] (lines 124-128). *)
Definition suggestion_settled (outcome : Settled PromptSuggestion) (s : State) : State :=
  setIsSuggesting false
    match outcome with
    | Resolved result => setPrompt (visual_prompt result) s
    | Rejected err =>
        setError (Some match err with
                       | Error message => "Suggestion Error: " ++ message
                       | NonError _ => "An unknown error occurred while getting suggestions"
                       end) s
    end.

(** The [then] and [catch] of lines 88-89. *)
Definition canvas_settled (outcome : Settled string) (s : State) : State :=
  match outcome with
  | Resolved url => setFinalImageUrl (Some url) s
  | Rejected err =>
      setError (Some ("Canvas Render Error: "
                      ++ match err with
                         | Error message => message
                         | NonError _ => "undefined"
                         end)) s
  end.

(** [handleImageUpload]: what [reader.onloadend] does once the chosen
    file is read (lines 99-105). *)
Definition handleImageUpload (uploaded : UploadedImage) (s : State) : State :=
  setPrompt "" (setUploadedImage (Some uploaded) s).

(** [removeImage] (lines 110-112). *)
Definition removeImage (s : State) : State :=
  setPrompt initialPrompt (setUploadedImage None s).

(** What [handleDownload] hands to the browser: the link it clicks. *)
Record Download : Type := { href : string; download : string }.

(** [handleDownload] (lines 162-170). *)
Definition handleDownload (s : State) : option Download :=
  match finalImageUrl s with
  | Some (String c rest) =>
      Some {| href := String c rest; download := "bhagat-thumbnail.jpeg" |}
  | _ => None
  end.

(** ** Effects *)

Definition same_url (a b : option string) : bool :=
  match a, b with
  | None, None => true
  | Some x, Some y => String.eqb x y
  | _, _ => false
  end.

Definition same_ratio (a b : Canvas.AspectRatio) : bool :=
  String.eqb (Canvas.AspectRatio_text a) (Canvas.AspectRatio_text b).

(** The effect of lines 85-90, run when [rawImageUrl] or [aspectRatio]
    changed: the [drawCanvas] call it starts, if any. *)
Definition canvas_effect (before after : State) : option (string * Canvas.AspectRatio) :=
  if same_url (rawImageUrl before) (rawImageUrl after)
     && same_ratio (aspectRatio before) (aspectRatio after)
  then None
  else
    match rawImageUrl after with
    | Some url => if truthy url then Some (url, aspectRatio after) else None
    | None => None
    end.

(** The effect of lines 155-159, run when [rawImageUrl] changed. *)
Definition loading_effect (before after : State) : State :=
  if same_url (rawImageUrl before) (rawImageUrl after) then after
  else if truthy_opt (rawImageUrl after) then setIsLoading false after
  else after.

(** ** Rendering *)

(** The four things the display panel can show (line 234). *)
Inductive View : Type :=
| LoaderView
| ErrorView (message : string)
| ImageView (src : string)
| EmptyView.

(** The child of the display panel: the value of the conditional expression
    of line 234. *)
Definition display (s : State) : View :=
  if isLoading s then LoaderView
  else
    match error s with
    | Some (String c rest) => ErrorView (String c rest)
    | _ =>
        match finalImageUrl s with
        | Some (String c rest) => ImageView (String c rest)
        | _ => EmptyView
        end
    end.

(** Which of the four [display] is. *)
Inductive Kind : Type := Loader | ErrorPanel | GeneratedImage | EmptyState.

Definition kind_of (v : View) : Kind :=
  match v with
  | LoaderView => Loader
  | ErrorView _ => ErrorPanel
  | ImageView _ => GeneratedImage
  | EmptyView => EmptyState
  end.

Definition kind_eqb (a b : Kind) : bool :=
  match a, b with
  | Loader, Loader | ErrorPanel, ErrorPanel
  | GeneratedImage, GeneratedImage | EmptyState, EmptyState => true
  | _, _ => false
  end.

(** The display panel shows the view of kind [k]. *)
Definition shows (s : State) (k : Kind) : bool := kind_eqb (kind_of (display s)) k.

(** [disabled] of the "Improve prompt with AI" button (line 193). *)
Definition improve_disabled (s : State) : bool :=
  isLoading s || isSuggesting s || negb (truthy (prompt s)).

(** [disabled] of the generate button (line 225). *)
Definition generate_disabled (s : State) : bool :=
  isLoading s || (negb (truthy (prompt s)) && is_null (uploadedImage s)).

(** Whether the "Try Again" button is on the page (line 234). *)
Definition try_again_rendered (s : State) : bool :=
  match display s with
  | ErrorView _ => true
  | _ => false
  end.

(** ** The page as a transition system *)

(** The state of the component together with the calls in flight. *)
Record World : Type :=
  { ui : State;
    generating : list GenerateCall;
    suggesting : list string;
    drawing : list (string * Canvas.AspectRatio) }.

Definition start : World :=
  {| ui := initial; generating := []; suggesting := []; drawing := [] |}.

Inductive Event : Type :=
| Mounted
| PromptTyped (value : string)
| NegativePromptTyped (value : string)
| StylePicked (value : string)
| AspectRatioPicked (value : Canvas.AspectRatio)
| FileRead (uploaded : UploadedImage)
| RemoveImageClicked
| ImproveClicked
| SuggestionSettled (outcome : Settled PromptSuggestion)
| GenerateClicked
| TryAgainClicked
| GenerationSettled (outcome : Settled string)
| CanvasSettled (outcome : Settled string)
| DownloadClicked.

(** A render followed by its effects. *)
Definition commit (before : State) (w : World) : World :=
  {| ui := loading_effect before (ui w);
     generating := generating w;
     suggesting := suggesting w;
     drawing :=
       match canvas_effect before (ui w) with
       | Some call => drawing w ++ [call]
       | None => drawing w
       end |}.

Definition with_ui (s : State) (w : World) : World :=
  {| ui := s; generating := generating w; suggesting := suggesting w;
     drawing := drawing w |}.

Definition generate (w : World) : World :=
  let '(s, call) := handleGenerate (ui w) in
  {| ui := s;
     generating :=
       match call with
       | Some c => generating w ++ [c]
       | None => generating w
       end;
     suggesting := suggesting w;
     drawing := drawing w |}.

Definition improve (w : World) : World :=
  let '(s, call) := handleGetSuggestions (ui w) in
  {| ui := s;
     generating := generating w;
     suggesting :=
       match call with
       | Some c => suggesting w ++ [c]
       | None => suggesting w
       end;
     drawing := drawing w |}.

(** One event of the page: [None] when it cannot happen in [w] (its
    control is disabled or absent, or no such call is in flight). A file
    finishes reading, and a call in flight settles, at any time and with any
    outcome. *)
Definition step (w : World) (e : Event) : option World :=
  let s := ui w in
  match e with
  | Mounted => Some (commit s (with_ui (setIsAppVisible true s) w))
  | PromptTyped value =>
      if isLoading s then None else Some (commit s (with_ui (setPrompt value s) w))
  | NegativePromptTyped value =>
      if isLoading s then None
      else Some (commit s (with_ui (setNegativePrompt value s) w))
  | StylePicked value =>
      if isLoading s || negb (existsb (String.eqb value) styles) then None
      else Some (commit s (with_ui (setStyle value s) w))
  | AspectRatioPicked value =>
      if isLoading s then None
      else Some (commit s (with_ui (setAspectRatio value s) w))
  | FileRead uploaded => Some (commit s (with_ui (handleImageUpload uploaded s) w))
  | RemoveImageClicked =>
      if is_null (uploadedImage s) then None
      else Some (commit s (with_ui (removeImage s) w))
  | ImproveClicked =>
      if improve_disabled s then None else Some (commit s (improve w))
  | SuggestionSettled outcome =>
      match suggesting w with
      | _ :: rest =>
          Some (commit s {| ui := suggestion_settled outcome s;
                            generating := generating w;
                            suggesting := rest;
                            drawing := drawing w |})
      | [] => None
      end
  | GenerateClicked =>
      if generate_disabled s then None else Some (commit s (generate w))
  | TryAgainClicked =>
      if try_again_rendered s then Some (commit s (generate w)) else None
  | GenerationSettled outcome =>
      match generating w with
      | _ :: rest =>
          Some (commit s {| ui := generation_settled outcome s;
                            generating := rest;
                            suggesting := suggesting w;
                            drawing := drawing w |})
      | [] => None
      end
  | CanvasSettled outcome =>
      match drawing w with
      | _ :: rest =>
          Some (commit s {| ui := canvas_settled outcome s;
                            generating := generating w;
                            suggesting := suggesting w;
                            drawing := rest |})
      | [] => None
      end
  | DownloadClicked =>
      match display s with
      | ImageView _ => Some w
      | _ => None
      end
  end.

(** The worlds the page can be in. *)
Inductive reachable : World -> Prop :=
| reachable_start : reachable start
| reachable_step w e w' : reachable w -> step w e = Some w' -> reachable w'.

(** ** Sample states for the examples *)

(** A page showing a generated image. *)
Definition showing_image : State :=
  setFinalImageUrl (Some "data:image/jpeg;base64,BBBB")
    (setRawImageUrl (Some "data:image/jpeg;base64,AAAA") initial).

(** A page with no prompt and no reference image. *)
Definition blank_form : State := setPrompt "" showing_image.

(** The page right after a click on the generate button. *)
Definition busy : World :=
  match step start GenerateClicked with
  | Some w => w
  | None => start
  end.

End App.

(** * Facts about the [App] component *)

Module AppFacts.
Import Js App.

Local Open Scope string_scope.

(** ** A failed generation *)

(** C2, as stated, fails: the image on display is gone after a failed
    generation, because [handleGenerate] clears it before it calls the
    service (lines 137-138). *)
Lemma C2_counterexample :
  let remote := Service.failing_remote (Error "quota exceeded") in
  let started := fst (handleGenerate showing_image) in
  exists call,
    finalImageUrl showing_image = Some "data:image/jpeg;base64,BBBB"
    /\ display showing_image = ImageView "data:image/jpeg;base64,BBBB"
    /\ handleGenerate showing_image = (started, Some call)
    /\ call_outcome remote call
       = Rejected (Error "Failed to generate thumbnail: quota exceeded")
    /\ finalImageUrl (generation_settled (call_outcome remote call) started) = None
    /\ display (generation_settled (call_outcome remote call) started)
       = ErrorView "Failed to generate thumbnail: quota exceeded".
Proof. eexists. repeat split. Qed.

(** C2, amended: a generation that fails never puts an image on display.
    The rejection itself only sets the error message and resets the loading
    flag; the image shown before is already cleared when the request is
    issued, so the page ends with the message and no image. *)
Theorem C2_failed_generation_shows_only_the_error s started call remote reason :
  handleGenerate s = (started, Some call) ->
  call_outcome remote call = Rejected reason ->
  exists message,
    reason = Error message
    /\ generation_settled (Rejected reason) started
       = setIsLoading false (setError (Some message) started)
    /\ finalImageUrl (generation_settled (Rejected reason) started)
       = finalImageUrl started
    /\ rawImageUrl (generation_settled (Rejected reason) started)
       = rawImageUrl started
    /\ generation_settled (Rejected reason) started
       = setIsLoading false
           (setError (Some message) (setFinalImageUrl None (setRawImageUrl None s))).
Proof.
  intros Hstart Hfail.
  unfold call_outcome in Hfail.
  destruct (ServiceFacts.generateThumbnail_rejected _ _ _ _ _ _ Hfail) as (original & _ & ->).
  destruct (ServiceFacts.thumbnail_catch_shape original) as [-> | ->];
    eexists; (split; [reflexivity | ]);
    unfold handleGenerate in Hstart;
    destruct (negb (truthy (prompt s)) && is_null (uploadedImage s));
    inversion Hstart; subst; repeat split.
Qed.

Lemma C2_witness :
  exists message,
    Error "Failed to generate thumbnail: quota exceeded" = Error message
    /\ generation_settled (Rejected (Error "Failed to generate thumbnail: quota exceeded"))
         (fst (handleGenerate showing_image))
       = setIsLoading false (setError (Some message) (fst (handleGenerate showing_image)))
    /\ finalImageUrl
         (generation_settled (Rejected (Error "Failed to generate thumbnail: quota exceeded"))
            (fst (handleGenerate showing_image)))
       = finalImageUrl (fst (handleGenerate showing_image))
    /\ rawImageUrl
         (generation_settled (Rejected (Error "Failed to generate thumbnail: quota exceeded"))
            (fst (handleGenerate showing_image)))
       = rawImageUrl (fst (handleGenerate showing_image))
    /\ generation_settled (Rejected (Error "Failed to generate thumbnail: quota exceeded"))
         (fst (handleGenerate showing_image))
       = setIsLoading false
           (setError (Some message)
              (setFinalImageUrl None (setRawImageUrl None showing_image))).
Proof.
  apply (C2_failed_generation_shows_only_the_error showing_image
           (fst (handleGenerate showing_image))
           {| call_prompt := prompt showing_image ++ ", cinematic style";
              call_negativePrompt := negativePrompt showing_image;
              call_aspectRatio := Canvas.R16_9;
              call_image := None |}
           (Service.failing_remote (Error "quota exceeded"))).
  - reflexivity.
  - reflexivity.
Defined.

(** ** The display panel *)

(** C5: the display panel shows exactly one of the four views, in every
    state: the loader while loading, else the error panel if there is a
    message, else the image if there is one, else the empty state. *)
Theorem C5_exactly_one_view s :
  List.length (filter (shows s) [Loader; ErrorPanel; GeneratedImage; EmptyState]) = 1%nat
  /\ shows s Loader = isLoading s
  /\ shows s ErrorPanel = negb (isLoading s) && truthy_opt (error s)
  /\ shows s GeneratedImage
     = negb (isLoading s) && negb (truthy_opt (error s)) && truthy_opt (finalImageUrl s)
  /\ shows s EmptyState
     = negb (isLoading s) && negb (truthy_opt (error s))
       && negb (truthy_opt (finalImageUrl s)).
Proof.
  unfold shows, display.
  destruct (isLoading s); [repeat split | ].
  destruct (error s) as [[ | c rest] | ];
    destruct (finalImageUrl s) as [[ | c' rest'] | ]; repeat split.
Qed.

(** ** No request without a prompt or an image *)

(** C10: with an empty prompt and no reference image, [handleGenerate]
    returns at line 133: no request is issued and no state changes. *)
Theorem C10_generate_without_input_is_noop w :
  prompt (ui w) = "" ->
  uploadedImage (ui w) = None ->
  handleGenerate (ui w) = (ui w, None) /\ generate w = w.
Proof.
  intros Hp Hu. unfold generate, handleGenerate. rewrite Hp, Hu. cbn.
  split; [reflexivity | ]. destruct w. reflexivity.
Qed.

Lemma C10_witness :
  handleGenerate blank_form = (blank_form, None)
  /\ generate {| ui := blank_form; generating := []; suggesting := []; drawing := [] |}
     = {| ui := blank_form; generating := []; suggesting := []; drawing := [] |}.
Proof.
  apply (C10_generate_without_input_is_noop
           {| ui := blank_form; generating := []; suggesting := []; drawing := [] |}).
  - reflexivity.
  - reflexivity.
Defined.

(** ** At most one request of each kind in flight *)

(** A request in flight keeps its flag raised. *)
Definition in_flight_flagged (w : World) : Prop :=
  (List.length (generating w) <= 1)%nat
  /\ (List.length (suggesting w) <= 1)%nat
  /\ (generating w <> [] -> isLoading (ui w) = true)
  /\ (suggesting w <> [] -> isSuggesting (ui w) = true).

Lemma not_flagged_nil {A : Type} (l : list A) (flag : bool) :
  (l <> [] -> flag = true) -> flag = false -> l = [].
Proof.
  destruct l as [ | a l]; trivial. intros H E.
  rewrite H in E; discriminate.
Qed.

Lemma same_url_refl u : same_url u u = true.
Proof. destruct u; simpl; [apply String.eqb_refl | reflexivity]. Qed.

Lemma loading_effect_unchanged before after :
  rawImageUrl after = rawImageUrl before -> loading_effect before after = after.
Proof. intros H. unfold loading_effect. rewrite H, same_url_refl. reflexivity. Qed.

Lemma loading_effect_cleared before after :
  rawImageUrl after = None -> loading_effect before after = after.
Proof.
  intros H. unfold loading_effect. rewrite H.
  destruct (same_url (rawImageUrl before) None); reflexivity.
Qed.

Lemma loading_effect_isSuggesting before after :
  isSuggesting (loading_effect before after) = isSuggesting after.
Proof.
  unfold loading_effect.
  destruct (same_url _ _); [reflexivity | ].
  destruct (truthy_opt _); reflexivity.
Qed.

Lemma handleGenerate_cases s :
  (handleGenerate s = (s, None) /\ generate_disabled s = isLoading s || true)
  \/ exists call,
       handleGenerate s
       = (setFinalImageUrl None (setRawImageUrl None (setError None (setIsLoading true s))),
          Some call).
Proof.
  unfold handleGenerate, generate_disabled.
  destruct (negb (truthy (prompt s)) && is_null (uploadedImage s)); eauto.
Qed.

Lemma generate_preserves w :
  isLoading (ui w) = false -> in_flight_flagged w ->
  in_flight_flagged (commit (ui w) (generate w)).
Proof.
  intros Hl (Hg & Hs & Hgl & Hsl).
  assert (Hnil : generating w = []) by exact (not_flagged_nil _ _ Hgl Hl).
  unfold generate.
  destruct (handleGenerate_cases (ui w)) as [[-> _] | [call ->]];
    unfold commit, in_flight_flagged; cbn [ui generating suggesting drawing].
  - rewrite loading_effect_unchanged by reflexivity. rewrite Hnil.
    split; [ | split; [ | split] ]; auto.
  - rewrite loading_effect_cleared by reflexivity. rewrite Hnil.
    split; [ | split; [ | split] ]; auto.
Qed.

Lemma step_preserves w e w' :
  in_flight_flagged w -> step w e = Some w' -> in_flight_flagged w'.
Proof.
  intros Hinv Hstep. pose proof Hinv as (Hg & Hs & Hgl & Hsl).
  destruct e; cbn [step] in Hstep.
  - inversion Hstep; subst. unfold commit, with_ui, in_flight_flagged.
    cbn [ui generating suggesting drawing].
    rewrite loading_effect_unchanged by reflexivity. auto.
  - destruct (isLoading (ui w)) eqn:El; inversion Hstep; subst.
    unfold commit, with_ui, in_flight_flagged. cbn [ui generating suggesting drawing].
    rewrite loading_effect_unchanged by reflexivity. auto.
  - destruct (isLoading (ui w)) eqn:El; inversion Hstep; subst.
    unfold commit, with_ui, in_flight_flagged. cbn [ui generating suggesting drawing].
    rewrite loading_effect_unchanged by reflexivity. auto.
  - destruct (isLoading (ui w) || negb (existsb (String.eqb value) styles));
      inversion Hstep; subst.
    unfold commit, with_ui, in_flight_flagged. cbn [ui generating suggesting drawing].
    rewrite loading_effect_unchanged by reflexivity. auto.
  - destruct (isLoading (ui w)) eqn:El; inversion Hstep; subst.
    unfold commit, with_ui, in_flight_flagged. cbn [ui generating suggesting drawing].
    rewrite loading_effect_unchanged by reflexivity. auto.
  - inversion Hstep; subst. unfold commit, with_ui, in_flight_flagged.
    cbn [ui generating suggesting drawing].
    rewrite loading_effect_unchanged by reflexivity. auto.
  - destruct (is_null (uploadedImage (ui w))); inversion Hstep; subst.
    unfold commit, with_ui, in_flight_flagged. cbn [ui generating suggesting drawing].
    rewrite loading_effect_unchanged by reflexivity. auto.
  - (* ImproveClicked *)
    unfold improve_disabled in Hstep.
    destruct (isLoading (ui w)) eqn:El; [discriminate | ].
    destruct (isSuggesting (ui w)) eqn:Es; [discriminate | ].
    destruct (truthy (prompt (ui w))) eqn:Ep; [ | discriminate].
    cbn in Hstep. inversion Hstep; subst. clear Hstep.
    assert (Hnil : suggesting w = []) by exact (not_flagged_nil _ _ Hsl eq_refl).
    unfold improve, handleGetSuggestions. rewrite Ep. cbn [negb].
    unfold commit, in_flight_flagged. cbn [ui generating suggesting drawing].
    rewrite loading_effect_unchanged by reflexivity. rewrite Hnil.
    split; [ | split; [ | split] ]; auto.
    intros H. discriminate (Hgl H).
  - (* SuggestionSettled *)
    destruct (suggesting w) as [ | c rest] eqn:Eq; [discriminate | ].
    inversion Hstep; subst. clear Hstep.
    assert (Hrest : rest = []) by (destruct rest; [reflexivity | simpl in Hs; lia]).
    subst rest.
    unfold commit, in_flight_flagged. cbn [ui generating suggesting drawing].
    rewrite loading_effect_unchanged by (destruct outcome as [ | []]; reflexivity).
    split; [ | split; [ | split] ]; auto.
    intros H. rewrite <- (Hgl H). destruct outcome as [ | []]; reflexivity.
  - (* GenerateClicked *)
    unfold generate_disabled in Hstep.
    destruct (isLoading (ui w)) eqn:El; [discriminate | ].
    destruct (negb (truthy (prompt (ui w))) && is_null (uploadedImage (ui w)));
      [discriminate | ].
    inversion Hstep; subst. apply generate_preserves; trivial.
  - (* TryAgainClicked *)
    unfold try_again_rendered, display in Hstep.
    destruct (isLoading (ui w)) eqn:El; [discriminate | ].
    destruct (match error (ui w) with Some (String c rest) => _ | _ => _ end);
      inversion Hstep; subst; apply generate_preserves; trivial.
  - (* GenerationSettled *)
    destruct (generating w) as [ | c rest] eqn:Eq; [discriminate | ].
    inversion Hstep; subst. clear Hstep.
    assert (Hrest : rest = []) by (destruct rest; [reflexivity | simpl in Hg; lia]).
    subst rest.
    unfold commit, in_flight_flagged. cbn [ui generating suggesting drawing].
    rewrite loading_effect_isSuggesting.
    split; [ | split; [ | split] ]; auto.
    intros H. rewrite <- (Hsl H). destruct outcome as [ | []]; reflexivity.
  - (* CanvasSettled *)
    destruct (drawing w) as [ | c rest] eqn:Eq; [discriminate | ].
    inversion Hstep; subst. clear Hstep.
    unfold commit, in_flight_flagged. cbn [ui generating suggesting drawing].
    rewrite loading_effect_unchanged by (destruct outcome as [ | []]; reflexivity).
    split; [ | split; [ | split] ]; auto.
    + intros H. rewrite <- (Hgl H). destruct outcome as [ | []]; reflexivity.
    + intros H. rewrite <- (Hsl H). destruct outcome as [ | []]; reflexivity.
  - destruct (display (ui w)); inversion Hstep; subst; trivial.
Qed.

Lemma reachable_in_flight_flagged w : reachable w -> in_flight_flagged w.
Proof.
  induction 1 as [ | w e w' _ IH Hstep].
  - unfold in_flight_flagged, start. cbn.
    split; [ | split; [ | split] ]; auto.
  - exact (step_preserves w e w' IH Hstep).
Qed.

(** C8: in every reachable state with a generation pending, the generate
    button and the improve button are disabled and "Try Again" is not on
    the page; with a suggestion pending, the improve button is disabled; so
    none of these events can happen, and at most one generation request
    and at most one suggestion request are in flight. *)
Theorem C8_one_request_in_flight w :
  reachable w ->
  (isLoading (ui w) = true ->
     generate_disabled (ui w) = true /\ try_again_rendered (ui w) = false
     /\ improve_disabled (ui w) = true
     /\ step w GenerateClicked = None /\ step w TryAgainClicked = None
     /\ step w ImproveClicked = None)
  /\ (isSuggesting (ui w) = true ->
        improve_disabled (ui w) = true /\ step w ImproveClicked = None)
  /\ (List.length (generating w) <= 1)%nat
  /\ (List.length (suggesting w) <= 1)%nat
  /\ (generating w <> [] -> isLoading (ui w) = true)
  /\ (suggesting w <> [] -> isSuggesting (ui w) = true).
Proof.
  intros Hr. destruct (reachable_in_flight_flagged w Hr) as (Hg & Hs & Hgl & Hsl).
  repeat split; trivial.
  - unfold generate_disabled. rewrite H. reflexivity.
  - unfold try_again_rendered, display. rewrite H. reflexivity.
  - unfold improve_disabled. rewrite H. reflexivity.
  - cbn [step]. unfold generate_disabled. rewrite H. reflexivity.
  - cbn [step]. unfold try_again_rendered, display. rewrite H. reflexivity.
  - cbn [step]. unfold improve_disabled. rewrite H. reflexivity.
  - unfold improve_disabled. rewrite H. destruct (isLoading (ui w)); reflexivity.
  - cbn [step]. unfold improve_disabled. rewrite H.
    destruct (isLoading (ui w)); reflexivity.
Qed.

Lemma C8_witness :
  (isLoading (ui busy) = true ->
     generate_disabled (ui busy) = true /\ try_again_rendered (ui busy) = false
     /\ improve_disabled (ui busy) = true
     /\ step busy GenerateClicked = None /\ step busy TryAgainClicked = None
     /\ step busy ImproveClicked = None)
  /\ (isSuggesting (ui busy) = true ->
        improve_disabled (ui busy) = true /\ step busy ImproveClicked = None)
  /\ (List.length (generating busy) <= 1)%nat
  /\ (List.length (suggesting busy) <= 1)%nat
  /\ (generating busy <> [] -> isLoading (ui busy) = true)
  /\ (suggesting busy <> [] -> isSuggesting (ui busy) = true).
Proof.
  apply (C8_one_request_in_flight busy).
  exact (reachable_step start GenerateClicked busy reachable_start eq_refl).
Defined.

End AppFacts.


(** * The [Loader] component (src/components/Loader.tsx) *)

Module Loader.

Local Open Scope string_scope.
Local Open Scope Z_scope.

Definition loadingMessages : list string :=
  [ "Crafting your vision...";
    "Polishing the details...";
    "Gathering inspiration...";
    "The creative process is in motion...";
    "Composing your masterpiece...";
    "Finalizing the artwork..." ].

(** The updater of line 26, [(prevIndex + 1) % loadingMessages.length];
    [%] takes the sign of the dividend, as [Z.rem] does. *)
Definition next (prevIndex : Z) : Z :=
  Z.rem (prevIndex + 1) (Z.of_nat (List.length loadingMessages)).

(** [messageIndex] after [n] ticks of the interval of lines 25-27. *)
Fixpoint messageIndex (n : nat) : Z :=
  match n with
  | O => 0
  | S n => next (messageIndex n)
  end.

(** [loadingMessages[i]]: [undefined] outside the array. *)
Definition message (i : Z) : option string :=
  if i <? 0 then None else nth_error loadingMessages (Z.to_nat i).

End Loader.

(** * Further properties of [drawCanvas] *)

Module CanvasProperties.
Import Binary64 Js Canvas CanvasFacts.

Local Open Scope string_scope.
Local Open Scope Z_scope.

Lemma render_size r image :
  (canvas_width (render r image), canvas_height (render r image)) = canvas_size r image.
Proof. unfold render. destruct (canvas_size r image). reflexivity. Qed.

Lemma drawCanvas_resolves browser base64Image r image :
  decode browser base64Image = Some image -> context2d browser = true ->
  drawCanvas browser base64Image r
    = Resolved (toDataURL browser (render r image) "image/jpeg").
Proof. intros Hdec Hctx. unfold drawCanvas. rewrite Hdec, Hctx. reflexivity. Qed.

(** The canvas keeps one side of the source and does not shrink the
    other. *)
Lemma canvas_size_one_axis r image :
  decoded image ->
  exists w h,
    canvas_size r image = (w, h)
    /\ ((w = width image /\ height image <= h < 2 ^ 31)
        \/ (h = height image /\ width image <= w < 2 ^ 31)).
Proof.
  intros Hd. destruct (decoded_sides image Hd) as [Hw Hh].
  destruct (exceeds_tolerance r image) eqn:Hex.
  - rewrite (canvas_size_padded r image Hd Hex).
    destruct (ratio_terms_bounds r) as [Htw Hth].
    destruct (Z.ltb_spec (width image * snd (ratio_terms r))
                         (fst (ratio_terms r) * height image)) as [Hlt | Hge].
    + pose proof (round_div_range r (height image) (proj2 Hd)).
      pose proof (round_div_bounds (height image * fst (ratio_terms r))
                    (snd (ratio_terms r)) ltac:(lia)).
      eexists _, _. split; [reflexivity | ]. right.
      split; [reflexivity | ]. split; [nia | lia].
    + pose proof (round_div_range' r (width image) (proj1 Hd)).
      pose proof (round_div_bounds (width image * snd (ratio_terms r))
                    (fst (ratio_terms r)) ltac:(lia)).
      eexists _, _. split; [reflexivity | ]. left.
      split; [reflexivity | ]. split; [nia | lia].
  - rewrite (canvas_size_kept r image Hd Hex).
    eexists _, _. split; [reflexivity | ]. left. split; [reflexivity | lia].
Qed.

(** X1: away from the boundary of the tolerance, the size of the canvas
    is given by exact integer arithmetic on the sides of the image and the two
    terms [tw : th] of the ratio: the source's own size when
    [|W/H - tw/th| < 1/100], and when it is more than [1/100], height [H]
    and width [H * tw / th] if [W/H < tw/th], else width [W] and height
    [W * th / tw], the quotient rounded to the nearest integer. The
    rounding of the binary64 operations of lines 21-41 never shows. *)
Theorem canvas_size_in_exact_arithmetic browser base64Image r image :
  decode browser base64Image = Some image ->
  context2d browser = true ->
  decoded image ->
  100 * Z.abs (width image * snd (ratio_terms r) - fst (ratio_terms r) * height image)
    <> height image * snd (ratio_terms r) ->
  exists canvas,
    drawCanvas browser base64Image r = Resolved (toDataURL browser canvas "image/jpeg")
    /\ (canvas_width canvas, canvas_height canvas)
       = if 100 * Z.abs (width image * snd (ratio_terms r)
                         - fst (ratio_terms r) * height image)
            <? height image * snd (ratio_terms r)
         then (width image, height image)
         else if width image * snd (ratio_terms r) <? fst (ratio_terms r) * height image
              then (round_div (height image * fst (ratio_terms r)) (snd (ratio_terms r)),
                    height image)
              else (width image,
                    round_div (width image * snd (ratio_terms r)) (fst (ratio_terms r))).
Proof.
  intros Hdec Hctx Hd Hne. exists (render r image).
  split; [exact (drawCanvas_resolves _ _ _ _ Hdec Hctx) | ].
  rewrite render_size.
  destruct (exceeds_tolerance_exact r image Hd) as [Hbelow Habove].
  destruct (Z.ltb_spec
              (100 * Z.abs (width image * snd (ratio_terms r)
                            - fst (ratio_terms r) * height image))
              (height image * snd (ratio_terms r))) as [Hlt | Hge].
  - apply canvas_size_kept; auto.
  - apply canvas_size_padded; [assumption | ]. apply Habove. lia.
Qed.

Lemma canvas_size_in_exact_arithmetic_witness :
  exists canvas,
    drawCanvas (browser_with (Some {| width := 1280; height := 1024 |}) true)
               "data:image/png;base64,AAAA" R9_16
      = Resolved (toDataURL (browser_with (Some {| width := 1280; height := 1024 |}) true)
                            canvas "image/jpeg")
    /\ (canvas_width canvas, canvas_height canvas) = (1280, 2276).
Proof.
  apply (canvas_size_in_exact_arithmetic
           (browser_with (Some {| width := 1280; height := 1024 |}) true)
           "data:image/png;base64,AAAA" R9_16 {| width := 1280; height := 1024 |}).
  - reflexivity.
  - reflexivity.
  - unfold decoded; simpl; lia.
  - simpl; lia.
Defined.

(** X2: the padding goes to one axis only, and the source sits in the
    middle of it: the canvas keeps the width or the height of the source,
    the offset along the kept side is [0], and along each axis the margin
    before the source is the margin after it, or one pixel more. *)
Theorem padding_is_centred_on_one_axis r image :
  decoded image ->
  exists w h dx dy,
    render r image
    = {| canvas_width := w; canvas_height := h;
         painted := [ FillRect "#000000" 0 0 w h;
                      DrawImage image (Some dx) (Some dy)
                                (width image) (height image) ] |}
    /\ ((w = width image /\ dx = 0) \/ (h = height image /\ dy = 0))
    /\ 0 <= dx - (w - width image - dx) <= 1
    /\ 0 <= dy - (h - height image - dy) <= 1.
Proof.
  intros Hd. destruct (decoded_sides image Hd) as [Hw Hh].
  assert (H47 : 2 ^ 31 < 2 ^ 47) by reflexivity.
  destruct (canvas_size_one_axis r image Hd) as (w & h & Hsize & Haxis).
  exists w, h, ((w - width image + 1) / 2), ((h - height image + 1) / 2).
  unfold render. rewrite Hsize.
  pose proof (Z.mul_div_le (w - width image + 1) 2 ltac:(lia)).
  pose proof (Z.mul_succ_div_gt (w - width image + 1) 2 ltac:(lia)).
  pose proof (Z.mul_div_le (h - height image + 1) 2 ltac:(lia)).
  pose proof (Z.mul_succ_div_gt (h - height image + 1) 2 ltac:(lia)).
  destruct Haxis as [[-> Hh'] | [-> Hw']].
  - rewrite !offset_spec by lia.
    split; [reflexivity | ].
    split; [left; split; [reflexivity | ] | ].
    + replace (width image - width image + 1) with 1 by lia. reflexivity.
    + lia.
  - rewrite !offset_spec by lia.
    split; [reflexivity | ].
    split; [right; split; [reflexivity | ] | ].
    + replace (height image - height image + 1) with 1 by lia. reflexivity.
    + lia.
Qed.

Lemma padding_is_centred_on_one_axis_witness :
  exists w h dx dy,
    render R16_9 {| width := 1024; height := 1025 |}
    = {| canvas_width := w; canvas_height := h;
         painted := [ FillRect "#000000" 0 0 w h;
                      DrawImage {| width := 1024; height := 1025 |} (Some dx) (Some dy)
                                1024 1025 ] |}
    /\ ((w = 1024 /\ dx = 0) \/ (h = 1025 /\ dy = 0))
    /\ 0 <= dx - (w - 1024 - dx) <= 1
    /\ 0 <= dy - (h - 1025 - dy) <= 1.
Proof.
  apply (padding_is_centred_on_one_axis R16_9 {| width := 1024; height := 1025 |}).
  unfold decoded; simpl; lia.
Defined.

End CanvasProperties.

(** * Further properties of the generation service *)

Module ServiceProperties.
Import Js Service.

Local Open Scope string_scope.

(** A remote whose image model answers with the images [images], whose
    editing model answers with the single candidate [answer], and whose
    [JSON.parse] yields [parsed]. *)
Definition answering_remote (images : list GeneratedImage) (answer : ContentResponse)
    (parsed : Json) : Remote :=
  {| generateContent := fun _ => Resolved answer;
     generateImages := fun _ => Resolved {| generatedImages := Some images |};
     JSON_parse := fun _ => Resolved parsed |}.

Definition text_answer (t : string) : ContentResponse :=
  {| candidates := None; text := Some t |}.

(** What [thumbnail_try] returns is a data URL. *)
Lemma thumbnail_try_data_url remote prompt negativePrompt aspectRatio image url :
  thumbnail_try remote prompt negativePrompt aspectRatio image = Resolved url ->
  exists mime payload,
    url = "data:" ++ mime ++ ";base64," ++ payload
    /\ (image = None -> mime = "image/jpeg").
Proof.
  unfold thumbnail_try. destruct image as [image | ].
  - destruct (generateContent remote _) as [response | thrown]; [ | discriminate].
    destruct (imagePart response) as [[[d | ]] | ]; try discriminate.
    intros H. inversion H. eexists _, _. split; [reflexivity | discriminate].
  - destruct (generateImages remote _) as [response | thrown]; [ | discriminate].
    destruct (generatedImages response) as [[ | first rest] | ]; try discriminate.
    destruct (generated_image first) as [bytes | ]; [ | discriminate].
    intros H. inversion H. exists "image/jpeg", (shown bytes).
    split; reflexivity.
Qed.

(** A resolved [generateThumbnail] carries a data URL, hence no empty
    string. *)
Lemma generateThumbnail_url_truthy remote prompt negativePrompt aspectRatio image url :
  generateThumbnail remote prompt negativePrompt aspectRatio image = Resolved url ->
  truthy url = true.
Proof.
  unfold generateThumbnail.
  destruct (thumbnail_try remote prompt negativePrompt aspectRatio image) as [u | e] eqn:E;
    [ | discriminate].
  intros H. inversion H; subst.
  destruct (thumbnail_try_data_url _ _ _ _ _ _ E) as (mime & payload & -> & _).
  reflexivity.
Qed.

(** X3: whenever [generateThumbnail] resolves, its value is a data URL
    ["data:<mime>;base64,<payload>"], so never the empty string; without a
    reference image the type is ["image/jpeg"] and the payload is that of the
    first generated image, whatever else the model returned. *)
Theorem generateThumbnail_resolves_with_data_url
    remote prompt negativePrompt aspectRatio image url :
  generateThumbnail remote prompt negativePrompt aspectRatio image = Resolved url ->
  (exists mime payload,
     url = "data:" ++ mime ++ ";base64," ++ payload
     /\ (image = None -> mime = "image/jpeg"))
  /\ truthy url = true
  /\ (image = None ->
      exists response first rest,
        generateImages remote (thumbnail_request prompt negativePrompt aspectRatio None)
          = Resolved response
        /\ generatedImages response = Some (first :: rest)
        /\ exists bytes,
             generated_image first = Some bytes
             /\ url = "data:image/jpeg;base64," ++ shown bytes).
Proof.
  intros H. split; [ | split].
  - unfold generateThumbnail in H.
    destruct (thumbnail_try remote prompt negativePrompt aspectRatio image) as [u | e] eqn:E;
      [ | discriminate].
    inversion H; subst. exact (thumbnail_try_data_url _ _ _ _ _ _ E).
  - exact (generateThumbnail_url_truthy _ _ _ _ _ _ H).
  - intros ->. unfold generateThumbnail, thumbnail_try in H.
    destruct (generateImages remote _) as [response | thrown]; [ | discriminate].
    destruct (generatedImages response) as [[ | first rest] | ] eqn:Eg; try discriminate.
    destruct (generated_image first) as [bytes | ] eqn:Eb; [ | discriminate].
    inversion H. exists response, first, rest.
    split; [reflexivity | ]. split; [exact Eg | ].
    exists bytes. split; [exact Eb | reflexivity].
Qed.

Lemma generateThumbnail_resolves_with_data_url_witness :
  (exists mime payload,
     "data:image/jpeg;base64,AAAA" = "data:" ++ mime ++ ";base64," ++ payload
     /\ (@None UploadedImage = None -> mime = "image/jpeg"))
  /\ truthy "data:image/jpeg;base64,AAAA" = true
  /\ (@None UploadedImage = None ->
      exists response first rest,
        generateImages
          (answering_remote
             [ {| generated_image := Some (Some "AAAA") |};
               {| generated_image := Some (Some "BBBB") |} ]
             (text_answer "") JNull)
          (thumbnail_request "a cat" "" Canvas.R1_1 None)
          = Resolved response
        /\ generatedImages response = Some (first :: rest)
        /\ exists bytes,
             generated_image first = Some bytes
             /\ "data:image/jpeg;base64,AAAA" = "data:image/jpeg;base64," ++ shown bytes).
Proof.
  apply (generateThumbnail_resolves_with_data_url
           (answering_remote
              [ {| generated_image := Some (Some "AAAA") |};
                {| generated_image := Some (Some "BBBB") |} ]
              (text_answer "") JNull)
           "a cat" "" Canvas.R1_1 None "data:image/jpeg;base64,AAAA").
  reflexivity.
Defined.

(** X4: [getPromptSuggestions] resolves exactly when the model answers
    with a text that, once trimmed, parses to an object whose
    [visual_prompt] is truthy; the value is that object as parsed. Nothing
    checks that [visual_prompt] is a string. *)
Theorem getPromptSuggestions_resolves_iff remote currentPrompt parsed :
  getPromptSuggestions remote currentPrompt = Resolved parsed
  <-> exists response t fields v,
        generateContent remote (suggestion_request currentPrompt) = Resolved response
        /\ text response = Some t
        /\ JSON_parse remote (trim t) = Resolved parsed
        /\ parsed = JObject fields
        /\ lookup "visual_prompt" fields = Some v
        /\ json_truthy v = true.
Proof.
  unfold getPromptSuggestions, suggestions_try. split.
  - destruct (generateContent remote _) as [response | thrown]; [ | discriminate].
    destruct (text response) as [t | ] eqn:Et; [ | discriminate].
    destruct (JSON_parse remote (trim t)) as [p | thrown] eqn:Ep; [ | discriminate].
    destruct p as [ | b | n | s | items | fields]; cbn [visual_prompt]; try discriminate.
    destruct (lookup "visual_prompt" fields) as [v | ] eqn:El; [ | discriminate].
    destruct (json_truthy v) eqn:Ev; [ | discriminate].
    intros H. inversion H; subst.
    exists response, t, fields, v. repeat split; assumption.
  - intros (response & t & fields & v & -> & -> & -> & -> & Hl & Hv).
    cbn [visual_prompt]. rewrite Hl, Hv. reflexivity.
Qed.

Example a_number_passes_for_a_suggestion :
  getPromptSuggestions
    (answering_remote [] (text_answer " {}  ") (JObject [ ("visual_prompt", JNumber 7) ]))
    "a cat"
  = Resolved (JObject [ ("visual_prompt", JNumber 7) ]).
Proof. reflexivity. Qed.

(** ** Which part of the answer is used *)

Definition has_inlineData (part : ResponsePart) : bool :=
  match inlineData part with
  | Some _ => true
  | None => false
  end.

Lemma find_first_inline before d after :
  forallb (fun part => negb (has_inlineData part)) before = true ->
  find has_inlineData (before ++ {| inlineData := Some d |} :: after)%list
  = Some {| inlineData := Some d |}.
Proof.
  induction before as [ | part before IH]; intros H.
  - reflexivity.
  - cbn [forallb] in H. apply Bool.andb_true_iff in H. destruct H as [Hp Hb].
    cbn [app find]. destruct (has_inlineData part); [discriminate | ].
    exact (IH Hb).
Qed.

Lemma find_no_inline ps :
  forallb (fun part => negb (has_inlineData part)) ps = true ->
  find has_inlineData ps = None.
Proof.
  induction ps as [ | part ps IH]; intros H.
  - reflexivity.
  - cbn [forallb] in H. apply Bool.andb_true_iff in H. destruct H as [Hp Hb].
    cbn [find]. destruct (has_inlineData part); [discriminate | ].
    exact (IH Hb).
Qed.

(** X5: with a reference image, the value is made from the first part
    of the first candidate that carries inline data: text parts before it are
    skipped, parts after it and further candidates are not looked at. *)
Theorem edit_mode_takes_the_first_inline_part
    remote prompt negativePrompt aspectRatio image
    response candidate others before d after :
  generateContent remote
    (thumbnail_request prompt negativePrompt aspectRatio (Some image))
    = Resolved response ->
  candidates response = Some (candidate :: others) ->
  content candidate
    = Some {| parts := Some (before ++ {| inlineData := Some d |} :: after)%list |} ->
  forallb (fun part => negb (has_inlineData part)) before = true ->
  generateThumbnail remote prompt negativePrompt aspectRatio (Some image)
  = Resolved ("data:" ++ shown (inline_mimeType d) ++ ";base64," ++ shown (inline_data d)).
Proof.
  intros Hr Hc Hp Hb. unfold generateThumbnail, thumbnail_try. rewrite Hr.
  unfold imagePart. rewrite Hc, Hp. cbn [parts].
  change (fun part : ResponsePart =>
            match inlineData part with Some _ => true | None => false end)
    with has_inlineData.
  rewrite (find_first_inline before d after Hb). reflexivity.
Qed.

(** An answer of the editing model: a remark, then two images. *)
Definition two_images : ContentResponse :=
  {| candidates :=
       Some [ {| content :=
                   Some {| parts :=
                             Some [ {| inlineData := None |};
                                    {| inlineData :=
                                         Some {| inline_data := Some "AAAA";
                                                 inline_mimeType := Some "image/png" |} |};
                                    {| inlineData :=
                                         Some {| inline_data := Some "BBBB";
                                                 inline_mimeType := Some "image/webp" |} |}
                                  ] |} |} ];
     text := None |}.

Lemma edit_mode_takes_the_first_inline_part_witness :
  generateThumbnail (answering_remote [] two_images JNull) "a beach" "" Canvas.R16_9
    (Some {| data := Some "CCCC"; mimeType := "image/jpeg" |})
  = Resolved "data:image/png;base64,AAAA".
Proof.
  apply (edit_mode_takes_the_first_inline_part
           (answering_remote [] two_images JNull) "a beach" "" Canvas.R16_9
           {| data := Some "CCCC"; mimeType := "image/jpeg" |}
           two_images
           {| content :=
                Some {| parts :=
                          Some [ {| inlineData := None |};
                                 {| inlineData :=
                                      Some {| inline_data := Some "AAAA";
                                              inline_mimeType := Some "image/png" |} |};
                                 {| inlineData :=
                                      Some {| inline_data := Some "BBBB";
                                              inline_mimeType := Some "image/webp" |} |}
                               ] |} |}
           []
           [ {| inlineData := None |} ]
           {| inline_data := Some "AAAA"; inline_mimeType := Some "image/png" |}
           [ {| inlineData :=
                  Some {| inline_data := Some "BBBB";
                          inline_mimeType := Some "image/webp" |} |} ]).
  - reflexivity.
  - reflexivity.
  - reflexivity.
  - reflexivity.
Defined.

(** X6: an answer without an image is reported differently in the two
    modes. Without a reference image, an absent or empty [generatedImages]
    gives the safety-policy message; with one, an answer none of whose parts
    carries inline data gives "Failed to generate thumbnail: No image was
    generated. The model may have refused the prompt. ...", which is not the
    safety-policy message. *)
Theorem an_answer_without_image_is_rejected remote prompt negativePrompt aspectRatio :
  (forall response,
     generateImages remote (thumbnail_request prompt negativePrompt aspectRatio None)
       = Resolved response ->
     generatedImages response = None \/ generatedImages response = Some [] ->
     generateThumbnail remote prompt negativePrompt aspectRatio None
     = Rejected (Error safety_message))
  /\ (forall image response candidate others ps,
        generateContent remote
          (thumbnail_request prompt negativePrompt aspectRatio (Some image))
          = Resolved response ->
        candidates response = Some (candidate :: others) ->
        content candidate = Some {| parts := Some ps |} ->
        forallb (fun part => negb (has_inlineData part)) ps = true ->
        generateThumbnail remote prompt negativePrompt aspectRatio (Some image)
        = Rejected (Error "Failed to generate thumbnail: No image was generated. The model may have refused the prompt. Please try describing a different scene."))
  /\ (forall image response,
        generateContent remote
          (thumbnail_request prompt negativePrompt aspectRatio (Some image))
          = Resolved response ->
        candidates response = None \/ candidates response = Some [] ->
        generateThumbnail remote prompt negativePrompt aspectRatio (Some image)
        = Rejected (Error "Failed to generate thumbnail: No image was generated. The model may have refused the prompt. Please try describing a different scene.")).
Proof.
  split; [ | split].
  - intros response Hr Hempty. unfold generateThumbnail, thumbnail_try. rewrite Hr.
    destruct Hempty as [-> | ->]; reflexivity.
  - intros image response candidate others ps Hr Hc Hp Hb.
    unfold generateThumbnail, thumbnail_try. rewrite Hr.
    unfold imagePart. rewrite Hc, Hp. cbn [parts].
    change (fun part : ResponsePart =>
              match inlineData part with Some _ => true | None => false end)
      with has_inlineData.
    rewrite (find_no_inline ps Hb). reflexivity.
  - intros image response Hr Hempty.
    unfold generateThumbnail, thumbnail_try. rewrite Hr.
    unfold imagePart. destruct Hempty as [-> | ->]; reflexivity.
Qed.

Example a_refusal_in_words_only :
  generateThumbnail
    (answering_remote []
       {| candidates :=
            Some [ {| content := Some {| parts := Some [ {| inlineData := None |} ] |} |} ];
          text := Some "I cannot do that." |}
       JNull)
    "a beach" "" Canvas.R16_9 (Some {| data := Some "CCCC"; mimeType := "image/jpeg" |})
  = Rejected (Error "Failed to generate thumbnail: No image was generated. The model may have refused the prompt. Please try describing a different scene.").
Proof. reflexivity. Qed.

End ServiceProperties.

(** * Further properties of the [App] component *)

Module AppProperties.
Import Js App AppFacts.

Local Open Scope string_scope.

(** ** The reference image handed to the service (line 142) *)

Lemma append_assoc (a b c : string) : (a ++ b) ++ c = a ++ (b ++ c).
Proof. induction a as [ | x a IH]; simpl; [reflexivity | rewrite IH; reflexivity]. Qed.

Lemma includes_comma_cons c rest :
  Service.includes (String c rest) "," = false ->
  Ascii.eqb c "," = false /\ Service.includes rest "," = false.
Proof.
  cbn [Service.includes String.prefix].
  destruct (ascii_dec "," c) as [<- | Hne].
  - destruct rest; discriminate.
  - intros H. apply Bool.orb_false_iff in H. destruct H as [_ H].
    split; [ | exact H].
    apply Ascii.eqb_neq. congruence.
Qed.

Lemma split_from_no_comma payload cur :
  Service.includes payload "," = false ->
  split_from "," cur payload = [cur ++ payload].
Proof.
  revert cur. induction payload as [ | c rest IH]; intros cur H.
  - simpl. f_equal. induction cur as [ | x cur IHc]; simpl; congruence.
  - destruct (includes_comma_cons c rest H) as [Hc Hrest].
    simpl. rewrite Hc, (IH _ Hrest). rewrite append_assoc. reflexivity.
Qed.

Lemma split_from_header header rest cur :
  Service.includes header "," = false ->
  split_from "," cur (header ++ "," ++ rest)
  = (cur ++ header) :: split_from "," "" rest.
Proof.
  revert cur. induction header as [ | c header IH]; intros cur H.
  - simpl. f_equal. induction cur as [ | x cur IHc]; simpl; congruence.
  - destruct (includes_comma_cons c header H) as [Hc Hrest].
    simpl. rewrite Hc, (IH _ Hrest). rewrite append_assoc. reflexivity.
Qed.

(** X7: with a reference image uploaded, [handleGenerate] always issues a
    request, even with an empty prompt, and hands the service the payload of
    the image's data URL, the text after its comma, with the image's type. *)
Theorem reference_image_payload_is_passed s header payload mime :
  uploadedImage s = Some {| data := header ++ "," ++ payload; mimeType := mime |} ->
  Service.includes header "," = false ->
  Service.includes payload "," = false ->
  exists call,
    snd (handleGenerate s) = Some call
    /\ call_image call
       = Some {| Service.data := Some payload; Service.mimeType := mime |}
    /\ call_prompt call = prompt s ++ ", " ++ toLowerCase (style s) ++ " style".
Proof.
  intros Hu Hh Hp. unfold handleGenerate. rewrite Hu.
  rewrite Bool.andb_false_r. cbn [snd is_null data mimeType].
  eexists. split; [reflexivity | ]. cbn [call_image call_prompt].
  split; [ | reflexivity].
  unfold split. rewrite (split_from_header _ _ _ Hh), (split_from_no_comma _ _ Hp).
  reflexivity.
Qed.

Lemma reference_image_payload_is_passed_witness :
  exists call,
    snd (handleGenerate
           (handleImageUpload {| data := "data:image/png;base64,iVBORw0KGgo=";
                                 mimeType := "image/png" |} initial))
    = Some call
    /\ call_image call
       = Some {| Service.data := Some "iVBORw0KGgo="; Service.mimeType := "image/png" |}
    /\ call_prompt call = ", cinematic style".
Proof.
  apply (reference_image_payload_is_passed
           (handleImageUpload {| data := "data:image/png;base64,iVBORw0KGgo=";
                                 mimeType := "image/png" |} initial)
           "data:image/png;base64" "iVBORw0KGgo=" "image/png").
  - reflexivity.
  - reflexivity.
  - reflexivity.
Defined.

(** ** What stays true while requests are in flight *)

Lemma loading_effect_rawImageUrl before after :
  rawImageUrl (loading_effect before after) = rawImageUrl after.
Proof.
  unfold loading_effect.
  destruct (same_url _ _); [reflexivity | ].
  destruct (truthy_opt _); reflexivity.
Qed.

(** No suggestion in flight, no [isSuggesting]; a generation in flight has
    cleared [rawImageUrl]; and a suggestion is only asked for a prompt that
    is not empty. *)
Definition flags_settle (w : World) : Prop :=
  (suggesting w = [] -> isSuggesting (ui w) = false)
  /\ (generating w <> [] -> rawImageUrl (ui w) = None)
  /\ Forall (fun currentPrompt => truthy currentPrompt = true) (suggesting w).

Ltac settle_setter :=
  unfold flags_settle, commit, with_ui;
  cbn [ui generating suggesting drawing];
  rewrite loading_effect_isSuggesting, loading_effect_rawImageUrl;
  auto.

Lemma generate_flags_settle w :
  isLoading (ui w) = false -> in_flight_flagged w -> flags_settle w ->
  flags_settle (commit (ui w) (generate w)).
Proof.
  intros Hl (_ & _ & Hgl & _) (Hs & Hr & Hp).
  assert (Hnil : generating w = []) by exact (not_flagged_nil _ _ Hgl Hl).
  unfold generate.
  destruct (handleGenerate_cases (ui w)) as [[-> _] | [call ->]];
    unfold flags_settle, commit; cbn [ui generating suggesting drawing];
    rewrite loading_effect_isSuggesting, loading_effect_rawImageUrl.
  - auto.
  - split; [exact Hs | split; [reflexivity | exact Hp] ].
Qed.

Lemma step_flags_settle w e w' :
  in_flight_flagged w -> flags_settle w -> step w e = Some w' -> flags_settle w'.
Proof.
  intros Hinv Hset Hstep. pose proof Hinv as (Hg & Hs & Hgl & Hsl).
  pose proof Hset as (Hns & Hraw & Hp).
  destruct e; cbn [step] in Hstep.
  - inversion Hstep; subst. settle_setter.
  - destruct (isLoading (ui w)); inversion Hstep; subst. settle_setter.
  - destruct (isLoading (ui w)); inversion Hstep; subst. settle_setter.
  - destruct (isLoading (ui w) || negb (existsb (String.eqb value) styles));
      inversion Hstep; subst. settle_setter.
  - destruct (isLoading (ui w)); inversion Hstep; subst. settle_setter.
  - inversion Hstep; subst. settle_setter.
  - destruct (is_null (uploadedImage (ui w))); inversion Hstep; subst. settle_setter.
  - (* ImproveClicked *)
    unfold improve_disabled in Hstep.
    destruct (isLoading (ui w)) eqn:El; [discriminate | ].
    destruct (isSuggesting (ui w)) eqn:Es; [discriminate | ].
    destruct (truthy (prompt (ui w))) eqn:Ep; [ | discriminate].
    cbn in Hstep. inversion Hstep; subst. clear Hstep.
    assert (Hnil : suggesting w = []) by exact (not_flagged_nil _ _ Hsl eq_refl).
    unfold improve, handleGetSuggestions. rewrite Ep. cbn [negb].
    unfold flags_settle, commit. cbn [ui generating suggesting drawing].
    rewrite loading_effect_isSuggesting, loading_effect_rawImageUrl. rewrite Hnil.
    split; [discriminate | split; [exact Hraw | ] ].
    constructor; [exact Ep | constructor].
  - (* SuggestionSettled *)
    destruct (suggesting w) as [ | c rest] eqn:Eq; [discriminate | ].
    inversion Hstep; subst. clear Hstep.
    unfold flags_settle, commit. cbn [ui generating suggesting drawing].
    rewrite loading_effect_isSuggesting, loading_effect_rawImageUrl.
    split; [ | split].
    + intros _. destruct outcome as [ | []]; reflexivity.
    + intros H. rewrite <- (Hraw H). destruct outcome as [ | []]; reflexivity.
    + inversion Hp; assumption.
  - (* GenerateClicked *)
    unfold generate_disabled in Hstep.
    destruct (isLoading (ui w)) eqn:El; [discriminate | ].
    destruct (negb (truthy (prompt (ui w))) && is_null (uploadedImage (ui w)));
      [discriminate | ].
    inversion Hstep; subst. apply generate_flags_settle; trivial.
  - (* TryAgainClicked *)
    unfold try_again_rendered, display in Hstep.
    destruct (isLoading (ui w)) eqn:El; [discriminate | ].
    destruct (match error (ui w) with Some (String c rest) => _ | _ => _ end);
      inversion Hstep; subst; apply generate_flags_settle; trivial.
  - (* GenerationSettled *)
    destruct (generating w) as [ | c rest] eqn:Eq; [discriminate | ].
    inversion Hstep; subst. clear Hstep.
    assert (Hrest : rest = []) by (destruct rest; [reflexivity | simpl in Hg; lia]).
    subst rest.
    unfold flags_settle, commit. cbn [ui generating suggesting drawing].
    rewrite loading_effect_isSuggesting, loading_effect_rawImageUrl.
    split; [ | split].
    + intros H. rewrite <- (Hns H). destruct outcome as [ | []]; reflexivity.
    + intros H. contradiction H. reflexivity.
    + exact Hp.
  - (* CanvasSettled *)
    destruct (drawing w) as [ | c rest] eqn:Eq; [discriminate | ].
    inversion Hstep; subst. clear Hstep.
    unfold flags_settle, commit. cbn [ui generating suggesting drawing].
    rewrite loading_effect_isSuggesting, loading_effect_rawImageUrl.
    split; [ | split].
    + intros H. rewrite <- (Hns H). destruct outcome as [ | []]; reflexivity.
    + intros H. rewrite <- (Hraw H). destruct outcome as [ | []]; reflexivity.
    + exact Hp.
  - destruct (display (ui w)); inversion Hstep; subst; trivial.
Qed.

Lemma reachable_flags_settle w : reachable w -> flags_settle w.
Proof.
  induction 1 as [ | w e w' Hr IH Hstep].
  - unfold flags_settle, start. cbn. split; [ | split]; auto.
  - exact (step_flags_settle w e w' (reachable_in_flight_flagged w Hr) IH Hstep).
Qed.

(** The page right after a click on the improve button. *)
Definition improving : World :=
  match step start ImproveClicked with
  | Some w => w
  | None => start
  end.

(** X8: the improve button's flag follows its request: in every state
    the page can reach, [isSuggesting] is set exactly while a suggestion
    request is in flight, so the flag cannot stay raised once the request has
    settled, whatever way it settled. *)
Theorem isSuggesting_iff_suggestion_in_flight w :
  reachable w ->
  (isSuggesting (ui w) = true <-> suggesting w <> []).
Proof.
  intros Hr.
  destruct (reachable_in_flight_flagged w Hr) as (_ & _ & _ & Hsl).
  destruct (reachable_flags_settle w Hr) as (Hns & _ & _).
  split; [ | exact Hsl].
  intros Ht Hnil. rewrite (Hns Hnil) in Ht. discriminate.
Qed.

Lemma isSuggesting_iff_suggestion_in_flight_witness :
  suggesting improving = [ initialPrompt ]
  /\ (isSuggesting (ui improving) = true <-> suggesting improving <> []).
Proof.
  split; [reflexivity | ].
  apply (isSuggesting_iff_suggestion_in_flight improving).
  exact (reachable_step start ImproveClicked improving reachable_start eq_refl).
Defined.

(** X9: the page asks for suggestions only for a prompt that is not
    empty: the text of every suggestion request in flight quotes the prompt
    itself, never the stand-in of line 90, "a popular YouTube video". *)
Theorem suggestions_quote_the_prompt w :
  reachable w ->
  Forall (fun currentPrompt =>
            currentPrompt <> ""
            /\ Service.userPrompt currentPrompt
               = "Based on the user's idea: '" ++ currentPrompt
                 ++ "', generate one improved and highly detailed visual prompt. The new prompt must include specific details about cinematic lighting, dynamic composition, and a clear emotional tone to make it more engaging.")
         (suggesting w).
Proof.
  intros Hr. destruct (reachable_flags_settle w Hr) as (_ & _ & Hp).
  eapply Forall_impl; [ | exact Hp].
  intros p Ht. unfold Service.userPrompt. rewrite Ht.
  split; [ | reflexivity]. intros ->. discriminate.
Qed.

Lemma suggestions_quote_the_prompt_witness :
  Forall (fun currentPrompt =>
            currentPrompt <> ""
            /\ Service.userPrompt currentPrompt
               = "Based on the user's idea: '" ++ currentPrompt
                 ++ "', generate one improved and highly detailed visual prompt. The new prompt must include specific details about cinematic lighting, dynamic composition, and a clear emotional tone to make it more engaging.")
         (suggesting improving).
Proof.
  apply (suggestions_quote_the_prompt improving).
  exact (reachable_step start ImproveClicked improving reachable_start eq_refl).
Defined.

(** ** From the service's answer to the display panel *)

Lemma same_ratio_refl r : same_ratio r r = true.
Proof. destruct r; reflexivity. Qed.

Lemma same_ratio_eq a b : same_ratio a b = true -> a = b.
Proof. destruct a, b; trivial; discriminate. Qed.

Lemma in_flight_single w c rest :
  in_flight_flagged w -> generating w = c :: rest -> rest = [].
Proof.
  intros (Hg & _) E. rewrite E in Hg.
  destruct rest; [reflexivity | simpl in Hg; lia].
Qed.

(** X10: when the request of [handleGenerate] settles, the loader goes,
    whichever way [generateThumbnail] settled: a rejection puts its message
    in [error]; a value, which is never the empty string, becomes
    [rawImageUrl], upon which the effect of lines 155-159 resets [isLoading]
    and the effect of lines 85-90 starts [drawCanvas] on it with the
    selected ratio. *)
Theorem settled_generation_ends_loading remote call w w' :
  reachable w ->
  step w (GenerationSettled (call_outcome remote call)) = Some w' ->
  isLoading (ui w') = false
  /\ generating w' = []
  /\ match call_outcome remote call with
     | Resolved url =>
         rawImageUrl (ui w') = Some url
         /\ drawing w' = (drawing w ++ [(url, aspectRatio (ui w))])%list
     | Rejected reason =>
         exists message,
           reason = Error message
           /\ error (ui w') = Some message
           /\ drawing w' = drawing w
     end.
Proof.
  intros Hr Hstep. cbn [step] in Hstep.
  pose proof (reachable_in_flight_flagged w Hr) as Hinv.
  destruct (reachable_flags_settle w Hr) as (_ & Hraw & _).
  destruct (generating w) as [ | c rest] eqn:Eg; [discriminate | ].
  assert (Hrest : rest = []) by exact (in_flight_single w c rest Hinv Eg).
  specialize (Hraw ltac:(discriminate)).
  inversion Hstep; subst w' rest. clear Hstep.
  unfold commit, canvas_effect, loading_effect.
  cbn [ui generating suggesting drawing].
  destruct (call_outcome remote call) as [url | reason] eqn:Eo.
  - assert (Ht : truthy url = true)
      by exact (ServiceProperties.generateThumbnail_url_truthy _ _ _ _ _ _ Eo).
    cbn [generation_settled setRawImageUrl rawImageUrl aspectRatio].
    rewrite Hraw. cbn [same_url andb truthy_opt]. rewrite Ht.
    repeat split.
  - destruct (ServiceFacts.generateThumbnail_rejected _ _ _ _ _ _ Eo)
      as (original & _ & ->).
    cbn [generation_settled].
    destruct (ServiceFacts.thumbnail_catch_shape original) as [-> | ->];
      cbn [setIsLoading setError rawImageUrl aspectRatio];
      rewrite same_url_refl, same_ratio_refl; cbn [andb];
      (split; [reflexivity | split; [reflexivity | ] ]);
      eexists; repeat split.
Qed.

Lemma settled_generation_ends_loading_witness :
  isLoading (ui (commit (ui busy)
                   {| ui := generation_settled
                              (Rejected (Error "Failed to generate thumbnail: quota exceeded"))
                              (ui busy);
                      generating := []; suggesting := []; drawing := [] |})) = false
  /\ generating (commit (ui busy)
                   {| ui := generation_settled
                              (Rejected (Error "Failed to generate thumbnail: quota exceeded"))
                              (ui busy);
                      generating := []; suggesting := []; drawing := [] |}) = []
  /\ exists message,
       Error "Failed to generate thumbnail: quota exceeded" = Error message
       /\ error (ui (commit (ui busy)
                       {| ui := generation_settled
                                  (Rejected (Error "Failed to generate thumbnail: quota exceeded"))
                                  (ui busy);
                          generating := []; suggesting := []; drawing := [] |}))
          = Some message
       /\ drawing (commit (ui busy)
                     {| ui := generation_settled
                                (Rejected (Error "Failed to generate thumbnail: quota exceeded"))
                                (ui busy);
                        generating := []; suggesting := []; drawing := [] |})
          = drawing busy.
Proof.
  apply (settled_generation_ends_loading
           (Service.failing_remote (Error "quota exceeded"))
           {| call_prompt := "a cat"; call_negativePrompt := "";
              call_aspectRatio := Canvas.R16_9; call_image := None |}
           busy).
  - exact (reachable_step start GenerateClicked busy reachable_start eq_refl).
  - reflexivity.
Defined.




(** X12: picking another aspect ratio re-frames the image already
    generated without asking the service again: no generation request is
    issued, [rawImageUrl] and the image on display stay, and one
    [drawCanvas] call is started on [rawImageUrl] with the new ratio.
    Picking the ratio already selected starts nothing. *)
Theorem aspect_ratio_change_redraws w r w' :
  step w (AspectRatioPicked r) = Some w' ->
  generating w' = generating w
  /\ aspectRatio (ui w') = r
  /\ rawImageUrl (ui w') = rawImageUrl (ui w)
  /\ finalImageUrl (ui w') = finalImageUrl (ui w)
  /\ (r = aspectRatio (ui w) -> drawing w' = drawing w)
  /\ (r <> aspectRatio (ui w) ->
      forall url, rawImageUrl (ui w) = Some url -> url <> "" ->
      drawing w' = (drawing w ++ [(url, r)])%list).
Proof.
  cbn [step]. destruct (isLoading (ui w)) eqn:El; [discriminate | ].
  intros H. inversion H; subst w'. clear H.
  unfold commit, with_ui, canvas_effect. cbn [ui generating suggesting drawing].
  rewrite loading_effect_unchanged by reflexivity.
  cbn [setAspectRatio rawImageUrl aspectRatio finalImageUrl].
  rewrite same_url_refl. cbn [andb].
  split; [reflexivity | ]. split; [reflexivity | ].
  split; [reflexivity | ]. split; [reflexivity | ]. split.
  - intros ->. rewrite same_ratio_refl. reflexivity.
  - intros Hne url Hu Hurl.
    destruct (same_ratio (aspectRatio (ui w)) r) eqn:Es.
    + contradiction Hne. symmetry. exact (same_ratio_eq _ _ Es).
    + rewrite Hu. destruct url; [contradiction Hurl; reflexivity | reflexivity].
Qed.

Lemma aspect_ratio_change_redraws_witness :
  exists w',
    step {| ui := showing_image; generating := []; suggesting := []; drawing := [] |}
         (AspectRatioPicked Canvas.R1_1) = Some w'
    /\ generating w' = []
    /\ aspectRatio (ui w') = Canvas.R1_1
    /\ rawImageUrl (ui w') = rawImageUrl showing_image
    /\ finalImageUrl (ui w') = finalImageUrl showing_image
    /\ (Canvas.R1_1 = aspectRatio showing_image -> drawing w' = [])
    /\ (Canvas.R1_1 <> aspectRatio showing_image ->
        forall url, rawImageUrl showing_image = Some url -> url <> "" ->
        drawing w' = ([] ++ [(url, Canvas.R1_1)])%list).
Proof.
  eexists. split; [reflexivity | ].
  apply (aspect_ratio_change_redraws
           {| ui := showing_image; generating := []; suggesting := []; drawing := [] |}
           Canvas.R1_1).
  reflexivity.
Defined.

(** X13: an error that arrives late takes the place of the image on
    display: after a failed suggestion, and after a failed [drawCanvas], the
    panel shows the message with "Try Again", though [finalImageUrl] still
    holds the image. The messages of [drawCanvas] are the two of lines 43
    and 55. *)
Theorem late_errors_replace_the_image s url :
  display s = ImageView url ->
  (forall err,
     display (suggestion_settled (Rejected err) s)
     = ErrorView match err with
                 | Error message => "Suggestion Error: " ++ message
                 | NonError _ => "An unknown error occurred while getting suggestions"
                 end
     /\ finalImageUrl (suggestion_settled (Rejected err) s) = Some url
     /\ try_again_rendered (suggestion_settled (Rejected err) s) = true)
  /\ (forall browser base64Image r err,
        Canvas.drawCanvas browser base64Image r = Rejected err ->
        (display (canvas_settled (Rejected err) s)
         = ErrorView "Canvas Render Error: Could not get canvas context"
         \/ display (canvas_settled (Rejected err) s)
            = ErrorView "Canvas Render Error: Failed to load image for canvas rendering.")
        /\ finalImageUrl (canvas_settled (Rejected err) s) = Some url
        /\ try_again_rendered (canvas_settled (Rejected err) s) = true).
Proof.
  unfold display.
  destruct (isLoading s) eqn:El; [discriminate | ].
  destruct (error s) as [[ | c rest] | ] eqn:Ee; try discriminate;
    (destruct (finalImageUrl s) as [[ | c' rest'] | ] eqn:Ef; try discriminate;
     intros H; inversion H; subst url; clear H; split;
     [ intros err; unfold try_again_rendered, display;
       destruct err as [message | shown];
         cbn [suggestion_settled setIsSuggesting setError isLoading error finalImageUrl];
         rewrite El, Ef; repeat split
     | intros browser base64Image r err Hdraw; unfold Canvas.drawCanvas in Hdraw;
       unfold try_again_rendered, display;
       destruct (Canvas.decode browser base64Image);
         [ destruct (negb (Canvas.context2d browser)); [ | discriminate] | ];
         inversion Hdraw; subst err;
         cbn [canvas_settled setError isLoading error finalImageUrl];
         rewrite El, Ef; (split; [ | split; reflexivity]); [left | right]; reflexivity ]).
Qed.

Lemma late_errors_replace_the_image_witness :
  (forall err,
     display (suggestion_settled (Rejected err) showing_image)
     = ErrorView match err with
                 | Error message => "Suggestion Error: " ++ message
                 | NonError _ => "An unknown error occurred while getting suggestions"
                 end
     /\ finalImageUrl (suggestion_settled (Rejected err) showing_image)
        = Some "data:image/jpeg;base64,BBBB"
     /\ try_again_rendered (suggestion_settled (Rejected err) showing_image) = true)
  /\ (forall browser base64Image r err,
        Canvas.drawCanvas browser base64Image r = Rejected err ->
        (display (canvas_settled (Rejected err) showing_image)
         = ErrorView "Canvas Render Error: Could not get canvas context"
         \/ display (canvas_settled (Rejected err) showing_image)
            = ErrorView "Canvas Render Error: Failed to load image for canvas rendering.")
        /\ finalImageUrl (canvas_settled (Rejected err) showing_image)
           = Some "data:image/jpeg;base64,BBBB"
        /\ try_again_rendered (canvas_settled (Rejected err) showing_image) = true).
Proof.
  apply (late_errors_replace_the_image showing_image "data:image/jpeg;base64,BBBB").
  reflexivity.
Defined.

(** X14: whenever the download button is on the page, that is whenever
    the panel shows an image, [handleDownload] offers exactly the image shown,
    under the name "bhagat-thumbnail.jpeg"; the guard of line 163 does not
    fire. *)
Theorem download_is_the_image_on_display s url :
  display s = ImageView url ->
  handleDownload s = Some {| href := url; download := "bhagat-thumbnail.jpeg" |}.
Proof.
  unfold display, handleDownload.
  destruct (isLoading s); [discriminate | ].
  destruct (error s) as [[ | c rest] | ]; try discriminate;
    (destruct (finalImageUrl s) as [[ | c' rest'] | ]; try discriminate;
     intros H; inversion H; reflexivity).
Qed.

Lemma download_is_the_image_on_display_witness :
  handleDownload showing_image
  = Some {| href := "data:image/jpeg;base64,BBBB"; download := "bhagat-thumbnail.jpeg" |}.
Proof.
  apply (download_is_the_image_on_display showing_image "data:image/jpeg;base64,BBBB").
  reflexivity.
Defined.

(** X15: uploading a reference image and removing it again is no round
    trip for the prompt: it leaves the initial prompt, whatever prompt was
    there before. The page is back as it was exactly when it held the initial
    prompt and no reference image. *)
Theorem upload_then_remove s uploaded :
  removeImage (handleImageUpload uploaded s)
  = setPrompt initialPrompt (setUploadedImage None s)
  /\ (removeImage (handleImageUpload uploaded s) = s
      <-> prompt s = initialPrompt /\ uploadedImage s = None).
Proof.
  split; [reflexivity | ]. split.
  - intros H. split.
    + rewrite <- H. reflexivity.
    + rewrite <- H. reflexivity.
  - intros [Hp Hu]. destruct s. cbn in *. subst. reflexivity.
Qed.

(** ** The prompt sent to the service (line 141) *)

Lemma loading_effect_style before after :
  style (loading_effect before after) = style after.
Proof.
  unfold loading_effect.
  destruct (same_url _ _); [reflexivity | ].
  destruct (truthy_opt _); reflexivity.
Qed.

(** The selected style is one of [styles], and so is the style of every
    request in flight. *)
Definition styled (w : World) : Prop :=
  In (style (ui w)) styles
  /\ Forall (fun call =>
               exists scene chosen,
                 In chosen styles
                 /\ call_prompt call = scene ++ ", " ++ toLowerCase chosen ++ " style")
            (generating w).

Ltac styled_setter :=
  unfold styled, commit, with_ui;
  cbn [ui generating suggesting drawing];
  rewrite loading_effect_style;
  auto.

Lemma generate_styled w :
  styled w -> styled (commit (ui w) (generate w)).
Proof.
  intros (Hs & Hc). unfold generate.
  destruct (handleGenerate (ui w)) as [s' call] eqn:E.
  unfold handleGenerate in E.
  destruct (negb (truthy (prompt (ui w))) && is_null (uploadedImage (ui w)));
    inversion E; subst; clear E; styled_setter.
  split; [exact Hs | ].
  apply Forall_app. split; [exact Hc | ].
  constructor; [ | constructor].
  exists (prompt (ui w)), (style (ui w)). split; [exact Hs | reflexivity].
Qed.

Lemma step_styled w e w' : styled w -> step w e = Some w' -> styled w'.
Proof.
  intros Hst Hstep. pose proof Hst as (Hs & Hc).
  destruct e; cbn [step] in Hstep.
  - inversion Hstep; subst. styled_setter.
  - destruct (isLoading (ui w)); inversion Hstep; subst. styled_setter.
  - destruct (isLoading (ui w)); inversion Hstep; subst. styled_setter.
  - destruct (isLoading (ui w)); [discriminate | ]. cbn [orb] in Hstep.
    destruct (existsb (String.eqb value) styles) eqn:Ex; [ | discriminate].
    inversion Hstep; subst. styled_setter.
    split; [ | exact Hc]. cbn [setStyle style].
    apply existsb_exists in Ex. destruct Ex as (x & Hin & Heq).
    apply String.eqb_eq in Heq. subst x. exact Hin.
  - destruct (isLoading (ui w)); inversion Hstep; subst. styled_setter.
  - inversion Hstep; subst. styled_setter.
  - destruct (is_null (uploadedImage (ui w))); inversion Hstep; subst. styled_setter.
  - destruct (improve_disabled (ui w)); inversion Hstep; subst.
    unfold improve, handleGetSuggestions.
    destruct (negb (truthy (prompt (ui w)))); styled_setter.
  - destruct (suggesting w); inversion Hstep; subst. styled_setter.
    split; [ | exact Hc]. destruct outcome as [ | []]; exact Hs.
  - destruct (generate_disabled (ui w)); inversion Hstep; subst.
    apply generate_styled; exact Hst.
  - destruct (try_again_rendered (ui w)); inversion Hstep; subst.
    apply generate_styled; exact Hst.
  - destruct (generating w) as [ | c rest] eqn:Eg; inversion Hstep; subst. styled_setter.
    split; [destruct outcome as [ | []]; exact Hs | ].
    inversion Hc; assumption.
  - destruct (drawing w); inversion Hstep; subst. styled_setter.
    split; [ | exact Hc]. destruct outcome as [ | []]; exact Hs.
  - destruct (display (ui w)); inversion Hstep; subst; exact Hst.
Qed.

Lemma reachable_styled w : reachable w -> styled w.
Proof.
  induction 1 as [ | w e w' Hr IH Hstep].
  - unfold styled, start. cbn. split; [left; reflexivity | constructor].
  - exact (step_styled w e w' IH Hstep).
Qed.

(** X16: the prompt of every generation request the page sends is the
    prompt of the page followed by ", <style> style", with one of the six
    styles in lower case; so it is never empty, even when the prompt of the
    page is. *)
Theorem generation_prompt_names_a_style w :
  reachable w ->
  Forall (fun call =>
            exists scene suffix,
              call_prompt call = scene ++ suffix
              /\ In suffix [ ", cinematic style"; ", minimalist style";
                             ", cartoonish style"; ", photorealistic style";
                             ", vibrant style"; ", dark & moody style" ])
         (generating w).
Proof.
  intros Hr. destruct (reachable_styled w Hr) as (_ & Hc).
  eapply Forall_impl; [ | exact Hc].
  intros call (scene & chosen & Hin & ->).
  exists scene, (", " ++ toLowerCase chosen ++ " style").
  split; [reflexivity | ].
  cbn [styles In] in Hin.
  destruct Hin as [<- | [<- | [<- | [<- | [<- | [<- | []]]]]]]; cbn; tauto.
Qed.

Lemma generation_prompt_names_a_style_witness :
  Forall (fun call =>
            exists scene suffix,
              call_prompt call = scene ++ suffix
              /\ In suffix [ ", cinematic style"; ", minimalist style";
                             ", cartoonish style"; ", photorealistic style";
                             ", vibrant style"; ", dark & moody style" ])
         (generating busy).
Proof.
  apply (generation_prompt_names_a_style busy).
  exact (reachable_step start GenerateClicked busy reachable_start eq_refl).
Defined.

(** ** What the page shows of a failure of the service *)

(** X18: the service rejects with [Error] objects only, so the page
    never shows the stand-in texts of lines 126 and 148. When the model
    behind a suggestion throws, [error] becomes "Suggestion Error: Failed to
    get prompt suggestions: " followed by the message thrown; when the model
    behind a generation throws, [error] becomes the safety-policy message if
    the message thrown contains "blocked" or "safety", and "Failed to
    generate thumbnail: " followed by the message thrown otherwise. Every
    rejection of the two functions puts such a text in [error], around the
    message of what their [try] block threw. *)
Theorem service_failures_on_the_page remote s :
  (forall currentPrompt thrown,
     Service.generateContent remote (Service.suggestion_request currentPrompt)
       = Rejected thrown ->
     exists reason,
       Service.getPromptSuggestions remote currentPrompt = Rejected reason
       /\ error (suggestion_settled (Rejected reason) s)
          = Some ("Suggestion Error: Failed to get prompt suggestions: "
                  ++ Service.errorMessage thrown))
  /\ (forall currentPrompt reason,
        Service.getPromptSuggestions remote currentPrompt = Rejected reason ->
        exists original,
          Service.suggestions_try remote currentPrompt = Rejected original
          /\ error (suggestion_settled (Rejected reason) s)
             = Some ("Suggestion Error: Failed to get prompt suggestions: "
                     ++ Service.errorMessage original))
  /\ (forall call thrown,
        Service.remote_failure remote (call_prompt call) (call_negativePrompt call)
          (call_aspectRatio call) (call_image call) = Some thrown ->
        exists reason,
          call_outcome remote call = Rejected reason
          /\ error (generation_settled (Rejected reason) s)
             = Some (if Service.includes (Service.errorMessage thrown) "blocked"
                        || Service.includes (Service.errorMessage thrown) "safety"
                     then Service.safety_message
                     else "Failed to generate thumbnail: " ++ Service.errorMessage thrown))
  /\ (forall call reason,
        call_outcome remote call = Rejected reason ->
        exists original,
          Service.thumbnail_try remote (call_prompt call) (call_negativePrompt call)
            (call_aspectRatio call) (call_image call) = Rejected original
          /\ error (generation_settled (Rejected reason) s)
             = Some (if Service.includes (Service.errorMessage original) "blocked"
                        || Service.includes (Service.errorMessage original) "safety"
                     then Service.safety_message
                     else "Failed to generate thumbnail: "
                          ++ Service.errorMessage original)).
Proof.
  split; [ | split; [ | split] ].
  - intros currentPrompt thrown Hfail.
    unfold Service.getPromptSuggestions, Service.suggestions_try. rewrite Hfail.
    eexists. split; reflexivity.
  - intros currentPrompt reason. unfold Service.getPromptSuggestions.
    destruct (Service.suggestions_try remote currentPrompt) as [parsed | original];
      [discriminate | ].
    intros H. inversion H. exists original. split; reflexivity.
  - intros call thrown Hfail. unfold call_outcome, Service.generateThumbnail.
    rewrite (ServiceFacts.thumbnail_try_remote_failure _ _ _ _ _ _ Hfail).
    eexists. split; [reflexivity | ].
    unfold Service.thumbnail_catch.
    destruct (Service.includes (Service.errorMessage thrown) "blocked"
              || Service.includes (Service.errorMessage thrown) "safety"); reflexivity.
  - intros call reason H. unfold call_outcome in H.
    destruct (ServiceFacts.generateThumbnail_rejected _ _ _ _ _ _ H)
      as (original & Htry & ->).
    exists original. split; [exact Htry | ].
    unfold Service.thumbnail_catch.
    destruct (Service.includes (Service.errorMessage original) "blocked"
              || Service.includes (Service.errorMessage original) "safety"); reflexivity.
Qed.

Example a_failed_suggestion_on_the_page :
  exists reason,
    Service.getPromptSuggestions (Service.failing_remote (Error "quota exceeded")) "a cat"
      = Rejected reason
    /\ error (suggestion_settled (Rejected reason) initial)
       = Some "Suggestion Error: Failed to get prompt suggestions: quota exceeded".
Proof. eexists. split; reflexivity. Qed.

(** ** What changes the images *)

Lemma loading_effect_finalImageUrl before after :
  finalImageUrl (loading_effect before after) = finalImageUrl after.
Proof.
  unfold loading_effect.
  destruct (same_url _ _); [reflexivity | ].
  destruct (truthy_opt _); reflexivity.
Qed.

Lemma canvas_effect_same before after :
  rawImageUrl after = rawImageUrl before -> aspectRatio after = aspectRatio before ->
  canvas_effect before after = None.
Proof.
  intros Hr Ha. unfold canvas_effect.
  rewrite Hr, Ha, same_url_refl, same_ratio_refl. reflexivity.
Qed.

Lemma canvas_effect_cleared before after :
  rawImageUrl after = None -> canvas_effect before after = None.
Proof.
  intros Hr. unfold canvas_effect. rewrite Hr.
  destruct (same_url _ _ && same_ratio _ _); reflexivity.
Qed.

Lemma not_longer {A : Type} (l : list A) (x : A) : l <> (l ++ [x])%list.
Proof.
  intros H. apply (f_equal (@List.length A)) in H.
  rewrite length_app in H. simpl in H. lia.
Qed.

Lemma not_longer_tail {A : Type} (c : A) (rest : list A) (x : A) :
  rest <> ((c :: rest) ++ [x])%list.
Proof.
  intros H. apply (f_equal (@List.length A)) in H.
  simpl in H. rewrite length_app in H. simpl in H. lia.
Qed.

Ltac frame_setter :=
  unfold commit, with_ui; cbn [ui generating suggesting drawing];
  rewrite ?loading_effect_finalImageUrl, ?loading_effect_rawImageUrl;
  rewrite ?canvas_effect_same by reflexivity;
  (split; [intros H; contradiction H; reflexivity | ]);
  (split; [intros H; contradiction H; reflexivity | ]);
  intros [call H]; contradiction (not_longer _ _ H).

Lemma generate_frame w :
  drawing (commit (ui w) (generate w)) = drawing w.
Proof.
  unfold generate.
  destruct (handleGenerate_cases (ui w)) as [[-> _] | [call ->]];
    unfold commit; cbn [ui generating suggesting drawing].
  - rewrite canvas_effect_same by reflexivity. reflexivity.
  - rewrite canvas_effect_cleared by reflexivity. reflexivity.
Qed.

(** X19: what can change the images. [finalImageUrl] changes only when a
    generation is started (it is cleared) or a [drawCanvas] call resolves;
    [rawImageUrl] only when a generation is started or resolves; and a
    [drawCanvas] call is started only when a generation resolves or another
    aspect ratio is picked. Typing, styles, uploads, suggestions and
    downloads leave all three alone. *)
Theorem images_change_only_by_generation_and_drawing w e w' :
  step w e = Some w' ->
  (finalImageUrl (ui w') <> finalImageUrl (ui w) ->
   e = GenerateClicked \/ e = TryAgainClicked
   \/ exists url, e = CanvasSettled (Resolved url))
  /\ (rawImageUrl (ui w') <> rawImageUrl (ui w) ->
      e = GenerateClicked \/ e = TryAgainClicked
      \/ exists url, e = GenerationSettled (Resolved url))
  /\ ((exists call, drawing w' = (drawing w ++ [call])%list) ->
      (exists url, e = GenerationSettled (Resolved url))
      \/ exists r, e = AspectRatioPicked r).
Proof.
  intros Hstep. destruct e; cbn [step] in Hstep.
  - inversion Hstep; subst. frame_setter.
  - destruct (isLoading (ui w)); inversion Hstep; subst. frame_setter.
  - destruct (isLoading (ui w)); inversion Hstep; subst. frame_setter.
  - destruct (isLoading (ui w) || negb (existsb (String.eqb value) styles));
      inversion Hstep; subst. frame_setter.
  - destruct (isLoading (ui w)); inversion Hstep; subst.
    unfold commit, with_ui; cbn [ui generating suggesting drawing].
    rewrite loading_effect_finalImageUrl, loading_effect_rawImageUrl.
    split; [intros H; contradiction H; reflexivity | ].
    split; [intros H; contradiction H; reflexivity | ].
    intros _. right. eexists. reflexivity.
  - inversion Hstep; subst. frame_setter.
  - destruct (is_null (uploadedImage (ui w))); inversion Hstep; subst. frame_setter.
  - destruct (improve_disabled (ui w)); inversion Hstep; subst.
    unfold improve, handleGetSuggestions.
    destruct (negb (truthy (prompt (ui w)))); frame_setter.
  - destruct (suggesting w); inversion Hstep; subst.
    unfold commit; cbn [ui generating suggesting drawing].
    rewrite loading_effect_finalImageUrl, loading_effect_rawImageUrl.
    rewrite canvas_effect_same by (destruct outcome as [ | []]; reflexivity).
    split; [intros H; contradiction H; destruct outcome as [ | []]; reflexivity | ].
    split; [intros H; contradiction H; destruct outcome as [ | []]; reflexivity | ].
    intros [call H]; contradiction (not_longer _ _ H).
  - destruct (generate_disabled (ui w)); inversion Hstep; subst.
    split; [auto | ]. split; [auto | ].
    rewrite generate_frame. intros [call H]; contradiction (not_longer _ _ H).
  - destruct (try_again_rendered (ui w)); inversion Hstep; subst.
    split; [auto | ]. split; [auto | ].
    rewrite generate_frame. intros [call H]; contradiction (not_longer _ _ H).
  - destruct (generating w); inversion Hstep; subst.
    unfold commit; cbn [ui generating suggesting drawing].
    rewrite loading_effect_finalImageUrl, loading_effect_rawImageUrl.
    destruct outcome as [url | reason].
    + split; [intros H; contradiction H; reflexivity | ].
      split; [intros _; right; right; eexists; reflexivity | ].
      intros _. left. eexists. reflexivity.
    + rewrite canvas_effect_same by (destruct reason; reflexivity).
      split; [intros H; contradiction H; destruct reason; reflexivity | ].
      split; [intros H; contradiction H; destruct reason; reflexivity | ].
      intros [call H]; contradiction (not_longer _ _ H).
  - destruct (drawing w) as [ | c rest] eqn:Ed; inversion Hstep; subst.
    unfold commit; cbn [ui generating suggesting drawing].
    rewrite loading_effect_finalImageUrl, loading_effect_rawImageUrl.
    rewrite canvas_effect_same by (destruct outcome as [ | []]; reflexivity).
    destruct outcome as [url | reason].
    + split; [intros _; right; right; eexists; reflexivity | ].
      split; [intros H; contradiction H; reflexivity | ].
      intros [call H]; contradiction (not_longer_tail _ _ _ H).
    + split; [intros H; contradiction H; destruct reason; reflexivity | ].
      split; [intros H; contradiction H; destruct reason; reflexivity | ].
      intros [call H]; contradiction (not_longer_tail _ _ _ H).
  - destruct (display (ui w)); inversion Hstep; subst.
    split; [intros H; contradiction H; reflexivity | ].
    split; [intros H; contradiction H; reflexivity | ].
    intros [call H]; contradiction (not_longer _ _ H).
Qed.

(** The page once the generation started at [busy] has resolved, with
    [drawCanvas] running. *)
Definition drawn : World :=
  match step busy (GenerationSettled (Resolved "data:image/jpeg;base64,AAAA")) with
  | Some w => w
  | None => busy
  end.

(** The page once that [drawCanvas] call has resolved. *)
Definition framed : World :=
  match step drawn (CanvasSettled (Resolved "data:image/jpeg;base64,BBBB")) with
  | Some w => w
  | None => drawn
  end.

Lemma images_change_only_by_generation_and_drawing_witness :
  (rawImageUrl (ui drawn) <> rawImageUrl (ui busy)
   /\ drawing drawn
      = (drawing busy ++ [("data:image/jpeg;base64,AAAA", Canvas.R16_9)])%list
   /\ finalImageUrl (ui framed) <> finalImageUrl (ui drawn))
  /\ ((finalImageUrl (ui drawn) <> finalImageUrl (ui busy) ->
       GenerationSettled (Resolved "data:image/jpeg;base64,AAAA") = GenerateClicked
       \/ GenerationSettled (Resolved "data:image/jpeg;base64,AAAA") = TryAgainClicked
       \/ exists url,
            GenerationSettled (Resolved "data:image/jpeg;base64,AAAA")
            = CanvasSettled (Resolved url))
      /\ (rawImageUrl (ui drawn) <> rawImageUrl (ui busy) ->
          GenerationSettled (Resolved "data:image/jpeg;base64,AAAA") = GenerateClicked
          \/ GenerationSettled (Resolved "data:image/jpeg;base64,AAAA") = TryAgainClicked
          \/ exists url,
               GenerationSettled (Resolved "data:image/jpeg;base64,AAAA")
               = GenerationSettled (Resolved url))
      /\ ((exists call, drawing drawn = (drawing busy ++ [call])%list) ->
          (exists url,
             GenerationSettled (Resolved "data:image/jpeg;base64,AAAA")
             = GenerationSettled (Resolved url))
          \/ exists r,
               GenerationSettled (Resolved "data:image/jpeg;base64,AAAA")
               = AspectRatioPicked r))
  /\ ((finalImageUrl (ui framed) <> finalImageUrl (ui drawn) ->
       CanvasSettled (Resolved "data:image/jpeg;base64,BBBB") = GenerateClicked
       \/ CanvasSettled (Resolved "data:image/jpeg;base64,BBBB") = TryAgainClicked
       \/ exists url,
            CanvasSettled (Resolved "data:image/jpeg;base64,BBBB")
            = CanvasSettled (Resolved url))
      /\ (rawImageUrl (ui framed) <> rawImageUrl (ui drawn) ->
          CanvasSettled (Resolved "data:image/jpeg;base64,BBBB") = GenerateClicked
          \/ CanvasSettled (Resolved "data:image/jpeg;base64,BBBB") = TryAgainClicked
          \/ exists url,
               CanvasSettled (Resolved "data:image/jpeg;base64,BBBB")
               = GenerationSettled (Resolved url))
      /\ ((exists call, drawing framed = (drawing drawn ++ [call])%list) ->
          (exists url,
             CanvasSettled (Resolved "data:image/jpeg;base64,BBBB")
             = GenerationSettled (Resolved url))
          \/ exists r,
               CanvasSettled (Resolved "data:image/jpeg;base64,BBBB")
               = AspectRatioPicked r)).
Proof.
  split; [ | split].
  - split; [ | split].
    + vm_compute. discriminate.
    + reflexivity.
    + vm_compute. discriminate.
  - apply (images_change_only_by_generation_and_drawing
             busy (GenerationSettled (Resolved "data:image/jpeg;base64,AAAA")) drawn).
    reflexivity.
  - apply (images_change_only_by_generation_and_drawing
             drawn (CanvasSettled (Resolved "data:image/jpeg;base64,BBBB")) framed).
    reflexivity.
Defined.

End AppProperties.

(** * Properties of the [Loader] component *)

Module LoaderProperties.
Import Loader.

Local Open Scope Z_scope.

Lemma messageIndex_mod n : messageIndex n = Z.of_nat n mod 6.
Proof.
  induction n as [ | n IH].
  - reflexivity.
  - cbn [messageIndex]. rewrite IH. unfold next.
    change (Z.of_nat (List.length loadingMessages)) with 6.
    pose proof (Z.mod_pos_bound (Z.of_nat n) 6 ltac:(lia)).
    rewrite Z.rem_mod_nonneg by lia.
    rewrite Z.add_mod_idemp_l by lia.
    f_equal. lia.
Qed.

(** X17: the loader always has a message to show, and shows the six in
    turn: after [n] ticks the index is [n mod 6], which is inside
    [loadingMessages], and six ticks later the same message is back. *)
Theorem loader_cycles_through_its_messages n :
  messageIndex n = Z.of_nat n mod 6
  /\ message (messageIndex n) = nth_error loadingMessages (Nat.modulo n 6)
  /\ (exists text, message (messageIndex n) = Some text /\ In text loadingMessages)
  /\ messageIndex (n + 6) = messageIndex n.
Proof.
  assert (Hm : message (messageIndex n) = nth_error loadingMessages (Nat.modulo n 6)).
  { rewrite messageIndex_mod. unfold message.
    pose proof (Z.mod_pos_bound (Z.of_nat n) 6 ltac:(lia)).
    destruct (Z.ltb_spec (Z.of_nat n mod 6) 0) as [Hneg | _]; [lia | ].
    f_equal. change 6 with (Z.of_nat 6).
    rewrite <- Nat2Z.inj_mod. apply Nat2Z.id. }
  split; [apply messageIndex_mod | ]. split; [exact Hm | ]. split.
  - rewrite Hm.
    assert (Hlt : (Nat.modulo n 6 < List.length loadingMessages)%nat)
      by (apply Nat.mod_upper_bound; discriminate).
    destruct (nth_error loadingMessages (Nat.modulo n 6)) as [text | ] eqn:E.
    + exists text. split; [reflexivity | ]. exact (nth_error_In _ _ E).
    + apply nth_error_None in E. lia.
  - rewrite !messageIndex_mod. rewrite Nat2Z.inj_add.
    change (Z.of_nat 6) with (1 * 6).
    apply Z.mod_add. lia.
Qed.

End LoaderProperties.
